(** * changelog-master: the changelog service

    A shallow embedding of [src/services/changelogService.ts]:
    the Markdown changelog parser ([parseChangelog]), the bullet
    classifier ([categorizeItem]), [getLatestVersion], the retrying
    fetcher ([fetchWithRetry]) and the multi-source fetch
    ([fetchAllActiveChangelogs]).

    JavaScript strings are sequences of UTF-16 code units; the regular
    expressions of the service carry no [u] flag, so they too work on
    code units.  A string is therefore a [list N] here. *)

From Stdlib Require Import NArith List String Ascii Bool Lia.
From stdpp Require Import base option list gmap.

Local Open Scope N_scope.

(** ** Strings *)

Abbreviation jsstring := (list N).

(** ASCII literals: every character of the literal is one code unit. *)
Definition js (s : string) : jsstring :=
  map N_of_ascii (list_ascii_of_string s).

Module Chars.

(** [\d] *)
Definition isDigit (c : N) : bool := (48 <=? c) && (c <=? 57).

Definition isUpper (c : N) : bool := (65 <=? c) && (c <=? 90).
Definition isLower (c : N) : bool := (97 <=? c) && (c <=? 122).

(** [\w] without the [u] and [i] flags: [A-Za-z0-9_] *)
Definition isWord (c : N) : bool :=
  isUpper c || isLower c || isDigit c || (c =? 95).

(** [\s], and the characters removed by [String.prototype.trim]:
    WhiteSpace and LineTerminator of ECMA-262. *)
Definition isSpace (c : N) : bool :=
  ((9 <=? c) && (c <=? 13)) || (c =? 32) || (c =? 0xA0) || (c =? 0x1680)
  || ((0x2000 <=? c) && (c <=? 0x200A))
  || (c =? 0x2028) || (c =? 0x2029) || (c =? 0x202F) || (c =? 0x205F)
  || (c =? 0x3000) || (c =? 0xFEFF).

Definition isChar (d : N) (c : N) : bool := c =? d.

Definition hash : N := 35.
Definition lparen : N := 40.
Definition rparen : N := 41.
Definition star : N := 42.
Definition comma : N := 44.
Definition hyphen : N := 45.
Definition dot : N := 46.
Definition lbracket : N := 91.
Definition rbracket : N := 93.
Definition space : N := 32.
Definition newline : N := 10.
Definition endash : N := 0x2013.

(** [[a-zA-Z0-9.]] *)
Definition isTagChar (c : N) : bool :=
  isLower c || isUpper c || isDigit c || (c =? dot).

(** The class written between the brackets at the head of the
    date-after-dash expression of [parseChangelog].  The source file
    holds, after the hyphen, the three characters U+00E2, U+20AC and
    U+201C. *)
Definition isDashClass (c : N) : bool :=
  (c =? hyphen) || (c =? 0xE2) || (c =? 0x20AC) || (c =? 0x201C).

End Chars.

(** ** String operations of the JavaScript runtime used by the service *)

Module Str.

(** [s.startsWith(p)] *)
Fixpoint startsWith (s p : jsstring) : bool :=
  match p, s with
  | [], _ => true
  | _ :: _, [] => false
  | d :: p', c :: s' => (c =? d) && startsWith s' p'
  end.

(** [s.includes(p)] *)
Fixpoint includes (s p : jsstring) : bool :=
  startsWith s p ||
  match s with
  | [] => false
  | _ :: s' => includes s' p
  end.

(** [s.slice(n)] for [n >= 0] *)
Definition slice (n : nat) (s : jsstring) : jsstring := drop n s.

Fixpoint trimStart (s : jsstring) : jsstring :=
  match s with
  | c :: s' => if Chars.isSpace c then trimStart s' else s
  | [] => []
  end.

Definition trimEnd (s : jsstring) : jsstring :=
  reverse (trimStart (reverse s)).

(** [s.trim()] *)
Definition trim (s : jsstring) : jsstring := trimEnd (trimStart s).

(** [s.split('\n')]: always at least one piece. *)
Fixpoint split_lines (s : jsstring) : list jsstring :=
  match s with
  | [] => [[]]
  | c :: s' =>
      if c =? Chars.newline then [] :: split_lines s'
      else match split_lines s' with
           | l :: ls => (c :: l) :: ls
           | [] => [[c]]
           end
  end.

(** [ls.join('\n')] *)
Fixpoint join_lines (ls : list jsstring) : jsstring :=
  match ls with
  | [] => []
  | [l] => l
  | l :: ls' => l ++ Chars.newline :: join_lines ls'
  end.

End Str.

(** ** Regular expressions

    The three expressions of [parseChangelog] use alternation, one
    capture group, an optional non-capturing group, the anchors [^] and
    [$], and greedy quantifiers applied to single character classes.
    The matcher below is the backtracking matcher of ECMA-262 restricted
    to these forms, in continuation-passing style: a continuation that
    fails makes the matcher try its next choice. *)

Module Regex.

Inductive regex : Type :=
| Eps
| Chr (p : N -> bool)
| Seq (r1 r2 : regex)
| Alt (r1 r2 : regex)
| Rep (p : N -> bool) (lo : nat) (hi : option nat)
| Opt (r : regex)
| Group (i : nat) (r : regex)
| Bol
| Eol.

(** What is left of the subject, and the groups captured so far (the
    most recent first). *)
Record mstate : Type := MState {
  rest : jsstring;
  caps : list (nat * jsstring)
}.

Definition cont : Type := mstate -> option mstate.

(** The part of [s] that was consumed to reach its suffix [s']. *)
Definition consumed (s s' : jsstring) : jsstring :=
  take (length s - length s')%nat s.

Definition room (hi : option nat) : bool :=
  match hi with Some O => false | _ => true end.

(** [p{lo,hi}], greedy: take one more character when allowed, and give
    it back when the rest of the expression fails. *)
Fixpoint rep (p : N -> bool) (lo : nat) (hi : option nat) (k : cont)
    (cs : list (nat * jsstring)) (s : jsstring) : option mstate :=
  let stop := match lo with O => k (MState s cs) | S _ => None end in
  match s with
  | c :: s' =>
      if p c && room hi then
        match rep p (pred lo) (pred <$> hi) k cs s' with
        | Some res => Some res
        | None => stop
        end
      else stop
  | [] => stop
  end.

Section Matcher.

Variable input : jsstring.

Fixpoint rmatch (r : regex) (k : cont) (st : mstate) : option mstate :=
  match r with
  | Eps => k st
  | Chr p =>
      match rest st with
      | c :: s' => if p c then k (MState s' (caps st)) else None
      | [] => None
      end
  | Seq r1 r2 => rmatch r1 (rmatch r2 k) st
  | Alt r1 r2 =>
      match rmatch r1 k st with
      | Some res => Some res
      | None => rmatch r2 k st
      end
  | Rep p lo hi => rep p lo hi k (caps st) (rest st)
  | Opt r1 =>
      match rmatch r1 k st with
      | Some res => Some res
      | None => k st
      end
  | Group i r1 =>
      rmatch r1
        (fun st' =>
           k (MState (rest st')
                ((i, consumed (rest st) (rest st')) :: caps st')))
        st
  | Bol => if (length (rest st) =? length input)%nat then k st else None
  | Eol => match rest st with [] => k st | _ :: _ => None end
  end.

(** [RegExp.prototype.exec] without the [g] and [y] flags: the first
    start index, from 0 to the length of the subject, at which the
    expression matches. *)
Fixpoint exec_from (r : regex) (s : jsstring) : option mstate :=
  match rmatch r Some (MState s []) with
  | Some res => Some res
  | None =>
      match s with
      | [] => None
      | _ :: s' => exec_from r s'
      end
  end.

End Matcher.

(** [subject.match(r)]: the captures of the first match, if any. *)
Definition exec (r : regex) (subject : jsstring) : option mstate :=
  exec_from subject r subject.

(** [m[i]] of a match result. *)
Fixpoint lookup_group (i : nat) (cs : list (nat * jsstring)) : option jsstring :=
  match cs with
  | [] => None
  | (j, v) :: cs' => if (i =? j)%nat then Some v else lookup_group i cs'
  end.

Definition group (i : nat) (m : mstate) : option jsstring :=
  lookup_group i (caps m).

(** Expressions without [^]: their matches do not depend on where the
    subject starts. *)
Fixpoint bolFree (r : regex) : bool :=
  match r with
  | Bol => false
  | Seq r1 r2 | Alt r1 r2 => bolFree r1 && bolFree r2
  | Opt r1 | Group _ r1 => bolFree r1
  | Eps | Chr _ | Rep _ _ _ | Eol => true
  end.

(** Declarative reading of an expression: [Matches input r st st'] when
    [r] can take the matcher from [st] to [st']. *)
Inductive Matches (input : jsstring) : regex -> mstate -> mstate -> Prop :=
| MEps st : Matches input Eps st st
| MChr p c s cs : p c = true ->
    Matches input (Chr p) (MState (c :: s) cs) (MState s cs)
| MSeq r1 r2 st1 st2 st3 :
    Matches input r1 st1 st2 -> Matches input r2 st2 st3 ->
    Matches input (Seq r1 r2) st1 st3
| MAltL r1 r2 st st' : Matches input r1 st st' -> Matches input (Alt r1 r2) st st'
| MAltR r1 r2 st st' : Matches input r2 st st' -> Matches input (Alt r1 r2) st st'
| MRep p lo hi w s cs :
    forallb p w = true -> (lo <= length w)%nat ->
    (forall h, hi = Some h -> (length w <= h)%nat) ->
    Matches input (Rep p lo hi) (MState (w ++ s) cs) (MState s cs)
| MOptSome r st st' : Matches input r st st' -> Matches input (Opt r) st st'
| MOptNone r st : Matches input (Opt r) st st
| MGroup i r st st' :
    Matches input r st st' ->
    Matches input (Group i r) st
      (MState (rest st') ((i, consumed (rest st) (rest st')) :: caps st'))
| MBol st : length (rest st) = length input -> Matches input Bol st st
| MEol cs : Matches input Eol (MState [] cs) (MState [] cs).

End Regex.

(** ** The changelog parser *)

Module Changelog.

Import Regex.

Declare Scope regex_scope.
Delimit Scope regex_scope with re.
Infix ">>" := Seq (at level 60, right associativity) : regex_scope.
Local Open Scope regex_scope.

(** [ChangelogItem['type']] *)
Inductive ItemType : Type := Breaking | Removal | Fix | Feature | Other.

Record ChangelogItem : Type := {
  type : ItemType;
  content : jsstring
}.

Record ChangelogVersion : Type := {
  version : jsstring;
  date : jsstring;
  items : list ChangelogItem;
  sourceId : option jsstring;
  sourceName : option jsstring
}.

(** [a || b] on strings: the empty string is the only falsy one. *)
Definition orElse (a b : jsstring) : jsstring :=
  match a with [] => b | _ :: _ => a end.

(** [\d+\.\d+\.\d+(?:-[a-zA-Z0-9.]+)?] *)
Definition versionTokenRe : regex :=
  Rep Chars.isDigit 1 None >> Chr (Chars.isChar Chars.dot)
  >> Rep Chars.isDigit 1 None >> Chr (Chars.isChar Chars.dot)
  >> Rep Chars.isDigit 1 None
  >> Opt (Chr (Chars.isChar Chars.hyphen) >> Rep Chars.isTagChar 1 None).

(** [\s+\[?(\d+\.\d+\.\d+(?:-[a-zA-Z0-9.]+)?)\]?] *)
Definition versionTailRe : regex :=
  Rep Chars.isSpace 1 None
  >> Rep (Chars.isChar Chars.lbracket) 0 (Some 1%nat)
  >> Group 1 versionTokenRe
  >> Rep (Chars.isChar Chars.rbracket) 0 (Some 1%nat).

(** [/^#{1,2}\s+\[?(\d+\.\d+\.\d+(?:-[a-zA-Z0-9.]+)?)\]?/] *)
Definition versionRe : regex :=
  Bol >> Rep (Chars.isChar Chars.hash) 1 (Some 2%nat) >> versionTailRe.

(** [\d{4}-\d{2}-\d{2}] *)
Definition isoDateRe : regex :=
  Rep Chars.isDigit 4 (Some 4%nat) >> Chr (Chars.isChar Chars.hyphen)
  >> Rep Chars.isDigit 2 (Some 2%nat) >> Chr (Chars.isChar Chars.hyphen)
  >> Rep Chars.isDigit 2 (Some 2%nat).

(** [/\((\d{4}-\d{2}-\d{2})\)\s*$/] *)
Definition dateInParensRe : regex :=
  Chr (Chars.isChar Chars.lparen) >> Group 1 isoDateRe
  >> Chr (Chars.isChar Chars.rparen) >> Rep Chars.isSpace 0 None >> Eol.

(** [\w+\s+\d+,?\s*\d{4}] *)
Definition monthDateRe : regex :=
  Rep Chars.isWord 1 None >> Rep Chars.isSpace 1 None
  >> Rep Chars.isDigit 1 None >> Rep (Chars.isChar Chars.comma) 0 (Some 1%nat)
  >> Rep Chars.isSpace 0 None >> Rep Chars.isDigit 4 (Some 4%nat).

(** The date-after-dash expression: the class [Chars.isDashClass],
    then [\s*(\d{4}-\d{2}-\d{2}|\w+\s+\d+,?\s*\d{4})]. *)
Definition dateAfterDashRe : regex :=
  Chr Chars.isDashClass >> Rep Chars.isSpace 0 None
  >> Group 1 (Alt isoDateRe monthDateRe).

(** [m[1]] where group 1 takes part in every match. *)
Definition capture1 (m : mstate) : jsstring := default [] (group 1 m).

(** Lines 110-119: the date written on a header line. *)
Definition dateOfLine (line : jsstring) : jsstring :=
  match exec dateInParensRe line with
  | Some dateInParensMatch => capture1 dateInParensMatch
  | None =>
      match exec dateAfterDashRe line with
      | Some dateAfterDashMatch => Str.trim (capture1 dateAfterDashMatch)
      | None => []
      end
  end.

(** Lines 110-124: the date of a header, with the fallback on
    [releaseDates].  Versions start with a digit, so the lookup never
    reaches a property inherited from [Object.prototype]. *)
Definition headerDate (releaseDates : option (gmap (list N) (list N)))
    (line versionNumber : jsstring) : jsstring :=
  let date := dateOfLine line in
  match date, releaseDates with
  | [], Some rd => orElse (default [] (rd !! versionNumber)) []
  | _, _ => date
  end.

(** [if (versionMatch)] *)
Definition isHeader (line : jsstring) : bool :=
  match exec versionRe line with Some _ => true | None => false end.

Definition isBullet (line : jsstring) : bool :=
  Str.startsWith line (js "- ") || Str.startsWith line (js "* ").

(** [currentVersion.items.push(item)] *)
Definition pushItem (cv : ChangelogVersion) (item : ChangelogItem) : ChangelogVersion :=
  {| version := version cv; date := date cv; items := items cv ++ [item];
     sourceId := sourceId cv; sourceName := sourceName cv |}.

(** A version record with its items replaced. *)
Definition withItems (cv : ChangelogVersion) (its : list ChangelogItem) : ChangelogVersion :=
  {| version := version cv; date := date cv; items := its;
     sourceId := sourceId cv; sourceName := sourceName cv |}.

(** [versionMatch[1]] of a line, when it is a header. *)
Definition versionOf (line : jsstring) : jsstring :=
  match exec versionRe line with
  | Some versionMatch => capture1 versionMatch
  | None => []
  end.

Section Parser.

(** [String.prototype.toLowerCase] follows the Unicode case tables of
    the runtime (with the context rule for the final sigma); it is a
    parameter of the development. *)
Variable toLowerCase : jsstring -> jsstring.

Definition categorizeItem (content : jsstring) : ItemType :=
  let lowerContent := toLowerCase content in
  if Str.includes lowerContent (js "breaking")
     || (Str.includes lowerContent (js "removed")
         && Str.includes lowerContent (js "support"))
  then Breaking
  else if Str.includes lowerContent (js "removed")
          || Str.includes lowerContent (js "deprecated")
          || Str.includes lowerContent (js "no longer")
  then Removal
  else if Str.includes lowerContent (js "fix")
          || Str.includes lowerContent (js "fixed")
          || Str.includes lowerContent (js "bug")
          || Str.includes lowerContent (js "issue")
  then Fix
  else if Str.includes lowerContent (js "add")
          || Str.includes lowerContent (js "new")
          || Str.includes lowerContent (js "feature")
          || Str.includes lowerContent (js "support")
  then Feature
  else Other.

Variable sourceId sourceName : option jsstring.
Variable releaseDates : option (gmap (list N) (list N)).

(** The two variables of the loop of [parseChangelog]. *)
Record pstate : Type := PState {
  versions : list ChangelogVersion;
  currentVersion : option ChangelogVersion
}.

(** [if (currentVersion) versions.push(currentVersion)] *)
Definition pushCurrent (st : pstate) : list ChangelogVersion :=
  match currentVersion st with
  | Some cv => versions st ++ [cv]
  | None => versions st
  end.

Definition mkItem (line : jsstring) : ChangelogItem :=
  let content := Str.trim (Str.slice 2 line) in
  {| type := categorizeItem content; content := content |}.

Definition openVersion (line : jsstring) (versionMatch : mstate) : ChangelogVersion :=
  let versionNumber := capture1 versionMatch in
  Build_ChangelogVersion versionNumber
    (headerDate releaseDates line versionNumber) [] sourceId sourceName.

(** One iteration of the loop over the lines. *)
Definition parseLine (st : pstate) (line : jsstring) : pstate :=
  match exec versionRe line with
  | Some versionMatch =>
      PState (pushCurrent st) (Some (openVersion line versionMatch))
  | None =>
      match currentVersion st with
      | Some cv =>
          if isBullet line
          then PState (versions st) (Some (pushItem cv (mkItem line)))
          else st
      | None => st
      end
  end.

Definition parseLines (lines : list jsstring) : list ChangelogVersion :=
  pushCurrent (foldl parseLine (PState [] None) lines).

Definition parseChangelog (markdown : jsstring) : list ChangelogVersion :=
  parseLines (Str.split_lines markdown).

End Parser.

(** What a record owes to its header line alone. *)
Definition summary (v : ChangelogVersion)
    : jsstring * jsstring * option jsstring * option jsstring :=
  (version v, date v, sourceId v, sourceName v).

Definition headerSummary (sid sname : option jsstring)
    (rd : option (gmap (list N) (list N))) (line : jsstring)
    : jsstring * jsstring * option jsstring * option jsstring :=
  (versionOf line, headerDate rd line (versionOf line), sid, sname).

Definition newlineFree (l : jsstring) : Prop :=
  forallb (fun c => negb (c =? Chars.newline)) l = true.

(** [versions[0]?.version || 'Unknown'] *)
Definition getLatestVersion (versions : list ChangelogVersion) : jsstring :=
  match versions with
  | v :: _ => orElse (version v) (js "Unknown")
  | [] => js "Unknown"
  end.

(** Lower-casing of the Basic Latin block, the part of the case tables
    that the examples below need. *)
Definition lowerAscii (c : N) : N :=
  if Chars.isUpper c then c + 32 else c.

Definition isAscii (c : N) : bool := c <? 128.

End Changelog.

(** ** The retrying fetcher

    The network is the environment: the reply to the k-th call of
    [fetch] is [replies k].  A computation threads the number of calls
    made so far and the log of the calls and timers it has issued, and
    either returns a value or throws. *)

Module Fetch.

Record Response : Type := {
  status : N;
  text : jsstring
}.

(** [response.ok] *)
Definition ok (r : Response) : bool := (200 <=? status r) && (status r <=? 299).

Inductive JsError : Type :=
| TransportError (reason : jsstring)
| HttpError (status : N)
| RetriesFailed.

Inductive reply : Type :=
| Rejects (reason : jsstring)
| Resolves (response : Response).

Inductive event : Type :=
| Request (url : jsstring)
| Timer (ms : N).

Record world : Type := World {
  replies : nat -> reply;
  calls : nat;
  log : list event
}.

Definition M (A : Type) : Type := world -> world * (JsError + A).

Definition ret {A} (a : A) : M A := fun w => (w, inr a).

Definition throw {A} (e : JsError) : M A := fun w => (w, inl e).

Definition bind {A B} (m : M A) (f : A -> M B) : M B :=
  fun w =>
    match m w with
    | (w', inr a) => f a w'
    | (w', inl e) => (w', inl e)
    end.

(** [try { m } catch (error) { h error }] *)
Definition tryCatch {A} (m : M A) (h : JsError -> M A) : M A :=
  fun w =>
    match m w with
    | (w', inr a) => (w', inr a)
    | (w', inl e) => h e w'
    end.

Notation "x <- m ;; k" := (bind m (fun x => k))
  (at level 100, m at next level, right associativity).

(** [await fetch(url)] *)
Definition fetch (url : jsstring) : M Response :=
  fun w =>
    let w' := World (replies w) (S (calls w)) (log w ++ [Request url]) in
    match replies w (calls w) with
    | Rejects reason => (w', inl (TransportError reason))
    | Resolves response => (w', inr response)
    end.

(** [await new Promise((resolve) => setTimeout(resolve, ms))] *)
Definition sleep (ms : N) : M unit :=
  fun w => (World (replies w) (calls w) (log w ++ [Timer ms]), inr tt).

(** The body of the [try] block. *)
Definition attempt (url : jsstring) : M Response :=
  response <- fetch url ;;
  if negb (ok response) then throw (HttpError (status response))
  else ret response.

(** The [for] loop from index [i] on, with [fuel = retries - i]
    iterations left, followed by the final [throw]. *)
Fixpoint retryLoop (url : jsstring) (retries : nat) (fuel : nat) (i : nat)
    (lastError : option JsError) : M Response :=
  match fuel with
  | O => throw (default RetriesFailed lastError)
  | S fuel' =>
      tryCatch (attempt url)
        (fun error =>
           _ <- (if (i <? retries - 1)%nat
                 then sleep (2 ^ N.of_nat i * 1000)
                 else ret tt) ;;
           retryLoop url retries fuel' (S i) (Some error))
  end.

Definition fetchWithRetry (url : jsstring) (retries : nat) : M Response :=
  retryLoop url retries retries 0%nat None.

Definition DEFAULT_CHANGELOG_URL : jsstring :=
  js "https://raw.githubusercontent.com/anthropics/claude-code/main/CHANGELOG.md".

(** [fetchChangelog]: the default of [retries] is 3. *)
Definition fetchChangelog : M jsstring :=
  response <- fetchWithRetry DEFAULT_CHANGELOG_URL 3 ;;
  ret (text response).

Definition initial (replies : nat -> reply) : world := World replies 0 [].

(** What one attempt makes of the reply it gets. *)
Definition outcome (r : reply) : JsError + Response :=
  match r with
  | Rejects reason => inl (TransportError reason)
  | Resolves response =>
      if ok response then inr response else inl (HttpError (status response))
  end.

Definition failed (r : reply) : bool :=
  match outcome r with inl _ => true | inr _ => false end.

(** The log of [n] attempts made from index [i] on, with the wait
    between two attempts and none after the last. *)
Fixpoint attemptsLog (url : jsstring) (i n : nat) : list event :=
  match n with
  | O => []
  | 1%nat => [Request url]
  | S n' => Request url :: Timer (2 ^ N.of_nat i * 1000) :: attemptsLog url (S i) n'
  end.

End Fetch.

(** ** Fetching all active sources *)

Module Sources.

Record ChangelogSource : Type := {
  id : jsstring;
  name : jsstring;
  is_active : bool
}.

Record Fetched : Type := {
  sourceId : jsstring;
  sourceName : jsstring;
  markdown : jsstring
}.

(** What the network does with the request of one source: [fetch]
    rejects, or answers with [ok] false, or answers with [ok] true and
    then no entry can be built (the promise of [json()] rejects, or the
    body is [null] and reading [data.markdown] throws), or the body
    parses to a value whose [markdown] is the given text. *)
Inductive reply : Type :=
| FetchRejects
| NotOk
| JsonRejects
| Json (markdown : jsstring).

(** The element of the array given by [Promise.allSettled]. *)
Inductive settled (A : Type) : Type :=
| Fulfilled (value : A)
| RejectedWith (reason : jsstring).
Arguments Fulfilled {A} value.
Arguments RejectedWith {A} reason.

(** [{ sourceId: source.id, sourceName: source.name, markdown: data.markdown }] *)
Definition entry (source : ChangelogSource) (md : jsstring) : Fetched :=
  {| sourceId := id source; sourceName := name source; markdown := md |}.

(** The [async (source) => ...] callback, run to its end: every failure
    is caught and turned into [null]. *)
Definition fetchOne (source : ChangelogSource) (r : reply) : settled (option Fetched) :=
  match r with
  | Json md => Fulfilled (Some (entry source md))
  | FetchRejects | NotOk | JsonRejects => Fulfilled None
  end.

Definition fulfilledValue {A} (r : settled A) : option A :=
  match r with Fulfilled v => Some v | RejectedWith _ => None end.

(** What the network does with the request for [/api/sources]: the
    request fails (it is rejected, or answered with [ok] false), or
    the body does not parse, or the body parses to a value that is not
    a list of sources (it is not an array, or it is an array that
    holds [null]), or the list is served. *)
Inductive sourcesReply : Type :=
| SourcesUnavailable
| SourcesMalformed
| SourcesIllTyped
| SourcesServed (sources : list ChangelogSource).

(** The value of the promise of [fetchSources] when it is fulfilled:
    nothing checks that the body is a list of sources. *)
Inductive sourcesValue : Type :=
| NotSources
| SourceList (sources : list ChangelogSource).

(** [fetchSources]: a failed request is caught and gives [[]]; the
    promise of [response.json()] is returned without [await], so its
    rejection is not caught, and its value is returned as it is.
    [None] stands for a rejected promise. *)
Definition fetchSources (r : sourcesReply) : option sourcesValue :=
  match r with
  | SourcesUnavailable => Some (SourceList [])
  | SourcesMalformed => None
  | SourcesIllTyped => Some NotSources
  | SourcesServed sources => Some (SourceList sources)
  end.

(** [replies i] is what the network does with the request of the i-th
    active source.  [sources.filter(s => s.is_active)] is outside any
    [try]: on a value that is not a list of sources it throws, and the
    call rejects. *)
Definition fetchAllActiveChangelogs (r : sourcesReply) (replies : nat -> reply)
    : option (list Fetched) :=
  value ← fetchSources r;
  match value with
  | NotSources => None
  | SourceList sources =>
      let activeSources := List.filter is_active sources in
      let results := imap (fun i source => fetchOne source (replies i)) activeSources in
      Some (omap (fun r => r) (omap fulfilledValue results))
  end.

(** *** Order of the effects

    [activeSources.map(async ...)] calls the callback on every source
    in turn; each call runs up to its first [await], that is, it issues
    its request and suspends.  From then on the network decides which
    suspended callback is resumed next. *)

Inductive task : Type :=
| AwaitFetch
| AwaitJson
| Settled (value : option Fetched).

Inductive event : Type :=
| Requested (i : nat)
| Answered (i : nat)
| Finished (i : nat).

Record sweep : Type := Sweep {
  tasks : list (ChangelogSource * task);
  log : list event
}.

(** The state when [map] returns. *)
Definition start (activeSources : list ChangelogSource) : sweep :=
  Sweep (map (fun source => (source, AwaitFetch)) activeSources)
        (imap (fun i _ => Requested i) activeSources).

Definition settle (sw : sweep) (i : nat) (source : ChangelogSource)
    (value : option Fetched) : sweep :=
  Sweep (<[i := (source, Settled value)]> (tasks sw)) (log sw ++ [Finished i]).

Inductive step : sweep -> sweep -> Prop :=
| step_fetch_fails sw i source :
    tasks sw !! i = Some (source, AwaitFetch) ->
    step sw (settle sw i source None)
| step_fetch_ok sw i source :
    tasks sw !! i = Some (source, AwaitFetch) ->
    step sw (Sweep (<[i := (source, AwaitJson)]> (tasks sw)) (log sw ++ [Answered i]))
| step_json_fails sw i source :
    tasks sw !! i = Some (source, AwaitJson) ->
    step sw (settle sw i source None)
| step_json_ok sw i source md :
    tasks sw !! i = Some (source, AwaitJson) ->
    step sw (settle sw i source (Some (entry source md))).

Inductive steps (sw1 : sweep) : sweep -> Prop :=
| steps_refl : steps sw1 sw1
| steps_step sw2 sw3 : steps sw1 sw2 -> step sw2 sw3 -> steps sw1 sw3.

(** A run of [fetchAllActiveChangelogs] up to some moment. *)
Definition reachable (sources : list ChangelogSource) (sw : sweep) : Prop :=
  steps (start (List.filter is_active sources)) sw.

Definition isRequest (e : event) : bool :=
  match e with Requested _ => true | _ => false end.

(** The value of a callback that has settled with an entry. *)
Definition settledEntry (t : ChangelogSource * task) : option Fetched :=
  match t.2 with Settled (Some e) => Some e | _ => None end.

(** What one source contributes to the result. *)
Definition contribution (source : ChangelogSource) (r : reply) : list Fetched :=
  match r with
  | Json md => [entry source md]
  | FetchRejects | NotOk | JsonRejects => []
  end.

(** The value returned once every callback has settled. *)
Definition returned (sw : sweep) : option (list Fetched) :=
  values ← mapM (fun t => match t.2 with Settled v => Some v | _ => None end) (tasks sw);
  Some (omap (fun r => r) values).

(** The value with which the callback of [source] settles on reply [r]. *)
Definition valueOf (source : ChangelogSource) (r : reply) : option Fetched :=
  match r with
  | Json md => Some (entry source md)
  | FetchRejects | NotOk | JsonRejects => None
  end.

(** The callbacks at the start, and once each has settled on its reply. *)
Definition pending (active : list ChangelogSource) : list (ChangelogSource * task) :=
  map (fun source => (source, AwaitFetch)) active.

Definition settledAll (active : list ChangelogSource) (replies : nat -> reply)
    : list (ChangelogSource * task) :=
  imap (fun i source => (source, Settled (valueOf source (replies i)))) active.

(** An entry carries the id and name of the source of its callback. *)
Definition task_ok (t : ChangelogSource * task) : Prop :=
  forall e, t.2 = Settled (Some e) -> exists md, e = entry t.1 md.

(** The reply that explains the state of a callback. *)
Definition replyOf (ts : list (ChangelogSource * task)) (i : nat) : reply :=
  match ts !! i with
  | Some (_, Settled (Some e)) => Json (markdown e)
  | _ => FetchRejects
  end.

End Sources.

(** ** The specification's wording

    Definitions written from the sentences of the specification, to
    be compared with the definitions taken from the code. *)

Module Spec.

Import Changelog.

(** "text contains [p]" *)
Definition contains (text p : jsstring) : Prop :=
  exists a b, text = a ++ p ++ b.

(** The four rules of the item categorizer, over the lower-cased text. *)
Definition rule_breaking (t : jsstring) : Prop :=
  contains t (js "breaking") \/ (contains t (js "removed") /\ contains t (js "support")).

Definition rule_removal (t : jsstring) : Prop :=
  contains t (js "removed") \/ contains t (js "deprecated") \/ contains t (js "no longer").

Definition rule_fix (t : jsstring) : Prop :=
  contains t (js "fix") \/ contains t (js "fixed") \/ contains t (js "bug")
  \/ contains t (js "issue").

Definition rule_feature (t : jsstring) : Prop :=
  contains t (js "add") \/ contains t (js "new") \/ contains t (js "feature")
  \/ contains t (js "support").

(** "first matching rule wins, in this exact precedence order" *)
Inductive classify (t : jsstring) : ItemType -> Prop :=
| classify_breaking :
    rule_breaking t -> classify t Breaking
| classify_removal :
    ~ rule_breaking t -> rule_removal t -> classify t Removal
| classify_fix :
    ~ rule_breaking t -> ~ rule_removal t -> rule_fix t -> classify t Fix
| classify_feature :
    ~ rule_breaking t -> ~ rule_removal t -> ~ rule_fix t -> rule_feature t ->
    classify t Feature
| classify_other :
    ~ rule_breaking t -> ~ rule_removal t -> ~ rule_fix t -> ~ rule_feature t ->
    classify t Other.

(** *** Version headers

    "one or two [#] characters followed by whitespace and a
    semantic-version token of the form MAJOR.MINOR.PATCH optionally
    followed by a [-] and an alphanumeric/dot pre-release tag,
    optionally wrapped in [[...]]". *)

Definition digits (s : jsstring) : Prop :=
  s <> [] /\ forallb Chars.isDigit s = true.

Definition prerelease (tag : jsstring) : Prop :=
  tag = [] \/
  exists t, tag = Chars.hyphen :: t /\ t <> [] /\ forallb Chars.isTagChar t = true.

Definition versionToken (v : jsstring) : Prop :=
  exists major minor patch tag,
    v = major ++ [Chars.dot] ++ minor ++ [Chars.dot] ++ patch ++ tag
    /\ digits major /\ digits minor /\ digits patch /\ prerelease tag.

(** A line that starts with a version header. *)
Definition headerShape (line : jsstring) : Prop :=
  exists hashes ws bracket v rest,
    line = hashes ++ ws ++ bracket ++ v ++ rest
    /\ (hashes = [Chars.hash] \/ hashes = [Chars.hash; Chars.hash])
    /\ ws <> [] /\ forallb Chars.isSpace ws = true
    /\ (bracket = [] \/ bracket = [Chars.lbracket])
    /\ versionToken v.

(** *** Dates on a header line *)

Definition spaces (ws : jsstring) : Prop := forallb Chars.isSpace ws = true.

(** "a YYYY-MM-DD date" *)
Definition isIsoDate (d : jsstring) : bool :=
  match d with
  | [y1; y2; y3; y4; h1; m1; m2; h2; d1; d2] =>
      forallb Chars.isDigit [y1; y2; y3; y4; m1; m2; d1; d2]
      && (h1 =? Chars.hyphen) && (h2 =? Chars.hyphen)
  | _ => false
  end.

(** "a Month DD, YYYY-style date": a word, whitespace, digits, an
    optional comma, optional whitespace, four digits. *)
Definition monthStyle (d : jsstring) : Prop :=
  exists month ws1 day comma ws2 year,
    d = month ++ ws1 ++ day ++ comma ++ ws2 ++ year
    /\ month <> [] /\ forallb Chars.isWord month = true
    /\ ws1 <> [] /\ spaces ws1
    /\ digits day
    /\ (comma = [] \/ comma = [Chars.comma])
    /\ spaces ws2
    /\ length year = 4%nat /\ forallb Chars.isDigit year = true.

(** "(a) a date enclosed in parentheses at the end of the line" *)
Definition parenDateAtEnd (line d : jsstring) : Prop :=
  exists before ws,
    line = before ++ [Chars.lparen] ++ d ++ [Chars.rparen] ++ ws
    /\ isIsoDate d = true /\ spaces ws.

(** "(b) a date following a dash", for a given notion of dash. *)
Definition dateAfter (isDash : N -> bool) (line d : jsstring) : Prop :=
  exists before dash ws after,
    line = before ++ [dash] ++ ws ++ d ++ after
    /\ isDash dash = true /\ spaces ws
    /\ (isIsoDate d = true \/ monthStyle d).

(** "a hyphen/en-dash" *)
Definition isDash (c : N) : bool := (c =? Chars.hyphen) || (c =? Chars.endash).

(** The date-after-dash expression with the class "hyphen or en-dash":
    [/[-\u2013]\s*(\d{4}-\d{2}-\d{2}|\w+\s+\d+,?\s*\d{4})/]. *)
Definition dateAfterDashRe : Regex.regex :=
  (Regex.Chr isDash >> Regex.Rep Chars.isSpace 0 None
   >> Regex.Group 1 (Regex.Alt isoDateRe monthDateRe))%re.

(** The date written on a header line, read with that class. *)
Definition dateOfLine (line : jsstring) : jsstring :=
  match Regex.exec dateInParensRe line with
  | Some dateInParensMatch => capture1 dateInParensMatch
  | None =>
      match Regex.exec dateAfterDashRe line with
      | Some dateAfterDashMatch => Str.trim (capture1 dateAfterDashMatch)
      | None => []
      end
  end.

(** *** The retry policy

    "up to [n] attempts; between attempt i and i+1 wait 2^i seconds;
    no wait after the final attempt; the error surfaced is the last
    encountered error (or a generic one if none was captured)". *)

(** The first attempt, among the [n] allowed, that does not fail. *)
Definition firstSuccess (replies : nat -> Fetch.reply) (n : nat) : option nat :=
  List.find (fun i => negb (Fetch.failed (replies i))) (seq 0 n).

Definition errorOf (r : Fetch.reply) : Fetch.JsError :=
  match Fetch.outcome r with
  | inl e => e
  | inr _ => Fetch.RetriesFailed
  end.

(** The error of the last attempt, or the generic one when no attempt
    was made. *)
Definition surfaced (replies : nat -> Fetch.reply) (n : nat) : Fetch.JsError :=
  match n with
  | O => Fetch.RetriesFailed
  | S m => errorOf (replies m)
  end.

Definition fetchPolicy (url : jsstring) (n : nat) (replies : nat -> Fetch.reply)
    : Fetch.world * (Fetch.JsError + Fetch.Response) :=
  match firstSuccess replies n with
  | Some j =>
      (Fetch.World replies (S j) (Fetch.attemptsLog url 0 (S j)),
       Fetch.outcome (replies j))
  | None =>
      (Fetch.World replies n (Fetch.attemptsLog url 0 n),
       inl (surfaced replies n))
  end.

(** *** Sequential processing

    "source N's pipeline fully completes before source N+1 begins":
    whenever the work on source [n+1] begins, the work on source [n]
    has completed earlier in the log. *)
Definition sequential (log : list Sources.event) : Prop :=
  forall n p, log !! p = Some (Sources.Requested (S n)) ->
    exists q, (q < p)%nat /\ log !! q = Some (Sources.Finished n).

End Spec.

(** ** Sample data *)

Module Examples.

Definition srcA : Sources.ChangelogSource :=
  {| Sources.id := js "a"; Sources.name := js "Alpha"; Sources.is_active := true |}.
Definition srcB : Sources.ChangelogSource :=
  {| Sources.id := js "b"; Sources.name := js "Beta"; Sources.is_active := false |}.
Definition srcC : Sources.ChangelogSource :=
  {| Sources.id := js "c"; Sources.name := js "Gamma"; Sources.is_active := true |}.

(** The request of the first active source is rejected, the second
    one is served. *)
Definition firstFails (i : nat) : Sources.reply :=
  match i with
  | O => Sources.FetchRejects
  | S _ => Sources.Json (js "## 1.0.0")
  end.

(** Basic Latin lower-casing as an instance of [toLowerCase]. *)
Definition lower (s : jsstring) : jsstring := map Changelog.lowerAscii s.

Definition parse (markdown : jsstring) : list Changelog.ChangelogVersion :=
  Changelog.parseChangelog lower None None None markdown.

Definition parseLines (lines : list jsstring) : list Changelog.ChangelogVersion :=
  Changelog.parseLines lower None None None lines.

(** "## 1.0.50 – 2024-01-12", the dash being U+2013. *)
Definition enDashHeader : jsstring :=
  js "## 1.0.50 " ++ [Chars.endash] ++ js " 2024-01-12".

(** "## 1.0.50 –2024-01-12": the date right after U+2013. *)
Definition enDashHeaderTight : jsstring :=
  js "## 1.0.50 " ++ [Chars.endash] ++ js "2024-01-12".

(** A state of a run over [srcA], [srcB], [srcC] in which the second
    active source has finished and the first has not. *)
Definition secondFirst : Sources.sweep :=
  Sources.Sweep
    [(srcA, Sources.AwaitFetch);
     (srcC, Sources.Settled (Some (Sources.entry srcC (js "## 1.0.0"))))]
    [Sources.Requested 0; Sources.Requested 1; Sources.Answered 1; Sources.Finished 1].

(** A small changelog, and the same with a line of prose removed. *)
Definition sampleLines : list jsstring :=
  [js "# Changelog"; js "## 2.0.0 (2024-03-01)"; js "- Removed support for v1";
   js "Thanks to all contributors."; js "* Fixed a crash"; js "## 1.9.0 - 2024-02-01";
   js "- Added dark mode"].

Definition sample : jsstring := Str.join_lines sampleLines.

Definition sampleWithoutProse : jsstring :=
  Str.join_lines
    [js "# Changelog"; js "## 2.0.0 (2024-03-01)"; js "- Removed support for v1";
     js "* Fixed a crash"; js "## 1.9.0 - 2024-02-01"; js "- Added dark mode"].

(** The small changelog with Windows line ends. *)
Definition sampleCRLF : jsstring :=
  Str.join_lines ((fun line => line ++ [13]) <$> sampleLines).

End Examples.

(** ** Notions used to state further properties of the service *)

Module Laws.

Import Changelog.

(** The lines from the first version header on. *)
Fixpoint fromFirstHeader (lines : list jsstring) : list jsstring :=
  match lines with
  | [] => []
  | l :: ls => if isHeader l then l :: ls else fromFirstHeader ls
  end.

(** The items of all the records, in order. *)
Definition allItems (vs : list ChangelogVersion) : list ChangelogItem :=
  mjoin (items <$> vs).

(** Neither the first nor the last character is whitespace. *)
Definition trimmed (s : jsstring) : Prop :=
  (forall c, head s = Some c -> Chars.isSpace c = false)
  /\ (forall c, last s = Some c -> Chars.isSpace c = false).

(** The place of a kind in the precedence chain of [categorizeItem]. *)
Definition rank (k : ItemType) : nat :=
  match k with
  | Breaking => 4
  | Removal => 3
  | Fix => 2
  | Feature => 1
  | Other => 0
  end.

(** A record as it is when [parseChangelog] is given a source and a
    table of release dates: the source is written on it, and a date
    that the header does not give is looked up under the version. *)
Definition tagged (sid sname : option jsstring)
    (rd : option (gmap (list N) (list N))) (v : ChangelogVersion) : ChangelogVersion :=
  {| version := version v;
     date := match date v, rd with
             | [], Some dates => orElse (default [] (dates !! version v)) []
             | d, _ => d
             end;
     items := items v;
     sourceId := sid;
     sourceName := sname |}.

(** The two variables of the loop, tagged. *)
Definition taggedState (sid sname : option jsstring)
    (rd : option (gmap (list N) (list N))) (st : pstate) : pstate :=
  PState (tagged sid sname rd <$> versions st)
         (tagged sid sname rd <$> currentVersion st).

(** The line starts with one of the three characters that open a
    header or a bullet. *)
Definition hasMarker (line : jsstring) : bool :=
  match line with
  | c :: _ => (c =? Chars.hash) || (c =? Chars.hyphen) || (c =? Chars.star)
  | [] => false
  end.

(** The time asked of the timers of a log, in milliseconds. *)
Fixpoint totalWait (log : list Fetch.event) : N :=
  match log with
  | [] => 0
  | Fetch.Timer ms :: log' => ms + totalWait log'
  | Fetch.Request _ :: log' => totalWait log'
  end.

(** The urls requested in a log. *)
Fixpoint requested (log : list Fetch.event) : list jsstring :=
  match log with
  | [] => []
  | Fetch.Request url :: log' => url :: requested log'
  | Fetch.Timer _ :: log' => requested log'
  end.

(** The replies still awaited by the callbacks of a sweep: two for a
    callback that waits for its response, one for a callback that
    waits for the body. *)
Definition awaits (t : Sources.ChangelogSource * Sources.task) : nat :=
  match t.2 with
  | Sources.AwaitFetch => 2
  | Sources.AwaitJson => 1
  | Sources.Settled _ => 0
  end.

Definition awaited (sw : Sources.sweep) : nat :=
  sum_list (awaits <$> Sources.tasks sw).

(** *** One more character at the end of the subject *)

(** The state of the matcher when the subject has one more character
    [c] at its end. *)
Definition extend (c : N) (st : Regex.mstate) : Regex.mstate :=
  Regex.MState (Regex.rest st ++ [c]) (Regex.caps st).

Fixpoint eolFree (r : Regex.regex) : bool :=
  match r with
  | Regex.Eol => false
  | Regex.Seq r1 r2 | Regex.Alt r1 r2 => eolFree r1 && eolFree r2
  | Regex.Opt r1 | Regex.Group _ r1 => eolFree r1
  | Regex.Eps | Regex.Chr _ | Regex.Rep _ _ _ | Regex.Bol => true
  end.

(** Every match of the expression takes at least one character. *)
Fixpoint needsChar (r : Regex.regex) : bool :=
  match r with
  | Regex.Chr _ => true
  | Regex.Rep _ lo _ => negb (Nat.eqb lo 0)
  | Regex.Seq r1 r2 => needsChar r1 || needsChar r2
  | Regex.Alt r1 r2 => needsChar r1 && needsChar r2
  | Regex.Group _ r1 => needsChar r1
  | Regex.Eps | Regex.Opt _ | Regex.Bol | Regex.Eol => false
  end.

(** A sufficient condition for the matches of [r] to leave a final
    [c] alone: wherever [c] could be taken, something that [c] cannot
    start has to follow. *)
Fixpoint transfers (c : N) (r : Regex.regex) : bool :=
  match r with
  | Regex.Eps | Regex.Bol => true
  | Regex.Eol => false
  | Regex.Chr p | Regex.Rep p _ _ => negb (p c)
  | Regex.Alt r1 r2 => transfers c r1 && transfers c r2
  | Regex.Opt r1 | Regex.Group _ r1 => transfers c r1
  | Regex.Seq r1 r2 =>
      transfers c r2 && (transfers c r1 || (needsChar r2 && eolFree r1))
  end.

(** [k'] reads the subject with one more [c] as [k] reads the subject. *)
Definition compat (c : N) (k' k : Regex.cont) : Prop :=
  forall st, k' (extend c st) = extend c <$> k st.

(** [k] fails at the end of the subject. *)
Definition dead (k : Regex.cont) : Prop :=
  forall cs, k (Regex.MState [] cs) = None.

(** *** Scanning a version from left to right *)

(** The longest prefix of [s] in the class [p], and what follows it. *)
Fixpoint leading (p : N -> bool) (s : jsstring) : jsstring :=
  match s with
  | c :: s' => if p c then c :: leading p s' else []
  | [] => []
  end.

Fixpoint afterLeading (p : N -> bool) (s : jsstring) : jsstring :=
  match s with
  | c :: s' => if p c then afterLeading p s' else s
  | [] => []
  end.

(** All the digits at the head of [s], at least one, and a dot. *)
Definition scanDigitsDot (s : jsstring) : option (jsstring * jsstring) :=
  match leading Chars.isDigit s, afterLeading Chars.isDigit s with
  | _ :: _, c :: s' =>
      if Chars.isChar Chars.dot c
      then Some (leading Chars.isDigit s ++ [c], s')
      else None
  | _, _ => None
  end.

(** A hyphen and all the tag characters after it, at least one. *)
Definition scanTag (s : jsstring) : jsstring * jsstring :=
  match s with
  | c :: s' =>
      if Chars.isChar Chars.hyphen c
         && (1 <=? length (leading Chars.isTagChar s'))%nat
      then (c :: leading Chars.isTagChar s', afterLeading Chars.isTagChar s')
      else ([], s)
  | [] => ([], [])
  end.

(** The version at the head of [s] and what follows it, read in one
    pass without going back. *)
Definition scanToken (s : jsstring) : option (jsstring * jsstring) :=
  match scanDigitsDot s with
  | Some (major, s1) =>
      match scanDigitsDot s1 with
      | Some (minor, s2) =>
          match leading Chars.isDigit s2 with
          | [] => None
          | _ :: _ =>
              let (tag, rest) := scanTag (afterLeading Chars.isDigit s2) in
              Some (major ++ minor ++ leading Chars.isDigit s2 ++ tag, rest)
          end
      | None => None
      end
  | None => None
  end.

(** A continuation that never fails. *)
Definition total (k : Regex.cont) : Prop := forall st, is_Some (k st).

(** A continuation that fails in front of a character of [p]. *)
Definition blocked (p : N -> bool) (k : Regex.cont) : Prop :=
  forall c s cs, p c = true -> k (Regex.MState (c :: s) cs) = None.

(** [n] is allowed by the upper bound [hi]. *)
Definition within (hi : option nat) (n : nat) : bool :=
  match hi with
  | None => true
  | Some h => (n <=? h)%nat
  end.

(** [line'] is [line] with whitespace added at its end; a lone "-" or
    "*" is not followed by a plain space (that would make it a
    bullet). *)
Definition withTrailingSpace (line line' : jsstring) : Prop :=
  exists ws, line' = line ++ ws /\ forallb Chars.isSpace ws = true
    /\ (head ws = Some Chars.space -> line <> [Chars.hyphen] /\ line <> [Chars.star]).

End Laws.

(** * Properties *)

(** ** Strings *)

Module StrFacts.

Import Str.

Lemma startsWith_spec (s p : jsstring) :
  startsWith s p = true <-> exists b, s = p ++ b.
Proof.
  revert s; induction p as [|d p IH]; intros s.
  - destruct s; simpl; split; eauto.
  - destruct s as [|c s]; simpl.
    + split; [discriminate | intros [b Hb]; discriminate].
    + rewrite andb_true_iff, N.eqb_eq, IH. split.
      * intros [-> [b ->]]. eauto.
      * intros [b Hb]. injection Hb as -> ->. eauto.
Qed.

Lemma includes_spec (s p : jsstring) :
  includes s p = true <-> exists a b, s = a ++ p ++ b.
Proof.
  induction s as [|c s IH].
  - change (includes [] p) with (startsWith [] p || false).
    rewrite orb_false_r, startsWith_spec. split.
    + intros [b Hb]. exists [], b. exact Hb.
    + intros (a & b & Hab). destruct a as [|x a]; [eauto | discriminate].
  - change (includes (c :: s) p) with (startsWith (c :: s) p || includes s p).
    rewrite orb_true_iff, startsWith_spec, IH. split.
    + intros [[b Hb] | (a & b & Hab)].
      * exists [], b. exact Hb.
      * exists (c :: a), b. simpl. now rewrite Hab.
    + intros (a & b & Hab). destruct a as [|x a]; simpl in Hab.
      * left. eauto.
      * right. injection Hab as _ ->. eauto.
Qed.

Lemma split_lines_nonempty (s : jsstring) : split_lines s <> [].
Proof.
  destruct s as [|c s]; simpl; [discriminate|].
  destruct (c =? Chars.newline); [discriminate|].
  destruct (split_lines s); discriminate.
Qed.

Lemma join_split (s : jsstring) : join_lines (split_lines s) = s.
Proof.
  induction s as [|c s IH]; simpl; [reflexivity|].
  destruct (N.eqb_spec c Chars.newline) as [->|Hc].
  - pose proof (split_lines_nonempty s) as Hne.
    destruct (split_lines s) as [|l ls]; [congruence|].
    simpl in *. now rewrite IH.
  - pose proof (split_lines_nonempty s) as Hne.
    destruct (split_lines s) as [|l ls]; [congruence|].
    destruct ls as [|l' ls]; simpl in *; now rewrite <- IH.
Qed.

(** A list of lines free of newlines is what [split] gives on its
    [join]. *)
Lemma split_join (ls : list jsstring) :
  ls <> [] ->
  Forall (fun l => forallb (fun c => negb (c =? Chars.newline)) l = true) ls ->
  split_lines (join_lines ls) = ls.
Proof.
  induction ls as [|l ls IH]; [congruence|]. intros _ Hall.
  apply Forall_cons in Hall as [Hl Hls].
  destruct ls as [|l' ls].
  - simpl. clear IH Hls. induction l as [|c l IHl]; simpl; [reflexivity|].
    simpl in Hl. apply andb_true_iff in Hl as [Hc Hl].
    apply negb_true_iff in Hc. rewrite Hc, (IHl Hl). reflexivity.
  - specialize (IH ltac:(discriminate) Hls).
    change (join_lines (l :: l' :: ls)) with (l ++ Chars.newline :: join_lines (l' :: ls)).
    revert IH. generalize (join_lines (l' :: ls)). intros tl IH.
    induction l as [|c l IHl]; simpl.
    + rewrite IH. reflexivity.
    + simpl in Hl. apply andb_true_iff in Hl as [Hc Hl].
      apply negb_true_iff in Hc. rewrite Hc, (IHl Hl). reflexivity.
Qed.

Lemma trimStart_spec (s : jsstring) :
  exists ws, s = ws ++ trimStart s /\ forallb Chars.isSpace ws = true
    /\ forall c, head (trimStart s) = Some c -> Chars.isSpace c = false.
Proof.
  induction s as [|c s (ws & Hs & Hws & Hhead)]; cbn.
  - exists []. repeat split. discriminate.
  - destruct (Chars.isSpace c) eqn:Hc.
    + exists (c :: ws). cbn. rewrite Hc, Hws, <- Hs. repeat split. exact Hhead.
    + exists []. repeat split. cbn. now intros c' [= <-].
Qed.

Lemma trimStart_id (s : jsstring) :
  (forall c, head s = Some c -> Chars.isSpace c = false) -> trimStart s = s.
Proof.
  destruct s as [|c s]; [reflexivity|]. intros H. cbn.
  now rewrite (H c eq_refl).
Qed.

(** [trim] removes whitespace at both ends, and nothing else. *)
Lemma trim_spec (s : jsstring) :
  exists l r, s = l ++ trim s ++ r
    /\ forallb Chars.isSpace l = true /\ forallb Chars.isSpace r = true
    /\ (forall c, head (trim s) = Some c -> Chars.isSpace c = false)
    /\ (forall c, last (trim s) = Some c -> Chars.isSpace c = false).
Proof.
  unfold trim, trimEnd.
  destruct (trimStart_spec s) as (l & Hs & Hl & Hhead).
  destruct (trimStart_spec (reverse (trimStart s))) as (r & Hr & Hrs & Hlast).
  set (t := trimStart (reverse (trimStart s))) in *.
  assert (Ht : trimStart s = reverse t ++ reverse r).
  { rewrite <- reverse_app, <- Hr. now rewrite reverse_involutive. }
  exists l, (reverse r). split; [now rewrite <- Ht|].
  split; [exact Hl|]. split; [|split].
  - rewrite forallb_forall in Hrs. apply forallb_forall. intros c Hc. apply Hrs.
    apply list_elem_of_In. apply list_elem_of_In in Hc.
    rewrite elem_of_reverse in Hc. exact Hc.
  - intros c Hc. destruct (reverse t) as [|c' t'] eqn:Hrev; [discriminate|].
    apply Hhead. rewrite Ht. cbn in *. exact Hc.
  - intros c Hc. apply Hlast. rewrite last_reverse in Hc. exact Hc.
Qed.

Lemma trim_id (s : jsstring) :
  (forall c, head s = Some c -> Chars.isSpace c = false) ->
  (forall c, last s = Some c -> Chars.isSpace c = false) ->
  trim s = s.
Proof.
  intros Hhead Hlast. unfold trim, trimEnd.
  rewrite (trimStart_id s) by exact Hhead.
  rewrite trimStart_id; [apply reverse_involutive|].
  intros c Hc. apply Hlast. now rewrite <- head_reverse.
Qed.

End StrFacts.

(** ** The matcher against the declarative reading *)

Module RegexFacts.

Import Regex.

Lemma rep_sound p lo hi k cs s res :
  rep p lo hi k cs s = Some res ->
  exists w s', s = w ++ s' /\ forallb p w = true /\ (lo <= length w)%nat /\
    (forall h, hi = Some h -> (length w <= h)%nat) /\
    k (MState s' cs) = Some res.
Proof.
  revert lo hi. induction s as [|c s IH]; intros lo hi; simpl.
  - destruct lo; [|discriminate]. intros Hk.
    exists [], []. repeat split; simpl; auto with lia.
  - assert (Hstop : match lo with 0%nat => k (MState (c :: s) cs) | S _ => None end = Some res ->
      exists w s', c :: s = w ++ s' /\ forallb p w = true /\ (lo <= length w)%nat /\
        (forall h, hi = Some h -> (length w <= h)%nat) /\ k (MState s' cs) = Some res).
    { destruct lo; [|discriminate]. intros Hk.
      exists [], (c :: s). repeat split; simpl; auto with lia. }
    destruct (p c) eqn:Hpc; simpl; [|exact Hstop].
    destruct (room hi) eqn:Hroom; [|exact Hstop].
    destruct (rep p (pred lo) (pred <$> hi) k cs s) as [res'|] eqn:Hrec; [|exact Hstop].
    intros [= ->]. apply IH in Hrec as (w & s' & -> & Hw & Hlo & Hhi & Hk).
    exists (c :: w), s'. repeat split; simpl; auto with lia.
    + now rewrite Hpc.
    + intros h ->. simpl in *. destruct h as [|h]; [discriminate|].
      specialize (Hhi h eq_refl). lia.
Qed.

Lemma rep_complete p lo hi k cs w s :
  forallb p w = true -> (lo <= length w)%nat ->
  (forall h, hi = Some h -> (length w <= h)%nat) ->
  is_Some (k (MState s cs)) ->
  is_Some (rep p lo hi k cs (w ++ s)).
Proof.
  revert lo hi. induction w as [|c w IH]; intros lo hi Hw Hlo Hhi Hk; simpl in *.
  - assert (lo = 0%nat) as -> by lia.
    destruct s as [|c s]; simpl; [exact Hk|].
    destruct (p c && room hi); [|exact Hk].
    destruct (rep p _ _ k cs s); [eauto | exact Hk].
  - apply andb_true_iff in Hw as [Hc Hw]. rewrite Hc. simpl.
    assert (room hi = true) as ->.
    { destruct hi as [[|h]|]; try reflexivity. specialize (Hhi _ eq_refl). lia. }
    destruct (IH (pred lo) (pred <$> hi)) as [res Hres]; auto with lia.
    + intros h Hh. destruct hi as [h'|]; [|discriminate]. injection Hh as <-.
      specialize (Hhi _ eq_refl). lia.
    + rewrite Hres. eauto.
Qed.

Section WithInput.

Variable input : jsstring.

Lemma rmatch_sound r : forall k st res,
  rmatch input r k st = Some res ->
  exists st', Matches input r st st' /\ k st' = Some res.
Proof.
  induction r as [|p|r1 IH1 r2 IH2|r1 IH1 r2 IH2|p lo hi|r1 IH1|i r1 IH1| |];
    intros k [s cs] res; simpl.
  - intros Hk. eexists; split; [constructor | exact Hk].
  - destruct s as [|c s]; [discriminate|]. destruct (p c) eqn:Hpc; [|discriminate].
    intros Hk. eexists; split; [constructor; exact Hpc | exact Hk].
  - intros H. apply IH1 in H as (st2 & HM1 & H). apply IH2 in H as (st3 & HM2 & H).
    eexists; split; [econstructor; eassumption | exact H].
  - destruct (rmatch input r1 k _) as [res'|] eqn:H1.
    + intros [= ->]. apply IH1 in H1 as (st' & HM & H).
      eexists; split; [apply MAltL; exact HM | exact H].
    + intros H. apply IH2 in H as (st' & HM & H).
      eexists; split; [apply MAltR; exact HM | exact H].
  - intros H. apply rep_sound in H as (w & s' & -> & Hw & Hlo & Hhi & Hk).
    eexists; split; [constructor; eassumption | exact Hk].
  - destruct (rmatch input r1 k _) as [res'|] eqn:H1.
    + intros [= ->]. apply IH1 in H1 as (st' & HM & H).
      eexists; split; [apply MOptSome; exact HM | exact H].
    + intros Hk. eexists; split; [apply MOptNone | exact Hk].
  - intros H. apply IH1 in H as (st' & HM & H).
    eexists; split; [apply (MGroup input i r1 _ _ HM) | exact H].
  - destruct (Nat.eqb_spec (length s) (length input)); [|discriminate].
    intros Hk. eexists; split; [constructor; assumption | exact Hk].
  - destruct s; [|discriminate].
    intros Hk. eexists; split; [constructor | exact Hk].
Qed.

Lemma rmatch_complete r st st' :
  Matches input r st st' ->
  forall k, is_Some (k st') -> is_Some (rmatch input r k st).
Proof.
  induction 1 as [st|p c s cs Hpc|r1 r2 st1 st2 st3 _ IH1 _ IH2|r1 r2 st st' _ IH
    |r1 r2 st st' _ IH|p lo hi w s cs Hw Hlo Hhi|r st st' _ IH|r st|i r st st' _ IH
    |st Hlen|cs]; intros k Hk; simpl.
  - exact Hk.
  - rewrite Hpc. exact Hk.
  - apply IH1, IH2, Hk.
  - destruct (IH k Hk) as [res ->]. eauto.
  - destruct (rmatch input r1 k st); [eauto|]. apply IH, Hk.
  - apply rep_complete; assumption.
  - destruct (IH k Hk) as [res ->]. eauto.
  - destruct (rmatch input r k st); [eauto | exact Hk].
  - apply IH. exact Hk.
  - rewrite Hlen, Nat.eqb_refl. exact Hk.
  - exact Hk.
Qed.

Lemma rmatch_none r st :
  rmatch input r Some st = None -> forall st', ~ Matches input r st st'.
Proof.
  intros Hnone st' HM.
  destruct (rmatch_complete r st st' HM Some) as [res Hres]; [eauto|].
  congruence.
Qed.

(** The search: the result is a match at some start index, and no
    earlier start index has one. *)
Lemma exec_from_sound r s res :
  exec_from input r s = Some res ->
  exists pre s', s = pre ++ s' /\ Matches input r (MState s' []) res /\
    forall pre1 s1 st', s = pre1 ++ s1 -> (length pre1 < length pre)%nat ->
      ~ Matches input r (MState s1 []) st'.
Proof.
  induction s as [|c s IH]; simpl.
  - destruct (rmatch input r Some _) as [res'|] eqn:H0; [|discriminate].
    intros [= ->]. apply rmatch_sound in H0 as (st' & HM & [= ->]).
    exists [], []. repeat split; auto. simpl. intros; lia.
  - destruct (rmatch input r Some _) as [res'|] eqn:H0.
    + intros [= ->]. apply rmatch_sound in H0 as (st' & HM & [= ->]).
      exists [], (c :: s). repeat split; auto. simpl. intros; lia.
    + intros H. apply IH in H as (pre & s' & -> & HM & Hleft).
      exists (c :: pre), s'. repeat split; auto.
      intros pre1 s1 st' Heq Hlt. destruct pre1 as [|c1 pre1]; simpl in *.
      * subst s1. apply (rmatch_none _ _ H0).
      * injection Heq as <- Heq. apply (Hleft pre1 s1 st' Heq). lia.
Qed.

Lemma exec_from_complete r pre s st' :
  Matches input r (MState s []) st' ->
  is_Some (exec_from input r (pre ++ s)).
Proof.
  intros HM. induction pre as [|c pre IH]; simpl.
  - destruct (rmatch_complete r _ _ HM Some) as [res Hres]; [eauto|].
    destruct s; simpl; rewrite Hres; eauto.
  - destruct (rmatch input r Some _); [eauto | exact IH].
Qed.

End WithInput.

(** Expressions without [^] do not look at the subject as a whole. *)

Lemma rep_ext p lo hi k1 k2 cs s :
  (forall st, k1 st = k2 st) -> rep p lo hi k1 cs s = rep p lo hi k2 cs s.
Proof.
  intros Hk. revert lo hi. induction s as [|c s IH]; intros lo hi; cbn.
  - destruct lo; [apply Hk | reflexivity].
  - rewrite IH, Hk. reflexivity.
Qed.

Lemma rmatch_input_irrelevant i1 i2 r : bolFree r = true ->
  forall k1 k2 st, (forall st', k1 st' = k2 st') ->
  rmatch i1 r k1 st = rmatch i2 r k2 st.
Proof.
  induction r as [|p|r1 IH1 r2 IH2|r1 IH1 r2 IH2|p lo hi|r1 IH1|n r1 IH1| |];
    cbn [bolFree rmatch]; intros Hfree k1 k2 st Hk; try discriminate.
  - apply Hk.
  - destruct (rest st); [reflexivity|]. now rewrite Hk.
  - apply andb_true_iff in Hfree as [H1 H2].
    apply IH1; [exact H1|]. intros st'. apply IH2; assumption.
  - apply andb_true_iff in Hfree as [H1 H2].
    rewrite (IH1 H1 k1 k2 st Hk), (IH2 H2 k1 k2 st Hk). reflexivity.
  - apply rep_ext, Hk.
  - rewrite (IH1 Hfree k1 k2 st Hk), Hk. reflexivity.
  - apply IH1; [exact Hfree|]. intros st'. apply Hk.
  - destruct (rest st); [apply Hk | reflexivity].
Qed.

Lemma exec_from_input_irrelevant i1 i2 r s : bolFree r = true ->
  exec_from i1 r s = exec_from i2 r s.
Proof.
  intros Hfree. induction s as [|c s IH]; cbn [exec_from];
    rewrite (rmatch_input_irrelevant i1 i2 r Hfree Some Some) by reflexivity;
    [reflexivity | now rewrite IH].
Qed.

(** A first character on which the expression cannot start is skipped
    by the search. *)
Lemma exec_skip r c s : bolFree r = true ->
  rmatch (c :: s) r Some (MState (c :: s) []) = None ->
  exec r (c :: s) = exec r s.
Proof.
  intros Hfree Hnone. unfold exec. cbn [exec_from]. rewrite Hnone.
  now apply exec_from_input_irrelevant.
Qed.

End RegexFacts.

(** ** The item categorizer *)

Module CategorizeFacts.

Import Changelog.

Section WithLowerCase.

Variable toLowerCase : jsstring -> jsstring.

Lemma includes_contains (t p : jsstring) :
  Str.includes t p = true <-> Spec.contains t p.
Proof. apply StrFacts.includes_spec. Qed.

Lemma includes_not_contains (t p : jsstring) :
  Str.includes t p = false <-> ~ Spec.contains t p.
Proof.
  rewrite <- includes_contains. destruct (Str.includes t p); split; congruence.
Qed.

Lemma rule_breaking_dec (t : jsstring) :
  Str.includes t (js "breaking")
  || (Str.includes t (js "removed") && Str.includes t (js "support")) = true
  <-> Spec.rule_breaking t.
Proof.
  unfold Spec.rule_breaking.
  rewrite orb_true_iff, andb_true_iff, !includes_contains. reflexivity.
Qed.

Lemma rule_removal_dec (t : jsstring) :
  Str.includes t (js "removed") || Str.includes t (js "deprecated")
  || Str.includes t (js "no longer") = true
  <-> Spec.rule_removal t.
Proof.
  unfold Spec.rule_removal.
  rewrite !orb_true_iff, !includes_contains. tauto.
Qed.

Lemma rule_fix_dec (t : jsstring) :
  Str.includes t (js "fix") || Str.includes t (js "fixed")
  || Str.includes t (js "bug") || Str.includes t (js "issue") = true
  <-> Spec.rule_fix t.
Proof.
  unfold Spec.rule_fix.
  rewrite !orb_true_iff, !includes_contains. tauto.
Qed.

Lemma rule_feature_dec (t : jsstring) :
  Str.includes t (js "add") || Str.includes t (js "new")
  || Str.includes t (js "feature") || Str.includes t (js "support") = true
  <-> Spec.rule_feature t.
Proof.
  unfold Spec.rule_feature.
  rewrite !orb_true_iff, !includes_contains. tauto.
Qed.

Lemma classify_functional (t : jsstring) (k1 k2 : ItemType) :
  Spec.classify t k1 -> Spec.classify t k2 -> k1 = k2.
Proof. destruct 1; destruct 1; try reflexivity; contradiction. Qed.

Ltac next_rule H :=
  lazymatch goal with
  | |- Spec.classify _ (if ?b then _ else _) => destruct b eqn:H
  end.

Lemma categorizeItem_classify (content : jsstring) :
  Spec.classify (toLowerCase content) (categorizeItem toLowerCase content).
Proof.
  unfold categorizeItem. cbv zeta. set (t := toLowerCase content).
  next_rule H1.
  { apply Spec.classify_breaking, rule_breaking_dec, H1. }
  assert (N1 : ~ Spec.rule_breaking t).
  { rewrite <- rule_breaking_dec. congruence. }
  next_rule H2.
  { apply Spec.classify_removal; [exact N1 | apply rule_removal_dec, H2]. }
  assert (N2 : ~ Spec.rule_removal t).
  { rewrite <- rule_removal_dec. congruence. }
  next_rule H3.
  { apply Spec.classify_fix; [exact N1 | exact N2 | apply rule_fix_dec, H3]. }
  assert (N3 : ~ Spec.rule_fix t).
  { rewrite <- rule_fix_dec. congruence. }
  next_rule H4.
  { apply Spec.classify_feature; [exact N1 | exact N2 | exact N3 | apply rule_feature_dec, H4]. }
  apply Spec.classify_other; try assumption.
  rewrite <- rule_feature_dec. congruence.
Qed.

(** C2.  For every input, [categorizeItem] gives the kind that the
    five-rule precedence chain of the specification assigns to the
    lower-cased text, and no other; and once [toLowerCase] lower-cases
    Basic Latin text letter by letter, "removed support for legacy
    flag" is [Breaking] (not [Removal]). *)
Theorem categorizeItem_precedence
    (Hascii : forall s, forallb isAscii s = true -> toLowerCase s = map lowerAscii s) :
  (forall content kind,
     categorizeItem toLowerCase content = kind
     <-> Spec.classify (toLowerCase content) kind)
  /\ categorizeItem toLowerCase (js "removed support for legacy flag") = Breaking
  /\ categorizeItem toLowerCase (js "removed support for legacy flag") <> Removal.
Proof.
  assert (Hex : categorizeItem toLowerCase (js "removed support for legacy flag") = Breaking).
  { unfold categorizeItem. rewrite Hascii by reflexivity. reflexivity. }
  split; [|split].
  - intros content kind. split.
    + intros <-. apply categorizeItem_classify.
    + intros Hk. eapply classify_functional; [apply categorizeItem_classify | exact Hk].
  - exact Hex.
  - rewrite Hex. discriminate.
Qed.

End WithLowerCase.

Lemma categorizeItem_precedence_witness :
  (forall s, forallb isAscii s = true -> map lowerAscii s = map lowerAscii s)
  /\ categorizeItem (map lowerAscii) (js "Removed SUPPORT for legacy flag") = Breaking.
Proof.
  split; [reflexivity|].
  apply (proj1 (categorizeItem_precedence (map lowerAscii) (fun s _ => eq_refl))).
  apply Spec.classify_breaking. right. split.
  - exists [], (js " support for legacy flag"). reflexivity.
  - exists (js "removed "), (js " for legacy flag"). reflexivity.
Defined.

End CategorizeFacts.

(** ** The retrying fetcher *)

Module FetchFacts.

Import Fetch.

Lemma attempt_eq url replies c lg :
  attempt url (World replies c lg)
  = (World replies (S c) (lg ++ [Request url]), outcome (replies c)).
Proof.
  unfold attempt, bind, fetch, outcome. simpl.
  destruct (replies c) as [reason|response]; [reflexivity|].
  destruct (ok response); reflexivity.
Qed.

Lemma attemptsLog_S url i n :
  (0 < n)%nat ->
  attemptsLog url i (S n)
  = Request url :: Timer (2 ^ N.of_nat i * 1000) :: attemptsLog url (S i) n.
Proof. destruct n; [lia | reflexivity]. Qed.

(** The loop entered at index [i] with [fuel] iterations left. *)
Lemma retryLoop_eq url retries replies : forall fuel i lastError lg,
  (i + fuel = retries)%nat ->
  retryLoop url retries fuel i lastError (World replies i lg)
  = match List.find (fun j => negb (failed (replies j))) (seq i fuel) with
    | Some j =>
        (World replies (S j) (lg ++ attemptsLog url i (S j - i)), outcome (replies j))
    | None =>
        (World replies retries (lg ++ attemptsLog url i fuel),
         inl (match fuel with
              | O => default RetriesFailed lastError
              | S _ => Spec.errorOf (replies (retries - 1)%nat)
              end))
    end.
Proof.
  induction fuel as [|fuel IH]; intros i lastError lg Hi.
  - simpl. unfold throw. rewrite app_nil_r. replace i with retries by lia. reflexivity.
  - cbn [retryLoop seq List.find]. unfold tryCatch. rewrite attempt_eq.
    unfold failed. destruct (outcome (replies i)) as [e|response] eqn:Hout.
    + cbn [negb]. unfold bind.
      destruct fuel as [|fuel].
      * assert (Hlast : (i <? retries - 1)%nat = false) by (apply Nat.ltb_ge; lia).
        rewrite Hlast. cbn. unfold throw.
        replace (retries - 1)%nat with i by lia.
        replace (S i) with retries by lia.
        unfold Spec.errorOf. rewrite Hout. reflexivity.
      * assert (Hmore : (i <? retries - 1)%nat = true) by (apply Nat.ltb_lt; lia).
        rewrite Hmore. unfold sleep. cbn [Fetch.replies Fetch.calls Fetch.log].
        rewrite IH by lia.
        destruct (List.find _ (seq (S i) (S fuel))) as [j|] eqn:Hfind.
        -- assert (Hj : (S i <= j)%nat).
           { apply List.find_some in Hfind as [Hin _]. apply in_seq in Hin. lia. }
           replace (S j - i)%nat with (S (S j - S i)) by lia.
           rewrite (attemptsLog_S url i (S j - S i)) by lia.
           rewrite <- !app_assoc. reflexivity.
        -- rewrite (attemptsLog_S url i (S fuel)) by lia.
           rewrite <- !app_assoc. reflexivity.
    + cbn [negb]. cbv iota. rewrite Hout, Nat.sub_succ_l, Nat.sub_diag by lia.
      reflexivity.
Qed.

Lemma fetchWithRetry_policy url retries replies :
  fetchWithRetry url retries (initial replies) = Spec.fetchPolicy url retries replies.
Proof.
  unfold fetchWithRetry, initial, Spec.fetchPolicy, Spec.firstSuccess.
  rewrite retryLoop_eq by lia. cbn [app].
  destruct (List.find _ (seq 0 retries)) as [j|].
  - now rewrite Nat.sub_0_r.
  - destruct retries; cbn [default Spec.surfaced]; [reflexivity|].
    now rewrite Nat.sub_succ, Nat.sub_0_r.
Qed.

(** The log of [n] attempts: [n] requests, a wait of [2^i] seconds
    after the attempt of index [i] when another attempt follows, and
    nothing after the last request. *)
Lemma attemptsLog_length url i n :
  length (attemptsLog url i n) = (2 * n - 1)%nat.
Proof.
  revert i. induction n as [|n IH]; intros i; [reflexivity|].
  destruct n as [|n]; [reflexivity|].
  rewrite attemptsLog_S by lia. cbn [length]. rewrite IH. lia.
Qed.

Lemma attemptsLog_request url i n k :
  (k < n)%nat -> attemptsLog url i n !! (2 * k)%nat = Some (Request url).
Proof.
  revert i k. induction n as [|n IH]; intros i k Hk; [lia|].
  destruct n as [|n].
  - replace k with 0%nat by lia. reflexivity.
  - rewrite attemptsLog_S by lia. destruct k as [|k]; [reflexivity|].
    replace (2 * S k)%nat with (S (S (2 * k))) by lia. apply IH. lia.
Qed.

Lemma attemptsLog_wait url i n k :
  (S k < n)%nat ->
  attemptsLog url i n !! (2 * k + 1)%nat = Some (Timer (2 ^ N.of_nat (i + k) * 1000)).
Proof.
  revert i k. induction n as [|n IH]; intros i k Hk; [lia|].
  destruct n as [|n]; [lia|].
  rewrite attemptsLog_S by lia. destruct k as [|k].
  - rewrite Nat.add_0_r. reflexivity.
  - replace (2 * S k + 1)%nat with (S (S (2 * k + 1))) by lia.
    change ((Request url :: Timer (2 ^ N.of_nat i * 1000) :: attemptsLog url (S i) (S n))
              !! S (S (2 * k + 1)))
      with (attemptsLog url (S i) (S n) !! (2 * k + 1)%nat).
    rewrite (IH (S i) k) by lia.
    do 4 f_equal. lia.
Qed.

Lemma firstSuccess_spec replies n j :
  Spec.firstSuccess replies n = Some j <->
  (j < n)%nat /\ failed (replies j) = false /\
  forall i, (i < j)%nat -> failed (replies i) = true.
Proof.
  unfold Spec.firstSuccess.
  assert (G : forall b, List.find (fun i => negb (failed (replies i))) (seq b n) = Some j <->
    (b <= j < b + n)%nat /\ failed (replies j) = false /\
    forall i, (b <= i < j)%nat -> failed (replies i) = true).
  { induction n as [|n IH]; intros b; simpl.
    - split; [discriminate | lia].
    - destruct (failed (replies b)) eqn:Hb; simpl.
      + rewrite IH. split.
        * intros (Hj & Hok & Hbefore). repeat split; try lia; try assumption.
          intros i Hi. destruct (Nat.eq_dec i b) as [->|]; [assumption|].
          apply Hbefore. lia.
        * intros (Hj & Hok & Hbefore). repeat split; try assumption.
          -- destruct (Nat.eq_dec j b) as [->|]; [congruence | lia].
          -- lia.
          -- intros i Hi. apply Hbefore. lia.
      + split.
        * intros [= <-]. split; [lia|]. split; [assumption|]. intros; lia.
        * intros (Hj & Hok & Hbefore). f_equal.
          destruct (Nat.eq_dec j b) as [->|]; [reflexivity|].
          specialize (Hbefore b ltac:(lia)). congruence. }
  rewrite G. split; intros (Hj & Hok & Hbefore); repeat split; try lia; try assumption.
  - intros i Hi. apply Hbefore. lia.
  - intros i Hi. apply Hbefore. lia.
Qed.

Lemma firstSuccess_none replies n :
  Spec.firstSuccess replies n = None <->
  forall i, (i < n)%nat -> failed (replies i) = true.
Proof.
  unfold Spec.firstSuccess. split.
  - intros Hnone i Hi.
    pose proof (List.find_none _ _ Hnone i) as H.
    rewrite in_seq in H. specialize (H ltac:(lia)).
    now apply negb_false_iff in H.
  - intros Hall. destruct (List.find _ _) as [j|] eqn:Hfind; [|reflexivity].
    apply List.find_some in Hfind as [Hin Hj]. apply in_seq in Hin.
    rewrite Hall in Hj by lia. discriminate.
Qed.

Lemma failed_iff (r : reply) :
  failed r = true <->
  (exists reason, r = Rejects reason)
  \/ (exists response, r = Resolves response
        /\ ~ (200 <= status response <= 299)).
Proof.
  unfold failed, outcome. destruct r as [reason|response].
  - split; [eauto | reflexivity].
  - destruct (ok response) eqn:Hok; unfold ok in Hok.
    + apply andb_true_iff in Hok as [Hlo Hhi]. apply N.leb_le in Hlo, Hhi.
      split; [discriminate|].
      intros [[reason [=]] | (r & [= <-] & H)]. exfalso. apply H. lia.
    + split; [|reflexivity]. intros _. right. eexists. split; [reflexivity|].
      intros [Hlo Hhi]. apply N.leb_le in Hlo, Hhi.
      rewrite Hlo, Hhi in Hok. discriminate.
Qed.

(** C7.  With the default of three attempts [fetchWithRetry] returns
    the response of the first attempt that does not fail (an attempt
    fails on a rejected request or a status outside 200-299), waits
    [2^i] seconds after the failed attempt of index [i] when another
    attempt follows and not after the last one, and when all three
    fail throws the error of the last attempt.  For any number of
    attempts: the first success ends the loop, failure of all attempts
    throws the last error, the waits double from one second on, and
    with no attempt at all the generic error is thrown. *)
Theorem fetchWithRetry_retry_policy (url : jsstring) (replies : nat -> reply) :
  match outcome (replies 0%nat), outcome (replies 1%nat), outcome (replies 2%nat) with
  | inr response, _, _ =>
      fetchWithRetry url 3 (initial replies)
      = (World replies 1 [Request url], inr response)
  | inl _, inr response, _ =>
      fetchWithRetry url 3 (initial replies)
      = (World replies 2 [Request url; Timer 1000; Request url], inr response)
  | inl _, inl _, inr response =>
      fetchWithRetry url 3 (initial replies)
      = (World replies 3
           [Request url; Timer 1000; Request url; Timer 2000; Request url],
         inr response)
  | inl _, inl _, inl lastError =>
      fetchWithRetry url 3 (initial replies)
      = (World replies 3
           [Request url; Timer 1000; Request url; Timer 2000; Request url],
         inl lastError)
  end
  /\ (forall r, failed r = true <->
        (exists reason, r = Rejects reason)
        \/ (exists response, r = Resolves response
              /\ ~ (200 <= status response <= 299)))
  /\ (forall retries j response,
        (j < retries)%nat ->
        (forall i, (i < j)%nat -> failed (replies i) = true) ->
        outcome (replies j) = inr response ->
        fetchWithRetry url retries (initial replies)
        = (World replies (S j) (attemptsLog url 0 (S j)), inr response))
  /\ (forall retries,
        (forall i, (i < retries)%nat -> failed (replies i) = true) ->
        fetchWithRetry url retries (initial replies)
        = (World replies retries (attemptsLog url 0 retries),
           inl (match retries with
                | O => RetriesFailed
                | S last =>
                    match outcome (replies last) with
                    | inl e => e
                    | inr _ => RetriesFailed
                    end
                end)))
  /\ (forall n k, (k < n)%nat -> attemptsLog url 0 n !! (2 * k)%nat = Some (Request url))
  /\ (forall n k, (S k < n)%nat ->
        attemptsLog url 0 n !! (2 * k + 1)%nat = Some (Timer (2 ^ N.of_nat k * 1000)))
  /\ (forall n, length (attemptsLog url 0 n) = (2 * n - 1)%nat)
  /\ fetchWithRetry url 0 (initial replies)
     = (World replies 0 [], inl RetriesFailed).
Proof.
  repeat match goal with |- _ /\ _ => split end.
  - rewrite fetchWithRetry_policy.
    unfold Spec.fetchPolicy, Spec.firstSuccess, Spec.surfaced, Spec.errorOf, failed.
    cbn [seq List.find].
    destruct (outcome (replies 0%nat)) as [e0|r0] eqn:H0; cbn [negb]; cbv iota;
      [|now rewrite H0].
    destruct (outcome (replies 1%nat)) as [e1|r1] eqn:H1; cbn [negb]; cbv iota;
      [|now rewrite H1].
    destruct (outcome (replies 2%nat)) as [e2|r2] eqn:H2; cbn [negb]; cbv iota;
      [|now rewrite H2].
    reflexivity.
  - exact failed_iff.
  - intros retries j response Hj Hbefore Hout.
    rewrite fetchWithRetry_policy. unfold Spec.fetchPolicy.
    assert (Hfirst : Spec.firstSuccess replies retries = Some j).
    { apply firstSuccess_spec. repeat split; auto. unfold failed. now rewrite Hout. }
    now rewrite Hfirst, Hout.
  - intros retries Hall. rewrite fetchWithRetry_policy. unfold Spec.fetchPolicy.
    apply firstSuccess_none in Hall. now rewrite Hall.
  - intros n k. apply attemptsLog_request.
  - intros n k. apply attemptsLog_wait.
  - intros n. apply attemptsLog_length.
  - reflexivity.
Qed.

Lemma fetchWithRetry_retry_policy_witness :
  fetchWithRetry (js "/changelog") 3
    (initial (fun k => if (k <? 2)%nat then Rejects (js "offline")
                       else Resolves {| status := 200; text := js "## 1.0.0" |}))
  = (World (fun k => if (k <? 2)%nat then Rejects (js "offline")
                     else Resolves {| status := 200; text := js "## 1.0.0" |})
       3 (attemptsLog (js "/changelog") 0 3),
     inr {| status := 200; text := js "## 1.0.0" |}).
Proof.
  apply (proj1 (proj2 (proj2 (fetchWithRetry_retry_policy (js "/changelog") _))) 3%nat 2%nat).
  - lia.
  - intros [|[|i]] Hi; try reflexivity. lia.
  - reflexivity.
Defined.

End FetchFacts.

(** ** Fetching all active sources *)

Module SourcesFacts.

Import Sources.

Lemma results_contributions (active : list ChangelogSource) : forall replies,
  omap (fun r => r)
    (omap fulfilledValue (imap (fun i source => fetchOne source (replies i)) active))
  = mjoin (imap (fun i source => contribution source (replies i)) active).
Proof.
  induction active as [|source active IH]; intros replies; [reflexivity|].
  cbn [imap omap mjoin list_omap list_join].
  specialize (IH (replies ∘ S)). unfold compose in *.
  fold (@omap list _ _ _ (@fulfilledValue (option Fetched))
          (imap (fun i source => fetchOne source (replies (S i))) active)).
  destruct (replies 0%nat); cbn; rewrite IH; reflexivity.
Qed.

Lemma fetchAll_contributions sources replies :
  fetchAllActiveChangelogs (SourcesServed sources) replies
  = Some (mjoin (imap (fun i source => contribution source (replies i))
                   (List.filter is_active sources))).
Proof. cbn. f_equal. apply results_contributions. Qed.

Lemma elem_of_contributions (active : list ChangelogSource) : forall replies e,
  e ∈ mjoin (imap (fun i source => contribution source (replies i)) active)
  <-> exists i source md,
        active !! i = Some source /\ replies i = Json md /\ e = entry source md.
Proof.
  induction active as [|source active IH]; intros replies e.
  - cbn. split; [intros H; inversion H | intros (i & s0 & md & H & _); discriminate].
  - cbn [imap mjoin list_join]. rewrite elem_of_app, (IH (replies ∘ S)). split.
    + intros [H | (i & s0 & md & Hi & Hr & ->)].
      * exists 0%nat, source. destruct (replies 0%nat) eqn:Hr; cbn in H;
          try (inversion H; fail).
        apply list_elem_of_singleton in H. eauto.
      * exists (S i), s0, md. auto.
    + intros ([|i] & s0 & md & Hi & Hr & ->).
      * left. injection Hi as <-. rewrite Hr. cbn. apply list_elem_of_singleton. reflexivity.
      * right. exists i, s0, md. auto.
Qed.

(** *** Order of the effects *)

(** In every state of a run, the requests of all active sources, in
    the order of the sources, come first in the log, and no request is
    issued after them. *)
Lemma reachable_log (sources : list ChangelogSource) (sw : sweep) :
  reachable sources sw ->
  exists later,
    log sw = imap (fun i _ => Requested i) (List.filter is_active sources) ++ later
    /\ Forall (fun e => isRequest e = false) later.
Proof.
  unfold reachable. induction 1 as [|sw2 sw3 _ IH Hstep].
  - exists []. split; [now rewrite app_nil_r | constructor].
  - destruct IH as (later & Hlog & Hlater).
    destruct Hstep; cbn [log settle]; rewrite Hlog, <- app_assoc;
      eexists; (split; [reflexivity|]);
      apply Forall_app; (split; [exact Hlater | repeat constructor]).
Qed.

(** The callbacks stay attached to their sources. *)
Lemma reachable_tasks (sources : list ChangelogSource) (sw : sweep) :
  reachable sources sw ->
  (tasks sw).*1 = List.filter is_active sources /\ Forall task_ok (tasks sw).
Proof.
  unfold reachable. induction 1 as [|sw2 sw3 _ [IH1 IH2] Hstep].
  - split.
    + unfold start. cbn [tasks]. rewrite <- list_fmap_compose. apply list_fmap_id.
    + unfold start. cbn [tasks]. apply Forall_fmap, Forall_forall.
      intros s0 _ e. discriminate.
  - assert (G : forall i source t t',
              tasks sw2 !! i = Some (source, t) -> task_ok (source, t') ->
              (<[i := (source, t')]> (tasks sw2)).*1 = List.filter is_active sources
              /\ Forall task_ok (<[i := (source, t')]> (tasks sw2))).
    { intros i source t t' Hi Hok. split.
      - rewrite list_fmap_insert. cbn. rewrite list_insert_id; [exact IH1|].
        rewrite list_lookup_fmap, Hi. reflexivity.
      - apply Forall_insert; assumption. }
    destruct Hstep; cbn [tasks settle]; eapply G; try eassumption;
      intros e; cbn; intros [= <-] || discriminate || idtac.
    eexists; reflexivity.
Qed.

Lemma returned_settled (ts : list (ChangelogSource * task)) (res : list Fetched) :
  returned (Sweep ts []) = Some res -> res = omap settledEntry ts.
Proof.
  unfold returned. cbn [tasks]. revert res.
  induction ts as [|[source t] ts IH]; intros res.
  - cbn. intros [= <-]. reflexivity.
  - cbn. destruct t as [| |v]; cbn; try discriminate.
    destruct (mapM _ ts) as [values|] eqn:Hvalues; cbn; [|discriminate].
    intros [= <-]. specialize (IH _ eq_refl).
    unfold settledEntry at 1. cbn. destruct v as [e|]; cbn; now rewrite IH.
Qed.

Lemma settled_contributions (ts : list (ChangelogSource * task)) :
  Forall task_ok ts ->
  omap settledEntry ts
  = mjoin (imap (fun i source => contribution source (replyOf ts i)) ts.*1).
Proof.
  induction 1 as [|[source t] ts Hok _ IH]; [reflexivity|].
  cbn [fmap list_fmap imap mjoin list_join omap list_omap].
  change (replyOf ((source, t) :: ts) 0) with
    (match t with Settled (Some e) => Json (markdown e) | _ => FetchRejects end).
  fold (@omap list _ _ _ settledEntry ts). fold (@fmap list _ _ _ (@fst ChangelogSource task) ts).
  rewrite IH. unfold settledEntry at 1. cbn.
  destruct t as [| |[e|]]; cbn; try reflexivity.
  destruct (Hok e eq_refl) as [md ->]. reflexivity.
Qed.

(** What a finished run returns is what [fetchAllActiveChangelogs]
    computes from the replies that the run has seen. *)
Lemma returned_fetchAll (sources : list ChangelogSource) (sw : sweep) (res : list Fetched) :
  reachable sources sw ->
  returned sw = Some res ->
  fetchAllActiveChangelogs (SourcesServed sources) (replyOf (tasks sw)) = Some res.
Proof.
  intros Hreach Hret. apply reachable_tasks in Hreach as [Hsrc Hok].
  rewrite fetchAll_contributions, <- Hsrc, <- settled_contributions by exact Hok.
  f_equal. symmetry. apply returned_settled. exact Hret.
Qed.

(** Conversely, whatever the replies, some run settles every callback
    on its reply, the sources being served in turn. *)
Lemma run_prefix (active : list ChangelogSource) (replies : nat -> reply) (k : nat) :
  (k <= length active)%nat ->
  exists lg,
    steps (start active)
      (Sweep (take k (settledAll active replies) ++ drop k (pending active)) lg).
Proof.
  induction k as [|k IH]; intros Hk.
  - exists (log (start active)). cbn. rewrite drop_0. apply steps_refl.
  - destruct IH as [lg Hsteps]; [lia|].
    destruct (lookup_lt_is_Some_2 active k) as [source Hsource]; [lia|].
    set (ts := take k (settledAll active replies) ++ drop k (pending active)) in *.
    assert (Hlen : length (take k (settledAll active replies)) = k).
    { rewrite length_take. unfold settledAll. rewrite length_imap. lia. }
    assert (Hpend : pending active !! k = Some (source, AwaitFetch)).
    { unfold pending. change (map ?f active) with (f <$> active).
      rewrite list_lookup_fmap, Hsource. reflexivity. }
    assert (Hdone : settledAll active replies !! k
                    = Some (source, Settled (valueOf source (replies k)))).
    { unfold settledAll. rewrite list_lookup_imap, Hsource. reflexivity. }
    assert (Hts : ts !! k = Some (source, AwaitFetch)).
    { unfold ts. rewrite lookup_app_r by lia. rewrite Hlen, Nat.sub_diag.
      rewrite lookup_drop, Nat.add_0_r. exact Hpend. }
    assert (Hins : forall t,
              <[k := (source, t)]> ts
              = take k (settledAll active replies) ++ (source, t) :: drop (S k) (pending active)).
    { intros t. unfold ts. rewrite insert_app_r_alt by lia.
      rewrite Hlen, Nat.sub_diag. rewrite (drop_S _ _ _ Hpend). reflexivity. }
    assert (Hnext : take (S k) (settledAll active replies) ++ drop (S k) (pending active)
                    = take k (settledAll active replies)
                      ++ (source, Settled (valueOf source (replies k)))
                         :: drop (S k) (pending active)).
    { rewrite (take_S_r _ _ _ Hdone), <- app_assoc. reflexivity. }
    rewrite Hnext, <- Hins.
    destruct (replies k) eqn:Hreply; cbn [valueOf].
    + eexists. eapply steps_step; [exact Hsteps|].
      apply (step_fetch_fails (Sweep ts lg) k source Hts).
    + eexists. eapply steps_step; [exact Hsteps|].
      apply (step_fetch_fails (Sweep ts lg) k source Hts).
    + eexists. eapply steps_step.
      * eapply steps_step; [exact Hsteps|].
        apply (step_fetch_ok (Sweep ts lg) k source Hts).
      * set (sw := Sweep (<[k := (source, AwaitJson)]> ts) (lg ++ [Answered k])).
        assert (Hsw : tasks sw !! k = Some (source, AwaitJson)).
        { cbn. apply list_lookup_insert_eq. apply lookup_lt_Some in Hts. exact Hts. }
        pose proof (step_json_fails sw k source Hsw) as Hstep.
        unfold settle in Hstep. cbn [tasks log sw] in Hstep.
        rewrite list_insert_insert_eq in Hstep. exact Hstep.
    + eexists. eapply steps_step.
      * eapply steps_step; [exact Hsteps|].
        apply (step_fetch_ok (Sweep ts lg) k source Hts).
      * set (sw := Sweep (<[k := (source, AwaitJson)]> ts) (lg ++ [Answered k])).
        assert (Hsw : tasks sw !! k = Some (source, AwaitJson)).
        { cbn. apply list_lookup_insert_eq. apply lookup_lt_Some in Hts. exact Hts. }
        pose proof (step_json_ok sw k source markdown0 Hsw) as Hstep.
        unfold settle in Hstep. cbn [tasks log sw] in Hstep.
        rewrite list_insert_insert_eq in Hstep. exact Hstep.
Qed.

Lemma settledAll_values (active : list ChangelogSource) : forall replies,
  omap settledEntry (settledAll active replies)
  = mjoin (imap (fun i source => contribution source (replies i)) active).
Proof.
  induction active as [|source active IH]; intros replies; [reflexivity|].
  unfold settledAll. cbn [imap omap list_omap mjoin list_join].
  specialize (IH (replies ∘ S)). unfold settledAll, compose in IH.
  fold (@omap list _ _ _ settledEntry
          (imap (fun i source => (source, Settled (valueOf source (replies (S i))))) active)).
  unfold compose. rewrite IH. unfold settledEntry at 1. cbn.
  now destruct (replies 0%nat).
Qed.

Lemma returned_all_settled (ts : list (ChangelogSource * task)) (lg : list event) :
  Forall (fun t => exists v, t.2 = Settled v) ts ->
  returned (Sweep ts lg) = Some (omap settledEntry ts).
Proof.
  unfold returned. cbn [tasks].
  induction 1 as [|[source t] ts [v Hv] _ IH]; [reflexivity|].
  cbn in Hv. subst t. cbn.
  destruct (mapM _ ts) as [values|]; cbn in *; [|discriminate].
  injection IH as IH. unfold settledEntry at 1. cbn.
  destruct v; cbn; now rewrite IH.
Qed.

Lemma settledAll_settled (active : list ChangelogSource) (replies : nat -> reply) :
  Forall (fun t => exists v, t.2 = Settled v) (settledAll active replies).
Proof.
  apply Forall_lookup. intros i t. unfold settledAll. rewrite list_lookup_imap.
  destruct (active !! i); cbn; intros [= <-]; cbn; eauto.
Qed.

Lemma run_exists (sources : list ChangelogSource) (replies : nat -> reply) :
  exists sw,
    reachable sources sw
    /\ returned sw = fetchAllActiveChangelogs (SourcesServed sources) replies.
Proof.
  set (active := List.filter is_active sources).
  destruct (run_prefix active replies (length active)) as [lg Hsteps]; [lia|].
  rewrite take_ge, drop_ge, app_nil_r in Hsteps.
  - eexists. split; [exact Hsteps|].
    rewrite returned_all_settled by apply settledAll_settled.
    now rewrite settledAll_values, fetchAll_contributions.
  - unfold pending. rewrite length_map. lia.
  - unfold settledAll. rewrite length_imap. lia.
Qed.

(** C8.  Only active sources are fetched; every active source whose
    request succeeds contributes exactly one entry, at its place in
    the order of the sources, made of the id and the name of the
    source and of the markdown that was fetched for it, and a source
    whose request fails contributes none, whatever happens to the
    other sources.  This is what every finished run of the callbacks
    returns, and there is such a run for every choice of replies. *)
Theorem fetchAllActiveChangelogs_isolates_failures
    (sources : list ChangelogSource) (replies : nat -> reply) :
  exists result,
    fetchAllActiveChangelogs (SourcesServed sources) replies = Some result
    /\ result
       = mjoin (imap (fun i source =>
                        match replies i with
                        | Json md =>
                            [{| sourceId := id source; sourceName := name source;
                                markdown := md |}]
                        | FetchRejects | NotOk | JsonRejects => []
                        end)
                  (List.filter is_active sources))
    /\ (forall e,
          e ∈ result
          <-> exists i source,
                List.filter is_active sources !! i = Some source
                /\ replies i = Json (markdown e)
                /\ sourceId e = id source /\ sourceName e = name source)
    /\ (forall e,
          e ∈ result ->
          exists source, source ∈ sources /\ is_active source = true
                         /\ sourceId e = id source /\ sourceName e = name source)
    /\ (forall sw res,
          reachable sources sw -> returned sw = Some res ->
          fetchAllActiveChangelogs (SourcesServed sources) (replyOf (tasks sw)) = Some res)
    /\ (exists sw, reachable sources sw /\ returned sw = Some result).
Proof.
  eexists. split; [apply fetchAll_contributions|].
  split; [reflexivity|]. split; [|split; [|split]].
  - intros e. rewrite elem_of_contributions. split.
    + intros (i & source & md & Hi & Hr & ->). exists i, source. auto.
    + intros (i & source & Hi & Hr & Hid & Hname).
      exists i, source, (markdown e). split; [exact Hi|]. split; [exact Hr|].
      destruct e as [eid ename emd]. cbn in *. unfold entry. congruence.
  - intros e. rewrite elem_of_contributions.
    intros (i & source & md & Hi & _ & ->). exists source.
    apply list_elem_of_lookup_2 in Hi. apply list_elem_of_In, filter_In in Hi as [Hin Hact].
    apply list_elem_of_In in Hin. auto.
  - intros sw res. apply returned_fetchAll.
  - destruct (run_exists sources replies) as (sw & Hreach & Hret).
    exists sw. split; [exact Hreach|]. now rewrite Hret, fetchAll_contributions.
Qed.

Lemma fetchAllActiveChangelogs_isolates_failures_witness :
  fetchAllActiveChangelogs
    (SourcesServed [Examples.srcA; Examples.srcB; Examples.srcC]) Examples.firstFails
  = Some [{| sourceId := js "c"; sourceName := js "Gamma";
             markdown := js "## 1.0.0" |}].
Proof.
  destruct (fetchAllActiveChangelogs_isolates_failures
              [Examples.srcA; Examples.srcB; Examples.srcC] Examples.firstFails)
    as (result & Hresult & -> & _).
  exact Hresult.
Defined.

(** C9, amended.  [fetchAllActiveChangelogs] does not take the
    sources one after the other: at every moment of a run the log
    starts with the requests of all the active sources, in the order
    of the sources, and no request comes later; so, with two active
    sources or more, the work on a source begins before the work on
    the previous one has completed. *)
Theorem requests_issued_together (sources : list ChangelogSource) (sw : sweep) :
  reachable sources sw ->
  (exists later,
     log sw = imap (fun i _ => Requested i) (List.filter is_active sources) ++ later
     /\ Forall (fun e => isRequest e = false) later)
  /\ ((2 <= length (List.filter is_active sources))%nat -> ~ Spec.sequential (log sw)).
Proof.
  intros Hreach. pose proof (reachable_log sources sw Hreach) as (later & Hlog & Hlater).
  split; [eauto|].
  intros Hlen Hseq.
  destruct (List.filter is_active sources) as [|s0 [|s1 active]]; cbn in Hlen; try lia.
  cbn in Hlog. destruct (Hseq 0%nat 1%nat) as (q & Hq & Hfin).
  - rewrite Hlog. reflexivity.
  - assert (q = 0%nat) as -> by lia. rewrite Hlog in Hfin. discriminate.
Qed.

Lemma secondFirst_reachable :
  reachable [Examples.srcA; Examples.srcB; Examples.srcC] Examples.secondFirst.
Proof.
  unfold reachable.
  pose (sw0 := start [Examples.srcA; Examples.srcC]).
  pose (sw1 := Sweep [(Examples.srcA, AwaitFetch); (Examples.srcC, AwaitJson)]
                 [Requested 0; Requested 1; Answered 1]).
  apply (steps_step sw0 sw1).
  - apply (steps_step sw0 sw0); [apply steps_refl|].
    exact (step_fetch_ok sw0 1 Examples.srcC eq_refl).
  - exact (step_json_ok sw1 1 Examples.srcC (js "## 1.0.0") eq_refl).
Qed.

Lemma requests_issued_together_witness :
  reachable [Examples.srcA; Examples.srcB; Examples.srcC] Examples.secondFirst
  /\ ~ Spec.sequential (log Examples.secondFirst).
Proof.
  split; [exact secondFirst_reachable|].
  apply (proj2 (requests_issued_together _ _ secondFirst_reachable)).
  cbn. lia.
Defined.

(** C9 as stated fails: in a run over two active sources the request
    of the second is issued while the first is still pending. *)
Lemma sweep_not_sequential :
  ~ (forall sources sw, reachable sources sw -> Spec.sequential (log sw)).
Proof.
  intros H.
  specialize (H [Examples.srcA; Examples.srcC] _ (steps_refl _)).
  destruct (H 0%nat 1%nat eq_refl) as (q & Hq & Hfin).
  assert (q = 0%nat) as -> by lia. discriminate Hfin.
Qed.

End SourcesFacts.

(** ** The expressions of the parser *)

Module PatternFacts.

Import Regex RegexFacts Changelog.

(** Inversion of a derivation, one constructor at a time. *)

Lemma seq_inv i r1 r2 st st' :
  Matches i (Seq r1 r2) st st' ->
  exists st2, Matches i r1 st st2 /\ Matches i r2 st2 st'.
Proof. inversion 1; subst; eauto. Qed.

Lemma rep_inv i p lo hi s cs st' :
  Matches i (Rep p lo hi) (MState s cs) st' ->
  exists w s', s = w ++ s' /\ st' = MState s' cs /\ forallb p w = true
    /\ (lo <= length w)%nat /\ (forall h, hi = Some h -> (length w <= h)%nat).
Proof. inversion 1; subst. eexists _, _. eauto 10. Qed.

Lemma chr_inv i p s cs st' :
  Matches i (Chr p) (MState s cs) st' ->
  exists c s', s = c :: s' /\ st' = MState s' cs /\ p c = true.
Proof. inversion 1; subst. eauto 10. Qed.

Lemma group_inv i n r st st' :
  Matches i (Group n r) st st' ->
  exists st1, Matches i r st st1
    /\ st' = MState (rest st1) ((n, consumed (rest st) (rest st1)) :: caps st1).
Proof. inversion 1; subst; eauto. Qed.

Lemma opt_inv i r st st' :
  Matches i (Opt r) st st' -> Matches i r st st' \/ st' = st.
Proof. inversion 1; subst; eauto. Qed.

Lemma alt_inv i r1 r2 st st' :
  Matches i (Alt r1 r2) st st' -> Matches i r1 st st' \/ Matches i r2 st st'.
Proof. inversion 1; subst; eauto. Qed.

Lemma bol_inv i st st' :
  Matches i Bol st st' -> st' = st /\ length (rest st) = length i.
Proof. inversion 1; subst; eauto. Qed.

Lemma eol_inv i st st' :
  Matches i Eol st st' -> st' = st /\ rest st = [].
Proof. inversion 1; subst; eauto. Qed.

(** The head of a sequence. *)

Lemma seq_rep_inv i p lo hi r s cs st' :
  Matches i (Seq (Rep p lo hi) r) (MState s cs) st' ->
  exists w s', s = w ++ s' /\ forallb p w = true
    /\ (lo <= length w)%nat /\ (forall h, hi = Some h -> (length w <= h)%nat)
    /\ Matches i r (MState s' cs) st'.
Proof.
  intros (st2 & H1 & H2)%seq_inv.
  apply rep_inv in H1 as (w & s' & -> & -> & Hw & Hlo & Hhi). eauto 10.
Qed.

Lemma seq_chr_inv i p r s cs st' :
  Matches i (Seq (Chr p) r) (MState s cs) st' ->
  exists c s', s = c :: s' /\ p c = true /\ Matches i r (MState s' cs) st'.
Proof.
  intros (st2 & H1 & H2)%seq_inv.
  apply chr_inv in H1 as (c & s' & -> & -> & Hc). eauto 10.
Qed.

Lemma consumed_app (w s : jsstring) : consumed (w ++ s) s = w.
Proof.
  unfold consumed. rewrite length_app.
  replace (length w + length s - length s)%nat with (length w) by lia.
  apply take_app_length.
Qed.

Lemma group_head (n : nat) (w s s' : jsstring) (cs : list (nat * jsstring)) :
  group n (MState s' ((n, consumed (w ++ s) s) :: cs)) = Some w.
Proof. unfold group. cbn [caps lookup_group]. now rewrite Nat.eqb_refl, consumed_app. Qed.

Lemma isChar_eq (d c : N) : Chars.isChar d c = true <-> c = d.
Proof. unfold Chars.isChar. apply N.eqb_eq. Qed.

Lemma forallb_isChar (d : N) (w : jsstring) :
  forallb (Chars.isChar d) w = true -> w = replicate (length w) d.
Proof.
  induction w as [|c w IH]; [reflexivity|]. cbn.
  intros [Hc Hw]%andb_true_iff. apply isChar_eq in Hc as ->. now rewrite <- IH.
Qed.

Lemma one_or_two (d : N) (w : jsstring) :
  forallb (Chars.isChar d) w = true -> (1 <= length w)%nat ->
  (forall h, Some 2%nat = Some h -> (length w <= h)%nat) ->
  w = [d] \/ w = [d; d].
Proof.
  intros Hw Hlo Hhi. specialize (Hhi _ eq_refl). apply forallb_isChar in Hw.
  destruct w as [|c1 [|c2 [|c3 w]]]; cbn in *; try lia; injection Hw; intros; subst; auto.
Qed.

Lemma at_most_one (d : N) (w : jsstring) :
  forallb (Chars.isChar d) w = true ->
  (forall h, Some 1%nat = Some h -> (length w <= h)%nat) ->
  w = [] \/ w = [d].
Proof.
  intros Hw Hhi. specialize (Hhi _ eq_refl). apply forallb_isChar in Hw.
  destruct w as [|c1 [|c2 w]]; cbn in *; try lia; auto.
Qed.

Lemma digits_intro (w : jsstring) :
  forallb Chars.isDigit w = true -> (1 <= length w)%nat -> Spec.digits w.
Proof. intros Hw Hlen. split; [|exact Hw]. intros ->. cbn in Hlen. lia. Qed.

Lemma versionTokenRe_inv i s cs st' :
  Matches i versionTokenRe (MState s cs) st' ->
  exists v s', s = v ++ s' /\ st' = MState s' cs /\ Spec.versionToken v.
Proof.
  unfold versionTokenRe.
  intros (major & s1 & -> & Hmajor & Lmajor & _ & H)%seq_rep_inv.
  apply seq_chr_inv in H as (c1 & s2 & -> & ->%isChar_eq & H).
  apply seq_rep_inv in H as (minor & s3 & -> & Hminor & Lminor & _ & H).
  apply seq_chr_inv in H as (c2 & s4 & -> & ->%isChar_eq & H).
  apply seq_rep_inv in H as (patch & s5 & -> & Hpatch & Lpatch & _ & H).
  apply opt_inv in H as [H | ->].
  - apply seq_chr_inv in H as (c3 & s6 & -> & ->%isChar_eq & H).
    apply rep_inv in H as (t & s7 & -> & -> & Ht & Lt & _).
    exists (major ++ [Chars.dot] ++ minor ++ [Chars.dot] ++ patch ++ Chars.hyphen :: t), s7.
    split; [now rewrite <- !app_assoc|]. split; [reflexivity|].
    exists major, minor, patch, (Chars.hyphen :: t).
    repeat split; auto using digits_intro.
    + intros ->; cbn in *; lia.
    + intros ->; cbn in *; lia.
    + intros ->; cbn in *; lia.
    + right. exists t. repeat split; auto. intros ->; cbn in *; lia.
  - exists (major ++ [Chars.dot] ++ minor ++ [Chars.dot] ++ patch), s5.
    split; [now rewrite <- !app_assoc|]. split; [reflexivity|].
    exists major, minor, patch, [].
    rewrite app_nil_r. repeat split; auto.
    + intros ->; cbn in *; lia.
    + intros ->; cbn in *; lia.
    + intros ->; cbn in *; lia.
    + left. reflexivity.
Qed.

Lemma versionRe_inv (line s : jsstring) (res : mstate) :
  Matches line versionRe (MState s []) res ->
  length s = length line /\
  exists hashes ws bracket v rest,
    s = hashes ++ ws ++ bracket ++ v ++ rest
    /\ (hashes = [Chars.hash] \/ hashes = [Chars.hash; Chars.hash])
    /\ ws <> [] /\ forallb Chars.isSpace ws = true
    /\ (bracket = [] \/ bracket = [Chars.lbracket])
    /\ Spec.versionToken v
    /\ group 1 res = Some v.
Proof.
  unfold versionRe, versionTailRe.
  intros (st1 & [-> Hlen]%bol_inv & H)%seq_inv. cbn [rest] in Hlen.
  split; [exact Hlen|].
  apply seq_rep_inv in H as (hashes & s1 & -> & Hhashes & Lhashes & Uhashes & H).
  apply seq_rep_inv in H as (ws & s2 & -> & Hws & Lws & _ & H).
  apply seq_rep_inv in H as (bracket & s3 & -> & Hbr & _ & Ubr & H).
  apply seq_inv in H as (st2 & H & Hclose).
  apply group_inv in H as (st3 & H & ->).
  apply versionTokenRe_inv in H as (v & s4 & -> & -> & Hv).
  cbn [rest caps] in Hclose.
  apply rep_inv in Hclose as (close & s5 & -> & -> & _).
  exists hashes, ws, bracket, v, (close ++ s5).
  split; [reflexivity|]. split; [eauto using one_or_two|].
  split; [intros ->; cbn in *; lia|]. split; [exact Hws|].
  split; [eauto using at_most_one|]. split; [exact Hv|].
  apply group_head.
Qed.

Lemma versionTokenRe_intro i v s cs :
  Spec.versionToken v ->
  Matches i versionTokenRe (MState (v ++ s) cs) (MState s cs).
Proof.
  intros (major & minor & patch & tag & -> & [Nmajor Hmajor] & [Nminor Hminor]
          & [Npatch Hpatch] & Htag).
  assert (Hlen : forall w : jsstring, w <> [] -> (1 <= length w)%nat).
  { intros [|c w] Hw; [congruence | cbn; lia]. }
  unfold versionTokenRe. rewrite <- !app_assoc.
  eapply MSeq; [apply MRep; auto; discriminate|]. cbn [app].
  eapply MSeq; [apply MChr; reflexivity|].
  eapply MSeq; [apply MRep; auto; discriminate|]. cbn [app].
  eapply MSeq; [apply MChr; reflexivity|].
  eapply MSeq; [apply MRep; auto; discriminate|].
  destruct Htag as [-> | (t & -> & Nt & Ht)].
  - apply MOptNone.
  - apply MOptSome. cbn [app].
    eapply MSeq; [apply MChr; reflexivity|].
    apply MRep; auto; discriminate.
Qed.

Lemma versionRe_intro (line : jsstring) :
  Spec.headerShape line -> exists res, Matches line versionRe (MState line []) res.
Proof.
  intros (hashes & ws & bracket & v & rest & -> & Hhashes & Nws & Hws & Hbr & Hv).
  eexists. unfold versionRe, versionTailRe.
  eapply MSeq; [apply MBol; reflexivity|].
  eapply MSeq.
  { apply MRep.
    - destruct Hhashes as [-> | ->]; reflexivity.
    - destruct Hhashes as [-> | ->]; cbn; lia.
    - intros h [= <-]. destruct Hhashes as [-> | ->]; cbn; lia. }
  eapply MSeq.
  { apply MRep; [exact Hws | | discriminate].
    destruct ws; [congruence | cbn; lia]. }
  eapply MSeq.
  { apply MRep.
    - destruct Hbr as [-> | ->]; reflexivity.
    - lia.
    - intros h [= <-]. destruct Hbr as [-> | ->]; cbn; lia. }
  eapply MSeq.
  { apply MGroup, versionTokenRe_intro, Hv. }
  cbn [Regex.rest Regex.caps].
  apply (MRep _ _ 0 (Some 1%nat) [] rest); [reflexivity | cbn; lia | cbn; intros; lia].
Qed.

(** A line is taken for a header exactly when it starts with the
    header shape of the specification. *)
Lemma isHeader_shape (line : jsstring) :
  isHeader line = true <-> Spec.headerShape line.
Proof.
  unfold isHeader, exec. split.
  - destruct (exec_from line versionRe line) as [res|] eqn:Hexec; [|discriminate].
    intros _. apply exec_from_sound in Hexec as (pre & s & Hline & HM & _).
    apply versionRe_inv in HM as (Hlen & hashes & ws & bracket & v & rest & -> & H).
    assert (pre = []) as ->.
    { apply (f_equal length) in Hline. rewrite length_app in Hline.
      destruct pre; [reflexivity | cbn in *; lia]. }
    cbn in Hline. subst line.
    exists hashes, ws, bracket, v, rest. tauto.
  - intros [res HM]%versionRe_intro.
    destruct (exec_from_complete line versionRe [] line res HM) as [m Hm].
    cbn in Hm. now rewrite Hm.
Qed.

(** The version captured on a header is a version token. *)
Lemma versionRe_capture (line : jsstring) (m : mstate) :
  exec versionRe line = Some m ->
  exists v, group 1 m = Some v /\ Spec.versionToken v.
Proof.
  intros (pre & s & Hline & HM & _)%exec_from_sound.
  apply versionRe_inv in HM as (_ & hashes & ws & bracket & v & rest & _ & H).
  exists v. tauto.
Qed.

Lemma versionToken_nonempty (v : jsstring) : Spec.versionToken v -> v <> [].
Proof.
  intros (major & minor & patch & tag & -> & [Nmajor _] & _).
  destruct major; [congruence | discriminate].
Qed.

Lemma capture1_nonempty (line : jsstring) (m : mstate) :
  exec versionRe line = Some m -> capture1 m <> [].
Proof.
  intros (v & Hv & Htok)%versionRe_capture. unfold capture1. rewrite Hv.
  cbn. now apply versionToken_nonempty.
Qed.

(** [versionRe] is anchored: only the start of the line is tried. *)
Lemma versionRe_later (line s : jsstring) :
  (length s < length line)%nat -> exec_from line versionRe s = None.
Proof.
  induction s as [|c s IH]; cbn [exec_from]; intros Hlen.
  - cbn. now destruct (length line).
  - unfold versionRe at 1. cbn [rmatch Regex.rest].
    destruct (Nat.eqb_spec (length (c :: s)) (length line)); [lia|].
    apply IH. cbn in Hlen. lia.
Qed.

Lemma exec_versionRe (line : jsstring) :
  exec versionRe line = rmatch line versionRe Some (MState line []).
Proof.
  unfold exec. destruct line as [|c line]; cbn [exec_from].
  - now destruct (rmatch [] versionRe Some _).
  - destruct (rmatch (c :: line) versionRe Some _); [reflexivity|].
    apply versionRe_later. cbn. lia.
Qed.

Lemma rep_hash_stop hi (l : jsstring) (k : cont) :
  head l <> Some Chars.hash ->
  rep (Chars.isChar Chars.hash) 0 hi k [] l = k (MState l []).
Proof.
  destruct l as [|c l]; cbn; [reflexivity|]. intros Hc. unfold Chars.isChar.
  destruct (N.eqb_spec c Chars.hash) as [->|_]; [congruence | reflexivity].
Qed.

(** One [#] or two: the same match. *)
Lemma exec_versionRe_hashes (l : jsstring) :
  head l <> Some Chars.hash ->
  exec versionRe (Chars.hash :: l) = exec versionRe (Chars.hash :: Chars.hash :: l).
Proof.
  intros Hl. rewrite !exec_versionRe.
  transitivity (rmatch [] versionTailRe Some (MState l [])).
  - unfold versionRe. cbn [rmatch Regex.rest Regex.caps]. rewrite Nat.eqb_refl.
    cbn [rep]. change (Chars.isChar Chars.hash Chars.hash) with true.
    cbn [andb room pred fmap option_fmap option_map].
    rewrite rep_hash_stop by exact Hl.
    rewrite (rmatch_input_irrelevant (Chars.hash :: l) [] versionTailRe eq_refl Some Some)
      by reflexivity.
    now destruct (rmatch [] versionTailRe Some _).
  - unfold versionRe. cbn [rmatch Regex.rest Regex.caps]. rewrite Nat.eqb_refl.
    cbn [rep]. change (Chars.isChar Chars.hash Chars.hash) with true.
    cbn [andb room pred fmap option_fmap option_map].
    rewrite rep_hash_stop by exact Hl.
    rewrite !(rmatch_input_irrelevant (Chars.hash :: Chars.hash :: l) [] versionTailRe
               eq_refl Some Some) by reflexivity.
    assert (Hback : rmatch [] versionTailRe Some (MState (Chars.hash :: l) []) = None)
      by reflexivity.
    rewrite Hback.
    now destruct (rmatch [] versionTailRe Some (MState l [])).
Qed.

Lemma dateOfLine_skip (c : N) (l : jsstring) :
  c <> Chars.lparen -> Chars.isDashClass c = false ->
  dateOfLine (c :: l) = dateOfLine l.
Proof.
  intros Hparen Hdash. unfold dateOfLine.
  rewrite (exec_skip dateInParensRe), (exec_skip dateAfterDashRe); try reflexivity.
  - cbn. now rewrite Hdash.
  - cbn. unfold Chars.isChar.
    destruct (N.eqb_spec c Chars.lparen); [congruence | reflexivity].
Qed.

(** *** The date expressions *)

Lemma exact_two (p : N -> bool) (w : jsstring) :
  forallb p w = true -> (2 <= length w)%nat ->
  (forall h, Some 2%nat = Some h -> (length w <= h)%nat) ->
  exists a b, w = [a; b] /\ p a = true /\ p b = true.
Proof.
  intros Hw Hlo Hhi. specialize (Hhi _ eq_refl).
  destruct w as [|a [|b [|c w]]]; cbn in *; try lia.
  apply andb_true_iff in Hw as [Ha Hb]. apply andb_true_iff in Hb as [Hb _]. eauto.
Qed.

Lemma exact_four (p : N -> bool) (w : jsstring) :
  forallb p w = true -> (4 <= length w)%nat ->
  (forall h, Some 4%nat = Some h -> (length w <= h)%nat) ->
  exists a b c d, w = [a; b; c; d]
    /\ p a = true /\ p b = true /\ p c = true /\ p d = true.
Proof.
  intros Hw Hlo Hhi. specialize (Hhi _ eq_refl).
  destruct w as [|a [|b [|c [|d [|e w]]]]]; cbn in *; try lia.
  repeat (apply andb_true_iff in Hw as [? Hw]). eauto 10.
Qed.

Lemma isoDateRe_inv i s cs st' :
  Matches i isoDateRe (MState s cs) st' ->
  exists d s', s = d ++ s' /\ st' = MState s' cs /\ Spec.isIsoDate d = true.
Proof.
  unfold isoDateRe.
  intros (y & s1 & -> & Hy & Ly & Uy & H)%seq_rep_inv.
  apply seq_chr_inv in H as (h1 & s2 & -> & ->%isChar_eq & H).
  apply seq_rep_inv in H as (m & s3 & -> & Hm & Lm & Um & H).
  apply seq_chr_inv in H as (h2 & s4 & -> & ->%isChar_eq & H).
  apply rep_inv in H as (dd & s5 & -> & -> & Hd & Ld & Ud).
  destruct (exact_four _ _ Hy Ly Uy) as (y1 & y2 & y3 & y4 & -> & Hy1 & Hy2 & Hy3 & Hy4).
  destruct (exact_two _ _ Hm Lm Um) as (m1 & m2 & -> & Hm1 & Hm2).
  destruct (exact_two _ _ Hd Ld Ud) as (d1 & d2 & -> & Hd1 & Hd2).
  exists [y1; y2; y3; y4; Chars.hyphen; m1; m2; Chars.hyphen; d1; d2], s5.
  split; [reflexivity|]. split; [reflexivity|].
  cbn. now rewrite Hy1, Hy2, Hy3, Hy4, Hm1, Hm2, Hd1, Hd2.
Qed.

Lemma isIsoDate_inv (d : jsstring) :
  Spec.isIsoDate d = true ->
  exists y1 y2 y3 y4 m1 m2 d1 d2,
    d = [y1; y2; y3; y4; Chars.hyphen; m1; m2; Chars.hyphen; d1; d2]
    /\ forallb Chars.isDigit [y1; y2; y3; y4; m1; m2; d1; d2] = true.
Proof.
  destruct d as [|y1 [|y2 [|y3 [|y4 [|h1 [|m1 [|m2 [|h2 [|d1 [|d2 [|x d]]]]]]]]]]];
    try discriminate.
  unfold Spec.isIsoDate.
  intros [[Hd ->%N.eqb_eq]%andb_true_iff ->%N.eqb_eq]%andb_true_iff.
  eauto 12.
Qed.

Ltac use_true :=
  repeat match goal with
  | H : ?b = true |- context [?b] => rewrite H
  end;
  reflexivity.

Lemma isoDateRe_intro i d s cs :
  Spec.isIsoDate d = true ->
  Matches i isoDateRe (MState (d ++ s) cs) (MState s cs).
Proof.
  intros (y1 & y2 & y3 & y4 & m1 & m2 & d1 & d2 & -> & Hd)%isIsoDate_inv.
  cbn in Hd. repeat (apply andb_true_iff in Hd as [? Hd]).
  unfold isoDateRe.
  eapply MSeq.
  { apply (MRep _ _ _ _ [y1; y2; y3; y4]); cbn;
      [use_true | lia | intros ? [= <-]; lia]. }
  eapply MSeq; [apply MChr; reflexivity|].
  eapply MSeq.
  { apply (MRep _ _ _ _ [m1; m2]); cbn;
      [use_true | lia | intros ? [= <-]; lia]. }
  eapply MSeq; [apply MChr; reflexivity|].
  apply (MRep _ _ _ _ [d1; d2]); cbn;
    [use_true | lia | intros ? [= <-]; lia].
Qed.

Lemma monthDateRe_inv i s cs st' :
  Matches i monthDateRe (MState s cs) st' ->
  exists d s', s = d ++ s' /\ st' = MState s' cs /\ Spec.monthStyle d.
Proof.
  unfold monthDateRe.
  intros (month & s1 & -> & Hmonth & Lmonth & _ & H)%seq_rep_inv.
  apply seq_rep_inv in H as (ws1 & s2 & -> & Hws1 & Lws1 & _ & H).
  apply seq_rep_inv in H as (day & s3 & -> & Hday & Lday & _ & H).
  apply seq_rep_inv in H as (comma & s4 & -> & Hcomma & _ & Ucomma & H).
  apply seq_rep_inv in H as (ws2 & s5 & -> & Hws2 & _ & _ & H).
  apply rep_inv in H as (year & s6 & -> & -> & Hyear & Lyear & Uyear).
  exists (month ++ ws1 ++ day ++ comma ++ ws2 ++ year), s6.
  split; [now rewrite <- !app_assoc|]. split; [reflexivity|].
  exists month, ws1, day, comma, ws2, year.
  split; [reflexivity|].
  split; [intros ->; cbn in *; lia|]. split; [exact Hmonth|].
  split; [intros ->; cbn in *; lia|]. split; [exact Hws1|].
  split; [now apply digits_intro|].
  split; [eauto using at_most_one|]. split; [exact Hws2|].
  split; [|exact Hyear]. specialize (Uyear _ eq_refl). lia.
Qed.

Lemma monthDateRe_intro i d s cs :
  Spec.monthStyle d ->
  Matches i monthDateRe (MState (d ++ s) cs) (MState s cs).
Proof.
  intros (month & ws1 & day & comma & ws2 & year & -> & Nmonth & Hmonth & Nws1 & Hws1
          & [Nday Hday] & Hcomma & Hws2 & Lyear & Hyear).
  assert (Hlen : forall w : jsstring, w <> [] -> (1 <= length w)%nat).
  { intros [|c w] Hw; [congruence | cbn; lia]. }
  unfold monthDateRe. rewrite <- !app_assoc.
  eapply MSeq; [apply MRep; auto; discriminate|].
  eapply MSeq; [apply MRep; auto; discriminate|].
  eapply MSeq; [apply MRep; auto; discriminate|].
  eapply MSeq.
  { apply MRep; [|lia|].
    - destruct Hcomma as [-> | ->]; reflexivity.
    - intros h [= <-]. destruct Hcomma as [-> | ->]; cbn; lia. }
  eapply MSeq; [apply MRep; [exact Hws2 | lia | discriminate]|].
  apply MRep; [exact Hyear | lia | intros h [= <-]; lia].
Qed.

Lemma isDigit_not_space (c : N) : Chars.isDigit c = true -> Chars.isSpace c = false.
Proof.
  unfold Chars.isDigit, Chars.isSpace.
  intros [H1%N.leb_le H2%N.leb_le]%andb_true_iff.
  repeat match goal with
  | |- context [?a <=? ?b] => destruct (N.leb_spec a b); try lia
  | |- context [?a =? ?b] => destruct (N.eqb_spec a b); try lia
  end;
  reflexivity.
Qed.

Lemma isWord_not_space (c : N) : Chars.isWord c = true -> Chars.isSpace c = false.
Proof.
  unfold Chars.isWord, Chars.isUpper, Chars.isLower, Chars.isDigit, Chars.isSpace.
  rewrite !orb_true_iff, !andb_true_iff, !N.leb_le, N.eqb_eq. intros H.
  repeat match goal with
  | |- context [?a <=? ?b] => destruct (N.leb_spec a b); try lia
  | |- context [?a =? ?b] => destruct (N.eqb_spec a b); try lia
  end;
  reflexivity.
Qed.

Lemma isoDate_trim (d : jsstring) :
  Spec.isIsoDate d = true -> d <> [] /\ Str.trim d = d.
Proof.
  intros (y1 & y2 & y3 & y4 & m1 & m2 & d1 & d2 & -> & Hd)%isIsoDate_inv.
  split; [discriminate|]. cbn in Hd. repeat (apply andb_true_iff in Hd as [? Hd]).
  apply StrFacts.trim_id; cbn; intros c [= <-]; now apply isDigit_not_space.
Qed.

Lemma monthStyle_trim (d : jsstring) :
  Spec.monthStyle d -> d <> [] /\ Str.trim d = d.
Proof.
  intros (month & ws1 & day & comma & ws2 & year & -> & Nmonth & Hmonth & _ & _
          & _ & _ & _ & Lyear & Hyear).
  destruct month as [|c month]; [congruence|]. split; [discriminate|].
  cbn in Hmonth. apply andb_true_iff in Hmonth as [Hc _].
  apply StrFacts.trim_id.
  - cbn. intros c' [= <-]. now apply isWord_not_space.
  - destruct year as [|y1 [|y2 [|y3 [|y4 [|]]]]]; try discriminate.
    rewrite !app_assoc.
    change [y1; y2; y3; y4] with ([y1; y2; y3] ++ [y4]). rewrite app_assoc, last_snoc.
    intros c' [= <-]. cbn in Hyear.
    repeat (apply andb_true_iff in Hyear as [? Hyear]). now apply isDigit_not_space.
Qed.

Lemma dateInParensRe_inv line s res :
  Matches line dateInParensRe (MState s []) res ->
  exists d ws,
    s = Chars.lparen :: d ++ Chars.rparen :: ws
    /\ Spec.isIsoDate d = true /\ Spec.spaces ws /\ group 1 res = Some d.
Proof.
  unfold dateInParensRe.
  intros (c1 & s1 & -> & ->%isChar_eq & H)%seq_chr_inv.
  apply seq_inv in H as (st2 & H & Hrest).
  apply group_inv in H as (st3 & H & ->).
  apply isoDateRe_inv in H as (d & s2 & -> & -> & Hd).
  cbn [rest caps] in Hrest.
  apply seq_chr_inv in Hrest as (c2 & s3 & -> & ->%isChar_eq & H).
  apply seq_rep_inv in H as (ws & s4 & -> & Hws & _ & _ & H).
  apply eol_inv in H as [-> Hend]. cbn in Hend. subst s4.
  exists d, ws. rewrite app_nil_r. repeat split; try assumption.
  apply group_head.
Qed.

Lemma dateInParens_sound (line : jsstring) (m : mstate) :
  exec dateInParensRe line = Some m -> Spec.parenDateAtEnd line (capture1 m).
Proof.
  intros (pre & s & -> & HM & _)%exec_from_sound.
  apply dateInParensRe_inv in HM as (d & ws & -> & Hd & Hws & Hcap).
  unfold capture1. rewrite Hcap. exists pre, ws. auto.
Qed.

Lemma spaces_then_char (ws ws' t t' : jsstring) (x x' : N) :
  Spec.spaces ws -> Spec.spaces ws' ->
  Chars.isSpace x = false -> Chars.isSpace x' = false ->
  ws ++ x :: t = ws' ++ x' :: t' -> ws = ws' /\ t = t'.
Proof.
  unfold Spec.spaces. revert ws'.
  induction ws as [|c ws IH]; intros [|c' ws'] Hws Hws' Hx Hx'; cbn in *.
  - intros [= -> ->]. auto.
  - intros [= <- _]. apply andb_true_iff in Hws' as [Hc _]. congruence.
  - intros [= -> _]. apply andb_true_iff in Hws as [Hc _]. congruence.
  - intros [= -> Heq].
    apply andb_true_iff in Hws as [_ Hws]. apply andb_true_iff in Hws' as [_ Hws'].
    destruct (IH ws' Hws Hws' Hx Hx' Heq) as [-> ->]. auto.
Qed.

Lemma isIsoDate_length (d : jsstring) : Spec.isIsoDate d = true -> length d = 10%nat.
Proof.
  intros (y1 & y2 & y3 & y4 & m1 & m2 & d1 & d2 & -> & _)%isIsoDate_inv. reflexivity.
Qed.

(** At most one date stands in parentheses at the end of a line. *)
Lemma parenDate_unique (line d d' : jsstring) :
  Spec.parenDateAtEnd line d -> Spec.parenDateAtEnd line d' -> d = d'.
Proof.
  intros (before & ws & -> & Hd & Hws) (before' & ws' & Heq & Hd' & Hws').
  apply (f_equal reverse) in Heq. rewrite !reverse_app in Heq. cbn in Heq.
  rewrite <- !app_assoc in Heq. cbn in Heq.
  assert (Hrev : forall w, Spec.spaces w -> Spec.spaces (reverse w)).
  { unfold Spec.spaces. intros w Hw. rewrite forallb_forall in *. intros c Hc.
    apply Hw, list_elem_of_In. apply list_elem_of_In in Hc.
    rewrite elem_of_reverse in Hc. exact Hc. }
  apply spaces_then_char in Heq as [_ Heq]; auto.
  apply app_inj_1 in Heq as [Heq _].
  - apply (f_equal reverse) in Heq. now rewrite !reverse_involutive in Heq.
  - rewrite !length_reverse. now rewrite !isIsoDate_length.
Qed.

Lemma dateInParensRe_intro i d ws :
  Spec.isIsoDate d = true -> Spec.spaces ws ->
  exists res,
    Matches i dateInParensRe (MState ([Chars.lparen] ++ d ++ [Chars.rparen] ++ ws) []) res.
Proof.
  intros Hd Hws. rewrite <- (app_nil_r ws). eexists. unfold dateInParensRe.
  eapply MSeq; [apply MChr; reflexivity|].
  eapply MSeq; [apply MGroup, isoDateRe_intro, Hd|]. cbn [rest caps].
  eapply MSeq; [apply MChr; reflexivity|].
  eapply MSeq.
  { apply (MRep _ _ 0 None ws []); [exact Hws | lia | discriminate]. }
  apply MEol.
Qed.

Lemma dateInParens_complete (line d : jsstring) :
  Spec.parenDateAtEnd line d ->
  exists m, exec dateInParensRe line = Some m /\ capture1 m = d.
Proof.
  intros Hparen. pose proof Hparen as (before & ws & Hline & Hd & Hws).
  destruct (dateInParensRe_intro line d ws Hd Hws) as [res HM].
  destruct (exec_from_complete _ _ before _ _ HM) as [m Hm].
  rewrite <- Hline in Hm.
  exists m. split; [exact Hm|].
  eapply parenDate_unique; [|exact Hparen]. now apply dateInParens_sound.
Qed.

Lemma dateAfterDashRe_inv line s res :
  Matches line dateAfterDashRe (MState s []) res ->
  exists dash ws d after,
    s = dash :: ws ++ d ++ after
    /\ Chars.isDashClass dash = true /\ Spec.spaces ws
    /\ (Spec.isIsoDate d = true \/ Spec.monthStyle d)
    /\ group 1 res = Some d.
Proof.
  unfold dateAfterDashRe.
  intros (dash & s1 & -> & Hdash & H)%seq_chr_inv.
  apply seq_rep_inv in H as (ws & s2 & -> & Hws & _ & _ & H).
  apply group_inv in H as (st3 & H & ->).
  apply alt_inv in H as [H | H].
  - apply isoDateRe_inv in H as (d & s3 & -> & -> & Hd).
    exists dash, ws, d, s3. repeat split; auto.
    apply group_head.
  - apply monthDateRe_inv in H as (d & s3 & -> & -> & Hd).
    exists dash, ws, d, s3. repeat split; auto.
    apply group_head.
Qed.

Lemma dateAfterDash_sound (line : jsstring) (m : mstate) :
  exec dateAfterDashRe line = Some m ->
  Spec.dateAfter Chars.isDashClass line (capture1 m).
Proof.
  intros (pre & s & -> & HM & _)%exec_from_sound.
  apply dateAfterDashRe_inv in HM as (dash & ws & d & after & -> & Hdash & Hws & Hd & Hcap).
  unfold capture1. rewrite Hcap. exists pre, dash, ws, after. auto.
Qed.

Lemma dateAfterDash_complete (line d : jsstring) :
  Spec.dateAfter Chars.isDashClass line d -> is_Some (exec dateAfterDashRe line).
Proof.
  intros (before & dash & ws & after & -> & Hdash & Hws & Hd).
  eapply exec_from_complete. unfold dateAfterDashRe.
  eapply MSeq; [apply MChr; exact Hdash|].
  eapply MSeq.
  { apply (MRep _ _ 0 None ws); [exact Hws | lia | discriminate]. }
  apply MGroup. destruct Hd as [Hd | Hd].
  - apply MAltL, isoDateRe_intro, Hd.
  - apply MAltR, monthDateRe_intro, Hd.
Qed.

Lemma dateAfter_trim isDash (line d : jsstring) :
  Spec.dateAfter isDash line d -> d <> [] /\ Str.trim d = d.
Proof.
  intros (_ & _ & _ & _ & _ & _ & _ & [Hd | Hd]);
    [now apply isoDate_trim | now apply monthStyle_trim].
Qed.

(** *** The rules for the date of a header *)

(** (a) A date in parentheses at the end of the line is the date. *)
Lemma dateOfLine_paren (line d : jsstring) :
  Spec.parenDateAtEnd line d -> dateOfLine line = d.
Proof.
  intros (m & Hm & Hcap)%dateInParens_complete. unfold dateOfLine. now rewrite Hm.
Qed.

(** (b) Otherwise a date that follows a character of the dash class:
    one is found whenever there is one. *)
Lemma dateOfLine_dash (line : jsstring) :
  (forall d, ~ Spec.parenDateAtEnd line d) ->
  (exists d, Spec.dateAfter Chars.isDashClass line d) ->
  dateOfLine line <> [] /\ Spec.dateAfter Chars.isDashClass line (dateOfLine line).
Proof.
  intros Hnoparen [d Hd]. unfold dateOfLine.
  destruct (exec dateInParensRe line) as [m|] eqn:Hparen.
  { apply dateInParens_sound in Hparen. now apply Hnoparen in Hparen. }
  destruct (dateAfterDash_complete line d Hd) as [m Hm]. rewrite Hm.
  apply dateAfterDash_sound in Hm.
  destruct (dateAfter_trim _ _ _ Hm) as [Hne Htrim]. rewrite Htrim. auto.
Qed.

(** Otherwise the line carries no date. *)
Lemma dateOfLine_none (line : jsstring) :
  (forall d, ~ Spec.parenDateAtEnd line d) ->
  (forall d, ~ Spec.dateAfter Chars.isDashClass line d) ->
  dateOfLine line = [].
Proof.
  intros Hnoparen Hnodash. unfold dateOfLine.
  destruct (exec dateInParensRe line) as [m|] eqn:Hparen.
  { apply dateInParens_sound in Hparen. now apply Hnoparen in Hparen. }
  destruct (exec dateAfterDashRe line) as [m|] eqn:Hdash; [|reflexivity].
  apply dateAfterDash_sound in Hdash. now apply Hnodash in Hdash.
Qed.

Lemma orElse_nil (a : jsstring) : orElse a [] = a.
Proof. now destruct a. Qed.

(** The date of the header: the date written on the line when there is
    one, else the entry of [releaseDates] when the map is supplied and
    has one, else the empty string. *)
Lemma headerDate_rules (rd : option (gmap (list N) (list N))) (line v : jsstring) :
  (forall d, Spec.parenDateAtEnd line d -> headerDate rd line v = d)
  /\ ((forall d, ~ Spec.parenDateAtEnd line d) ->
      (exists d, Spec.dateAfter Chars.isDashClass line d) ->
      Spec.dateAfter Chars.isDashClass line (headerDate rd line v))
  /\ ((forall d, ~ Spec.parenDateAtEnd line d) ->
      (forall d, ~ Spec.dateAfter Chars.isDashClass line d) ->
      headerDate rd line v
      = match rd with
        | Some dates => default [] (dates !! v)
        | None => []
        end).
Proof.
  unfold headerDate. split; [|split].
  - intros d Hd. pose proof (dateOfLine_paren line d Hd) as Heq. rewrite Heq.
    destruct Hd as (_ & _ & _ & Hd & _). apply isoDate_trim in Hd as [Hne _].
    now destruct d.
  - intros Hnoparen Hdash.
    destruct (dateOfLine_dash line Hnoparen Hdash) as [Hne Hd].
    now destruct (dateOfLine line).
  - intros Hnoparen Hnodash. rewrite dateOfLine_none by assumption.
    destruct rd; [apply orElse_nil | reflexivity].
Qed.

(** *** The class of the date-after-dash expression

    The expression of the code and the one with the class "hyphen or
    en-dash" differ by their first character class only, so they give
    the same result on every line on which the two classes agree. *)

Lemma exec_from_head_class i (p p' : N -> bool) (r : regex) (s : jsstring) :
  (forall c, c ∈ s -> p c = p' c) ->
  exec_from i (Seq (Chr p) r) s = exec_from i (Seq (Chr p') r) s.
Proof.
  induction s as [|c s IH]; intros Hagree; [reflexivity|].
  cbn [exec_from rmatch rest]. rewrite (Hagree c) by left.
  rewrite IH; [reflexivity|]. intros c' Hc'. apply Hagree. now right.
Qed.

Lemma dashClass_agree (c : N) :
  c <> Chars.endash -> c <> 0xE2 -> c <> 0x20AC -> c <> 0x201C ->
  Chars.isDashClass c = Spec.isDash c.
Proof.
  intros H1 H2 H3 H4. unfold Chars.isDashClass, Spec.isDash.
  repeat match goal with
  | |- context [?a =? ?b] => destruct (N.eqb_spec a b); try congruence
  end;
  reflexivity.
Qed.

Lemma dateOfLine_agree (line : jsstring) :
  (forall c, c ∈ line -> Chars.isDashClass c = Spec.isDash c) ->
  dateOfLine line = Spec.dateOfLine line.
Proof.
  intros Hagree. unfold dateOfLine, Spec.dateOfLine, exec.
  unfold dateAfterDashRe, Spec.dateAfterDashRe.
  now rewrite (exec_from_head_class line _ _ _ line Hagree).
Qed.

(** *** A date after U+2013 *)

Lemma isoDate_no_space (d : jsstring) :
  Spec.isIsoDate d = true -> Forall (fun c => Chars.isSpace c = false) d.
Proof.
  intros (y1 & y2 & y3 & y4 & m1 & m2 & d1 & d2 & -> & Hd)%isIsoDate_inv.
  cbn in Hd. repeat (apply andb_true_iff in Hd as [? Hd]).
  repeat constructor; auto using isDigit_not_space.
Qed.

Lemma isoDate_last (d : jsstring) :
  Spec.isIsoDate d = true -> exists c, last d = Some c /\ Chars.isDigit c = true.
Proof.
  intros (y1 & y2 & y3 & y4 & m1 & m2 & d1 & d2 & -> & Hd)%isIsoDate_inv.
  cbn in Hd. repeat (apply andb_true_iff in Hd as [? Hd]). exists d2. auto.
Qed.

Lemma monthStyle_has_space (d : jsstring) :
  Spec.monthStyle d -> exists c, c ∈ d /\ Chars.isSpace c = true.
Proof.
  intros (month & ws1 & day & comma & ws2 & year & -> & _ & _ & Nws1 & Hws1 & _).
  destruct ws1 as [|c ws1]; [congruence|]. exists c. split.
  - rewrite !elem_of_app. right. left. left.
  - cbn in Hws1. unfold Spec.spaces in Hws1. cbn in Hws1.
    now apply andb_true_iff in Hws1 as [Hc _].
Qed.

(** The first character of a class, in a string whose head part has
    none, lies after that part. *)
Lemma first_of_class (P : N -> bool) (pre l b r : jsstring) (x : N) :
  forallb (fun c => negb (P c)) pre = true -> P x = true ->
  pre ++ l = b ++ x :: r ->
  exists k, l = k ++ x :: r.
Proof.
  revert b. induction pre as [|c pre IH]; intros b Hpre Hx Heq.
  - exists b. exact Heq.
  - cbn in Hpre. apply andb_true_iff in Hpre as [Hc Hpre].
    destruct b as [|c' b]; cbn in Heq; injection Heq as -> Heq.
    + rewrite Hx in Hc. discriminate.
    + now apply (IH b).
Qed.

Lemma space_not_dashClass (c : N) : Chars.isSpace c = true -> Chars.isDashClass c = false.
Proof.
  unfold Chars.isSpace, Chars.isDashClass, Chars.hyphen.
  rewrite !orb_true_iff, !andb_true_iff, !N.leb_le, !N.eqb_eq. intros H.
  repeat match goal with
  | |- context [?a =? ?b] => destruct (N.eqb_spec a b); try lia
  end;
  reflexivity.
Qed.

(** On a line that ends with an ISO date written after U+2013, and has
    no character of the class of the code before it, the specification
    sees a date after a dash and no date in parentheses, and the code
    finds no date. *)
Lemma endash_date_lost (before ws d : jsstring) :
  let line := before ++ [Chars.endash] ++ ws ++ d in
  forallb (fun c => negb (Chars.isDashClass c)) before = true ->
  Spec.spaces ws -> Spec.isIsoDate d = true ->
  Spec.dateAfter Spec.isDash line d
  /\ (forall d', ~ Spec.parenDateAtEnd line d')
  /\ dateOfLine line = [].
Proof.
  intros line Hbefore Hws Hd. subst line.
  assert (Hnoparen : forall d', ~ Spec.parenDateAtEnd
                                   (before ++ [Chars.endash] ++ ws ++ d) d').
  { intros d' (b' & ws' & Heq & _ & Hws').
    destruct (isoDate_last d Hd) as (c & Hlast & Hc).
    apply (f_equal last) in Heq. rewrite !last_app, Hlast in Heq.
    destruct (last ws') as [c'|] eqn:Hlast'.
    - injection Heq as ->. apply last_Some in Hlast' as (ws0 & ->).
      unfold Spec.spaces in Hws'. rewrite forallb_app in Hws'. cbn in Hws'.
      apply andb_true_iff in Hws' as [_ Hc'].
      rewrite (isDigit_not_space _ Hc) in Hc'. discriminate.
    - cbn in Heq. injection Heq as ->. discriminate. }
  split; [|split; [exact Hnoparen|]].
  - exists before, Chars.endash, ws, []. rewrite app_nil_r. auto.
  - apply dateOfLine_none; [exact Hnoparen|].
    intros d' (b' & dash & ws' & after' & Heq & Hdash & Hws' & Hd').
    assert (Hpre : forallb (fun c => negb (Chars.isDashClass c))
                     (before ++ [Chars.endash] ++ ws) = true).
    { rewrite !forallb_app, Hbefore. cbn. apply forallb_forall.
      intros c Hc. unfold Spec.spaces in Hws. rewrite forallb_forall in Hws.
      now rewrite (space_not_dashClass c (Hws c Hc)). }
    rewrite !app_assoc in Heq. rewrite <- (app_assoc before) in Heq.
    rewrite <- !app_assoc in Heq. rewrite !app_assoc in Heq.
    rewrite <- (app_assoc _ ws' d'), <- (app_assoc _ (ws' ++ d') after') in Heq.
    rewrite <- (app_assoc b' [dash]) in Heq.
    rewrite <- (app_assoc before [Chars.endash] ws) in Heq.
    apply (first_of_class _ _ _ _ _ _ Hpre Hdash) in Heq as (k & Heq).
    pose proof (isoDate_no_space d Hd) as Hnospace.
    pose proof (isIsoDate_length d Hd) as Hlen.
    rewrite Heq in Hnospace, Hlen.
    destruct Hd' as [Hiso | Hmonth].
    + apply isIsoDate_length in Hiso. rewrite !length_app in Hlen. cbn in Hlen.
      rewrite !length_app in Hlen. lia.
    + destruct (monthStyle_has_space d' Hmonth) as (c & Hc & Hspace).
      rewrite Forall_forall in Hnospace. rewrite (Hnospace c) in Hspace; [discriminate|].
      rewrite !elem_of_app, elem_of_cons, !elem_of_app. auto 10.
Qed.

End PatternFacts.

(** ** The parser *)

Module ParserFacts.

Import Regex Changelog.

Section WithParameters.

Variable toLowerCase : jsstring -> jsstring.
Variable sid sname : option jsstring.
Variable rd : option (gmap (list N) (list N)).

Local Abbreviation step := (parseLine toLowerCase sid sname rd).
Local Abbreviation parse := (parseLines toLowerCase sid sname rd).
Local Abbreviation item := (mkItem toLowerCase).

(** The record opened by a header line. *)
Local Abbreviation opened line :=
  (Build_ChangelogVersion (versionOf line) (headerDate rd line (versionOf line))
     [] sid sname).

Lemma isHeader_false (line : jsstring) :
  isHeader line = false -> exec versionRe line = None.
Proof. unfold isHeader. now destruct (exec versionRe line). Qed.

Lemma step_header (st : pstate) (line : jsstring) :
  isHeader line = true ->
  step st line = PState (pushCurrent st) (Some (opened line)).
Proof.
  unfold isHeader, parseLine, versionOf, openVersion.
  now destruct (exec versionRe line).
Qed.

Lemma step_closed (vs : list ChangelogVersion) (line : jsstring) :
  isHeader line = false -> step (PState vs None) line = PState vs None.
Proof. intros H%isHeader_false. unfold parseLine. now rewrite H. Qed.

Lemma step_open (vs : list ChangelogVersion) (cv : ChangelogVersion) (line : jsstring) :
  isHeader line = false ->
  step (PState vs (Some cv)) line
  = PState vs (Some (if isBullet line then pushItem cv (item line) else cv)).
Proof.
  intros H%isHeader_false. unfold parseLine. rewrite H. cbn.
  now destruct (isBullet line).
Qed.

Lemma withItems_id (cv : ChangelogVersion) : withItems cv (items cv) = cv.
Proof. now destruct cv. Qed.

(** Below an open version, up to the next header, the bullets are
    appended in the order met and every other line is skipped. *)
Lemma fold_body_open (body : list jsstring) : forall vs cv,
  Forall (fun l => isHeader l = false) body ->
  foldl step (PState vs (Some cv)) body
  = PState vs (Some (withItems cv (items cv ++ map item (List.filter isBullet body)))).
Proof.
  induction body as [|l body IH]; intros vs cv Hbody.
  - cbn. now rewrite app_nil_r, withItems_id.
  - apply Forall_cons in Hbody as [Hl Hbody].
    cbn [foldl List.filter]. rewrite step_open by exact Hl.
    rewrite IH by exact Hbody. destruct (isBullet l); [|reflexivity].
    unfold withItems, pushItem. cbn. now rewrite <- app_assoc.
Qed.

(** With no version open, lines that are not headers change nothing. *)
Lemma fold_body_closed (body : list jsstring) : forall vs,
  Forall (fun l => isHeader l = false) body ->
  foldl step (PState vs None) body = PState vs None.
Proof.
  induction body as [|l body IH]; intros vs Hbody; [reflexivity|].
  apply Forall_cons in Hbody as [Hl Hbody].
  cbn [foldl]. rewrite step_closed by exact Hl. now apply IH.
Qed.

(** The versions already closed are a prefix of the result. *)
Lemma fold_frame (ls : list jsstring) : forall vs cur,
  pushCurrent (foldl step (PState vs cur) ls)
  = vs ++ pushCurrent (foldl step (PState [] cur) ls).
Proof.
  induction ls as [|l ls IH]; intros vs cur.
  - unfold pushCurrent. cbn. destruct cur; [reflexivity | now rewrite app_nil_r].
  - cbn [foldl]. unfold parseLine at 2 4. destruct (exec versionRe l) as [m|].
    + rewrite IH, (IH (pushCurrent (PState [] cur))).
      unfold pushCurrent at 2 4. cbn. destruct cur; cbn; now rewrite <- ?app_assoc, ?app_nil_r.
    + cbn. destruct cur as [cv|]; [|apply IH].
      destruct (isBullet l); apply IH.
Qed.

Lemma parse_header (h : jsstring) (rest : list jsstring) :
  isHeader h = true ->
  parse (h :: rest) = pushCurrent (foldl step (PState [] (Some (opened h))) rest).
Proof.
  intros Hh. unfold parseLines. cbn [foldl]. now rewrite step_header.
Qed.

(** A header closes whatever precedes it. *)
Lemma parse_app_header (pre : list jsstring) (h : jsstring) (rest : list jsstring) :
  isHeader h = true ->
  parse (pre ++ h :: rest) = parse pre ++ parse (h :: rest).
Proof.
  intros Hh. unfold parseLines at 1. rewrite foldl_app. cbn [foldl].
  rewrite step_header by exact Hh. rewrite fold_frame.
  now rewrite parse_header.
Qed.

Lemma parse_no_header (body : list jsstring) :
  Forall (fun l => isHeader l = false) body -> parse body = [].
Proof. intros H. unfold parseLines. now rewrite fold_body_closed. Qed.

(** The lines before the first header leave no trace. *)
Lemma parse_skip (body post : list jsstring) :
  Forall (fun l => isHeader l = false) body ->
  parse (body ++ post) = parse post.
Proof.
  intros H. unfold parseLines. now rewrite foldl_app, fold_body_closed.
Qed.

(** A header, the lines below it, and the rest of the document from
    the next header on. *)
Lemma parse_section (h : jsstring) (body post : list jsstring) :
  isHeader h = true ->
  Forall (fun l => isHeader l = false) body ->
  (forall l, head post = Some l -> isHeader l = true) ->
  parse (h :: body ++ post)
  = withItems (opened h) (map item (List.filter isBullet body)) :: parse post.
Proof.
  intros Hh Hbody Hpost. rewrite parse_header by exact Hh.
  rewrite foldl_app, fold_body_open by exact Hbody. cbn [items app].
  destruct post as [|h' post].
  - reflexivity.
  - rewrite fold_frame. cbn [foldl]. rewrite step_header by now apply Hpost.
    cbn [pushCurrent currentVersion versions]. rewrite fold_frame.
    rewrite (parse_header h') by now apply Hpost. reflexivity.
Qed.

Lemma pushCurrent_open (vs : list ChangelogVersion) (cv : ChangelogVersion) :
  pushCurrent (PState vs (Some cv)) = vs ++ [cv].
Proof. reflexivity. Qed.

(** One record per header line, in the order of the lines. *)
Lemma fold_summary (ls : list jsstring) : forall st,
  map summary (pushCurrent (foldl step st ls))
  = map summary (pushCurrent st) ++ map (headerSummary sid sname rd) (List.filter isHeader ls).
Proof.
  induction ls as [|l ls IH]; intros st.
  - cbn. now rewrite app_nil_r.
  - cbn [foldl List.filter]. rewrite IH. destruct (isHeader l) eqn:Hl.
    + rewrite step_header by exact Hl. rewrite pushCurrent_open, map_app.
      cbn [map]. now rewrite <- app_assoc.
    + f_equal. destruct st as [vs [cv|]].
      * rewrite step_open by exact Hl. rewrite !pushCurrent_open, !map_app.
        now destruct (isBullet l).
      * now rewrite step_closed.
Qed.

Lemma parse_summary (ls : list jsstring) :
  map summary (parse ls) = map (headerSummary sid sname rd) (List.filter isHeader ls).
Proof. unfold parseLines. now rewrite fold_summary. Qed.

(** One [#] or two: the same step of the loop. *)
Lemma step_hashes (st : pstate) (l : jsstring) :
  head l <> Some Chars.hash ->
  step st (Chars.hash :: l) = step st (Chars.hash :: Chars.hash :: l).
Proof.
  intros Hl. unfold parseLine.
  rewrite <- (PatternFacts.exec_versionRe_hashes l Hl).
  destruct (exec versionRe (Chars.hash :: l)) as [m|]; [|reflexivity].
  unfold openVersion, headerDate.
  now rewrite !PatternFacts.dateOfLine_skip.
Qed.

Lemma parse_hashes (ls1 ls2 : list jsstring) (l : jsstring) :
  head l <> Some Chars.hash ->
  parse (ls1 ++ (Chars.hash :: l) :: ls2)
  = parse (ls1 ++ (Chars.hash :: Chars.hash :: l) :: ls2).
Proof.
  intros Hl. unfold parseLines. rewrite !foldl_app. cbn [foldl].
  now rewrite step_hashes.
Qed.

(** C1.  [parseChangelog] returns exactly one record per line that
    matches the version-header pattern, in the order of the lines,
    with the version and date of that line; a document without such a
    line gives the empty list; and writing a header with two [#]
    instead of one changes nothing in the result. *)
Theorem parseChangelog_one_per_header (markdown : jsstring) :
  let headers := List.filter isHeader (Str.split_lines markdown) in
  let result := parseChangelog toLowerCase sid sname rd markdown in
  length result = length headers
  /\ map summary result = map (headerSummary sid sname rd) headers
  /\ (headers = [] -> result = [])
  /\ (forall ls1 l ls2,
        Forall newlineFree (ls1 ++ l :: ls2) ->
        head l <> Some Chars.hash ->
        parseChangelog toLowerCase sid sname rd
          (Str.join_lines (ls1 ++ (Chars.hash :: l) :: ls2))
        = parseChangelog toLowerCase sid sname rd
            (Str.join_lines (ls1 ++ (Chars.hash :: Chars.hash :: l) :: ls2))).
Proof.
  cbv zeta. unfold parseChangelog.
  pose proof (parse_summary (Str.split_lines markdown)) as Hsum.
  split; [|split; [exact Hsum|split]].
  - apply (f_equal length) in Hsum. now rewrite !length_map in Hsum.
  - intros Hnone. rewrite Hnone in Hsum. cbn in Hsum.
    now destruct (parse (Str.split_lines markdown)).
  - intros ls1 l ls2 Hfree Hl.
    apply Forall_app in Hfree as [H1 H2]. apply Forall_cons in H2 as [Hline H2].
    rewrite !StrFacts.split_join.
    + now apply parse_hashes.
    + now destruct ls1.
    + apply Forall_app. split; [exact H1|]. constructor; [exact Hline | exact H2].
    + now destruct ls1.
    + apply Forall_app. split; [exact H1|]. constructor; [exact Hline | exact H2].
Qed.

Lemma isBullet_spec (line : jsstring) :
  isBullet line = true <->
  exists r, line = js "- " ++ r \/ line = js "* " ++ r.
Proof.
  unfold isBullet. rewrite orb_true_iff, !StrFacts.startsWith_spec.
  split; [intros [[r Hr] | [r Hr]] | intros [r [Hr | Hr]]]; eauto.
Qed.

(** C6.  Between a header and the next one, the items of the version
    are exactly the lines that begin with "- " or "* ", in the order
    met; the content of an item is its line without the two-character
    marker, trimmed, and its kind is [categorizeItem] of that content;
    the other lines leave no trace. *)
Theorem parseChangelog_items (markdown : jsstring)
    (pre : list jsstring) (h : jsstring) (body post : list jsstring) :
  Str.split_lines markdown = pre ++ h :: body ++ post ->
  isHeader h = true ->
  Forall (fun l => isHeader l = false) body ->
  (forall l, head post = Some l -> isHeader l = true) ->
  parseChangelog toLowerCase sid sname rd markdown
  = parse pre
    ++ [ {| version := versionOf h;
            date := headerDate rd h (versionOf h);
            items :=
              map (fun line =>
                     let content := Str.trim (drop 2 line) in
                     {| type := categorizeItem toLowerCase content;
                        content := content |})
                (List.filter
                   (fun line => Str.startsWith line (js "- ")
                                || Str.startsWith line (js "* "))
                   body);
            sourceId := sid;
            sourceName := sname |} ]
    ++ parse post.
Proof.
  intros Hsplit Hh Hbody Hpost. unfold parseChangelog. rewrite Hsplit.
  rewrite parse_app_header by exact Hh. now rewrite parse_section.
Qed.

(** C3, amended.  A line is a version header exactly when it starts
    with one or two [#], whitespace, an optional [[] and a
    MAJOR.MINOR.PATCH token with an optional pre-release tag (a
    closing []] is not required); "## Unreleased" is not one; the
    bullets below a line that is not a version header are dropped when
    no version is open, and belong to the open version otherwise. *)
Theorem header_lines_and_orphan_bullets :
  (forall line, isHeader line = true <-> Spec.headerShape line)
  /\ isHeader (js "## Unreleased") = false
  /\ isHeader (js "## 1.2") = false
  /\ isHeader (js "### 1.2.3") = false
  /\ isHeader (js "## [1.2.3-rc.1] - 2024-01-12") = true
  /\ isHeader (js "## [1.2.3") = true
  /\ (forall markdown body post,
        Str.split_lines markdown = body ++ post ->
        Forall (fun l => isHeader l = false) body ->
        parseChangelog toLowerCase sid sname rd markdown = parse post)
  /\ (forall markdown pre h body post,
        Str.split_lines markdown = pre ++ h :: body ++ post ->
        isHeader h = true ->
        Forall (fun l => isHeader l = false) body ->
        (forall l, head post = Some l -> isHeader l = true) ->
        parseChangelog toLowerCase sid sname rd markdown
        = parse pre
          ++ [withItems (opened h) (map item (List.filter isBullet body))]
          ++ parse post).
Proof.
  split; [exact PatternFacts.isHeader_shape|].
  do 5 (split; [reflexivity|]).
  split.
  - intros markdown body post Hsplit Hbody. unfold parseChangelog.
    rewrite Hsplit. now apply parse_skip.
  - intros markdown pre h body post Hsplit Hh Hbody Hpost. unfold parseChangelog.
    rewrite Hsplit, parse_app_header by exact Hh. now rewrite parse_section.
Qed.

Lemma parse_version_nonempty (ls : list jsstring) (v : ChangelogVersion) :
  v ∈ parse ls -> version v <> [].
Proof.
  intros Hv. apply (list_elem_of_fmap_2 summary) in Hv.
  change (map summary (parse ls)) with (summary <$> parse ls) in *.
  rewrite parse_summary in Hv.
  apply list_elem_of_fmap in Hv as (h & Heq & Hh).
  apply list_elem_of_In, filter_In in Hh as [_ Hh].
  injection Heq as -> _ _ _.
  unfold versionOf, isHeader in *.
  destruct (exec versionRe h) as [m|] eqn:Hm; [|discriminate].
  eapply PatternFacts.capture1_nonempty, Hm.
Qed.

End WithParameters.

(** C10.  On a list of parsed versions [getLatestVersion] is the
    version string of the first element, whatever the versions that
    follow, and the string "Unknown" on the empty list. *)
Theorem getLatestVersion_first (versions : list ChangelogVersion) :
  (forall v, v ∈ versions ->
     exists toLowerCase sid sname rd markdown,
       v ∈ parseChangelog toLowerCase sid sname rd markdown) ->
  getLatestVersion versions
  = match versions with
    | v :: _ => version v
    | [] => js "Unknown"
    end.
Proof.
  destruct versions as [|v vs]; [reflexivity|]. intros Hparsed.
  destruct (Hparsed v) as (toLowerCase & sid & sname & rd & markdown & Hv); [left|].
  apply parse_version_nonempty in Hv. cbn. now destruct (version v).
Qed.

Lemma parseChangelog_one_per_header_witness :
  Examples.parse (Str.join_lines [js "intro"; js "# [2.3.0](url) (2026-01-05)"; js "- Added x"])
  = Examples.parse (Str.join_lines [js "intro"; js "## [2.3.0](url) (2026-01-05)"; js "- Added x"]).
Proof.
  apply (proj2 (proj2 (proj2 (parseChangelog_one_per_header Examples.lower None None None [])))
           [js "intro"] (js " [2.3.0](url) (2026-01-05)") [js "- Added x"]).
  - repeat constructor.
  - discriminate.
Defined.

Lemma parseChangelog_items_witness :
  Examples.parse
    (Str.join_lines
       [js "preamble"; js "## 1.0.50 - 2024-01-12"; js "- Fixed a crash";
        js "  continued on the next line"; js "* Added  a flag  "; js "## 1.0.49"])
  = [ {| version := js "1.0.50"; date := js "2024-01-12";
         items := [ {| type := Fix; content := js "Fixed a crash" |};
                    {| type := Feature; content := js "Added  a flag" |} ];
         sourceId := None; sourceName := None |};
      {| version := js "1.0.49"; date := []; items := [];
         sourceId := None; sourceName := None |} ].
Proof.
  unfold Examples.parse.
  rewrite (parseChangelog_items Examples.lower None None None _
             [js "preamble"] (js "## 1.0.50 - 2024-01-12")
             [js "- Fixed a crash"; js "  continued on the next line"; js "* Added  a flag  "]
             [js "## 1.0.49"]).
  - reflexivity.
  - reflexivity.
  - reflexivity.
  - repeat constructor.
  - intros l [= <-]. reflexivity.
Defined.

Lemma header_lines_and_orphan_bullets_witness :
  Examples.parse
    (Str.join_lines [js "## Unreleased"; js "- orphan"; js "## 1.0.0"; js "- kept"])
  = Examples.parseLines [js "## 1.0.0"; js "- kept"].
Proof.
  apply (proj1 (proj2 (proj2 (proj2 (proj2 (proj2 (proj2
           (header_lines_and_orphan_bullets Examples.lower None None None))))))) _
           [js "## Unreleased"; js "- orphan"] [js "## 1.0.0"; js "- kept"]).
  - reflexivity.
  - repeat constructor.
Defined.

(** C3 as stated fails: a bullet below a line that is not a version
    header is kept, in the version that is open. *)
Lemma orphan_bullets_not_always_dropped :
  ~ (forall toLowerCase sid sname rd pre u b post,
       isHeader u = false -> head u = Some Chars.hash -> isBullet b = true ->
       parseChangelog toLowerCase sid sname rd (Str.join_lines (pre ++ u :: b :: post))
       = parseChangelog toLowerCase sid sname rd (Str.join_lines (pre ++ u :: post))).
Proof.
  intros H.
  specialize (H Examples.lower None None None
                [js "## 1.0.0"] (js "## Unreleased") (js "- orphan") []
                eq_refl eq_refl eq_refl).
  vm_compute in H. discriminate H.
Qed.

Lemma getLatestVersion_first_witness :
  getLatestVersion (Examples.parse (Str.join_lines [js "## 1.0.9"; js "## 2.0.0"]))
  = js "1.0.9".
Proof.
  rewrite getLatestVersion_first.
  - reflexivity.
  - intros v Hv. exists Examples.lower, None, None, None. eexists. exact Hv.
Defined.

(** C5.  The date that follows U+2013 on a header is not extracted.
    On "## 1.0.50 –2024-01-12" the line is a header, an ISO date
    stands right after U+2013 and none stands in parentheses, yet the
    record has the empty date; with the class "hyphen or en-dash" the
    date would be found, and with a hyphen in the place of U+2013 the
    code finds it.  The same holds on every line that ends with an ISO
    date after U+2013 and has no character of the class of the code
    before it. *)
Theorem endash_date_not_extracted (toLowerCase : jsstring -> jsstring)
    (sid sname : option jsstring) :
  isHeader Examples.enDashHeaderTight = true
  /\ Spec.dateAfter Spec.isDash Examples.enDashHeaderTight (js "2024-01-12")
  /\ (forall d, ~ Spec.parenDateAtEnd Examples.enDashHeaderTight d)
  /\ parseChangelog toLowerCase sid sname None Examples.enDashHeaderTight
     = [ {| version := js "1.0.50"; date := []; items := [];
            sourceId := sid; sourceName := sname |} ]
  /\ Spec.dateOfLine Examples.enDashHeaderTight = js "2024-01-12"
  /\ parseChangelog toLowerCase sid sname None (js "## 1.0.50 -2024-01-12")
     = [ {| version := js "1.0.50"; date := js "2024-01-12"; items := [];
            sourceId := sid; sourceName := sname |} ]
  /\ (forall before ws d,
        forallb (fun c => negb (Chars.isDashClass c)) before = true ->
        Spec.spaces ws -> Spec.isIsoDate d = true ->
        Spec.dateAfter Spec.isDash (before ++ [Chars.endash] ++ ws ++ d) d
        /\ dateOfLine (before ++ [Chars.endash] ++ ws ++ d) = []).
Proof.
  destruct (PatternFacts.endash_date_lost (js "## 1.0.50 ") [] (js "2024-01-12"))
    as (Hspec & Hnoparen & _); try reflexivity.
  split; [reflexivity|]. split; [exact Hspec|]. split; [exact Hnoparen|].
  split; [reflexivity|]. split; [reflexivity|]. split; [reflexivity|].
  intros before ws d Hbefore Hws Hd.
  destruct (PatternFacts.endash_date_lost before ws d Hbefore Hws Hd) as (H1 & _ & H2).
  auto.
Qed.

(** C4.  The date of a header follows the order of the rules: (a) a
    date in parentheses at the end of the line, else (b) a date after
    a character of the dash class, else (c) the entry of
    [releaseDates], else the empty string; the three examples hold.
    The dash class of the code is not "hyphen or en-dash": the two
    readings agree on the lines without U+2013, U+00E2, U+20AC and
    U+201C, and on "## 1.0.50 – 2024-01-12" rule (b) of the
    specification applies while the code gives the empty date. *)
Theorem headerDate_examples (toLowerCase : jsstring -> jsstring)
    (sid sname : option jsstring) (rd : gmap (list N) (list N)) :
  headerDate None (js "## 1.0.50 - 2024-01-12") (js "1.0.50") = js "2024-01-12"
  /\ headerDate None (js "# [2.3.0](url) (2026-01-05)") (js "2.3.0") = js "2026-01-05"
  /\ headerDate None (js "## 1.0.50") (js "1.0.50") = []
  /\ headerDate (Some rd) (js "## 1.0.50") (js "1.0.50")
     = default [] (rd !! js "1.0.50")
  /\ headerDate (Some rd) (js "## 1.0.50 - 2024-01-12 (2023-12-31)") (js "1.0.50")
     = js "2023-12-31"
  /\ (forall dates line v,
        (forall d, Spec.parenDateAtEnd line d -> headerDate dates line v = d)
        /\ ((forall d, ~ Spec.parenDateAtEnd line d) ->
            (exists d, Spec.dateAfter Chars.isDashClass line d) ->
            Spec.dateAfter Chars.isDashClass line (headerDate dates line v))
        /\ ((forall d, ~ Spec.parenDateAtEnd line d) ->
            (forall d, ~ Spec.dateAfter Chars.isDashClass line d) ->
            headerDate dates line v
            = match dates with
              | Some m => default [] (m !! v)
              | None => []
              end))
  /\ (forall line,
        (forall c, c ∈ line ->
           c <> Chars.endash /\ c <> 0xE2 /\ c <> 0x20AC /\ c <> 0x201C) ->
        dateOfLine line = Spec.dateOfLine line)
  /\ Spec.dateAfter Spec.isDash Examples.enDashHeader (js "2024-01-12")
  /\ (forall d, ~ Spec.parenDateAtEnd Examples.enDashHeader d)
  /\ Spec.dateOfLine Examples.enDashHeader = js "2024-01-12"
  /\ headerDate None Examples.enDashHeader (js "1.0.50") = []
  /\ parseChangelog toLowerCase sid sname None Examples.enDashHeader
     = [ {| version := js "1.0.50"; date := []; items := [];
            sourceId := sid; sourceName := sname |} ].
Proof.
  destruct (PatternFacts.endash_date_lost (js "## 1.0.50 ") (js " ") (js "2024-01-12"))
    as (Hspec & Hnoparen & _); try reflexivity.
  repeat match goal with |- _ /\ _ => split end; try reflexivity.
  - unfold headerDate.
    replace (dateOfLine (js "## 1.0.50")) with (@nil N) by reflexivity.
    apply PatternFacts.orElse_nil.
  - intros dates line v. apply PatternFacts.headerDate_rules.
  - intros line Hline. apply PatternFacts.dateOfLine_agree.
    intros c Hc. destruct (Hline c Hc) as (H1 & H2 & H3 & H4).
    now apply PatternFacts.dashClass_agree.
  - exact Hspec.
  - exact Hnoparen.
Qed.

End ParserFacts.

(** ** Further properties of the parser *)

Module ParserLaws.

Import Regex Changelog Laws.

Section WithParameters.

Variable toLowerCase : jsstring -> jsstring.
Variable sid sname : option jsstring.
Variable rd : option (gmap (list N) (list N)).

Local Abbreviation step := (parseLine toLowerCase sid sname rd).
Local Abbreviation parse := (parseLines toLowerCase sid sname rd).
Local Abbreviation item := (mkItem toLowerCase).
Local Abbreviation opened line :=
  (Build_ChangelogVersion (versionOf line) (headerDate rd line (versionOf line))
     [] sid sname).

Lemma header_not_bullet (line : jsstring) :
  isHeader line = true -> isBullet line = false.
Proof.
  intros (hashes & ws & bracket & v & rest & -> & Hhashes & _)%PatternFacts.isHeader_shape.
  destruct Hhashes as [-> | ->]; reflexivity.
Qed.

(** A line that is neither a header nor a bullet changes nothing. *)
Lemma step_other (st : pstate) (line : jsstring) :
  isHeader line = false -> isBullet line = false -> step st line = st.
Proof.
  intros Hh Hb. destruct st as [vs [cv|]].
  - rewrite ParserFacts.step_open by exact Hh. now rewrite Hb.
  - now apply ParserFacts.step_closed.
Qed.

Lemma allItems_app (vs1 vs2 : list ChangelogVersion) :
  allItems (vs1 ++ vs2) = allItems vs1 ++ allItems vs2.
Proof. unfold allItems. now rewrite fmap_app, join_app. Qed.

Lemma allItems_one (v : ChangelogVersion) : allItems [v] = items v.
Proof. unfold allItems. cbn. apply app_nil_r. Qed.

Lemma fold_items (ls : list jsstring) : forall vs cv,
  allItems (pushCurrent (foldl step (PState vs (Some cv)) ls))
  = allItems (vs ++ [cv]) ++ map item (List.filter isBullet ls).
Proof.
  induction ls as [|l ls IH]; intros vs cv.
  - cbn. now rewrite app_nil_r.
  - cbn [foldl List.filter]. destruct (isHeader l) eqn:Hl.
    + rewrite ParserFacts.step_header by exact Hl. rewrite (header_not_bullet l Hl).
      cbn [pushCurrent currentVersion versions]. rewrite IH.
      rewrite (allItems_app (vs ++ [cv])), allItems_one. cbn [items].
      now rewrite app_nil_r.
    + rewrite ParserFacts.step_open by exact Hl. rewrite IH.
      destruct (isBullet l); [|reflexivity].
      rewrite !allItems_app, !allItems_one. cbn [pushItem items map].
      now rewrite <- !app_assoc.
Qed.

Lemma parse_allItems (lines : list jsstring) :
  allItems (parse lines) = map item (List.filter isBullet (fromFirstHeader lines)).
Proof.
  induction lines as [|l ls IH]; [reflexivity|].
  cbn [fromFirstHeader]. destruct (isHeader l) eqn:Hl.
  - rewrite ParserFacts.parse_header by exact Hl. rewrite fold_items.
    cbn [List.filter]. rewrite (header_not_bullet l Hl).
    cbn [app]. now rewrite allItems_one.
  - rewrite <- IH. unfold parseLines. cbn [foldl].
    now rewrite ParserFacts.step_closed.
Qed.

Lemma fromFirstHeader_incl (lines : list jsstring) (l : jsstring) :
  l ∈ fromFirstHeader lines -> l ∈ lines.
Proof.
  induction lines as [|l0 ls IH]; cbn; [easy|].
  destruct (isHeader l0); [easy|]. intros H. right. now apply IH.
Qed.

(** Where a record and an item come from. *)
Lemma parse_version_origin (lines : list jsstring) (v : ChangelogVersion) :
  v ∈ parse lines ->
  exists h, h ∈ lines /\ isHeader h = true
    /\ summary v = headerSummary sid sname rd h.
Proof.
  intros Hv. apply (list_elem_of_fmap_2 summary) in Hv.
  change (summary <$> parse lines) with (map summary (parse lines)) in Hv.
  rewrite ParserFacts.parse_summary in Hv.
  apply list_elem_of_fmap in Hv as (h & Heq & Hh).
  apply list_elem_of_In, filter_In in Hh as [Hin Hh].
  apply list_elem_of_In in Hin. eauto.
Qed.

Lemma parse_item_origin (lines : list jsstring) (v : ChangelogVersion) (i : ChangelogItem) :
  v ∈ parse lines -> i ∈ items v ->
  exists line, line ∈ lines /\ isBullet line = true /\ i = item line.
Proof.
  intros Hv Hi.
  assert (Hall : i ∈ allItems (parse lines)).
  { unfold allItems. apply list_elem_of_join. exists (items v). split; [exact Hi|].
    now apply list_elem_of_fmap_2. }
  rewrite parse_allItems in Hall.
  apply list_elem_of_fmap in Hall as (line & -> & Hline).
  apply list_elem_of_In, filter_In in Hline as [Hin Hb].
  apply list_elem_of_In, fromFirstHeader_incl in Hin. eauto.
Qed.

Lemma dateOfLine_shape (line : jsstring) :
  dateOfLine line = []
  \/ Spec.parenDateAtEnd line (dateOfLine line)
  \/ Spec.dateAfter Chars.isDashClass line (dateOfLine line).
Proof.
  unfold dateOfLine.
  destruct (exec dateInParensRe line) as [m|] eqn:Hparen.
  { right. left. now apply PatternFacts.dateInParens_sound. }
  destruct (exec dateAfterDashRe line) as [m|] eqn:Hdash; [|now left].
  right. right. apply PatternFacts.dateAfterDash_sound in Hdash.
  destruct (PatternFacts.dateAfter_trim _ _ _ Hdash) as [_ Htrim]. now rewrite Htrim.
Qed.

Lemma versionOf_token (h : jsstring) :
  isHeader h = true -> Spec.versionToken (versionOf h) /\ Spec.contains h (versionOf h).
Proof.
  unfold isHeader, versionOf.
  destruct (exec versionRe h) as [m|] eqn:Hm; [|discriminate]. intros _.
  apply RegexFacts.exec_from_sound in Hm as (pre & s0 & Hh & HM & _).
  apply PatternFacts.versionRe_inv in HM
    as (_ & hashes & ws & bracket & v & rest & -> & _ & _ & _ & _ & Hv & Hcap).
  unfold capture1. rewrite Hcap. cbn. split; [exact Hv|].
  exists (pre ++ hashes ++ ws ++ bracket), rest. rewrite Hh.
  now rewrite <- !app_assoc.
Qed.

Lemma mkItem_well_formed (line : jsstring) :
  type (item line) = categorizeItem toLowerCase (content (item line))
  /\ trimmed (content (item line)).
Proof.
  split; [reflexivity|]. unfold mkItem. cbn [content]. unfold trimmed.
  destruct (StrFacts.trim_spec (Str.slice 2 line)) as (l & r & _ & _ & _ & Hhead & Hlast).
  auto.
Qed.

(** *** Containment *)

Lemma contains_refl (s : jsstring) : Spec.contains s s.
Proof. exists [], []. now rewrite app_nil_r. Qed.

Lemma contains_trans (a b c : jsstring) :
  Spec.contains a b -> Spec.contains b c -> Spec.contains a c.
Proof.
  intros (a1 & a2 & ->) (b1 & b2 & ->). exists (a1 ++ b1), (b2 ++ a2).
  now rewrite <- !app_assoc.
Qed.

Lemma contains_line (ls : list jsstring) (l : jsstring) :
  l ∈ ls -> Spec.contains (Str.join_lines ls) l.
Proof.
  induction ls as [|l0 ls IH]; [intros H; inversion H|].
  intros [-> | Hin]%elem_of_cons.
  - destruct ls as [|l1 ls]; [apply contains_refl|].
    exists [], (Chars.newline :: Str.join_lines (l1 :: ls)). reflexivity.
  - destruct ls as [|l1 ls]; [inversion Hin|].
    destruct (IH Hin) as (a & b & Hab).
    exists (l0 ++ Chars.newline :: a), b.
    change (Str.join_lines (l0 :: l1 :: ls))
      with (l0 ++ Chars.newline :: Str.join_lines (l1 :: ls)).
    rewrite Hab. now rewrite <- app_assoc.
Qed.

Lemma contains_split (markdown l : jsstring) :
  l ∈ Str.split_lines markdown -> Spec.contains markdown l.
Proof.
  intros Hl. rewrite <- (StrFacts.join_split markdown) at 1. now apply contains_line.
Qed.

Lemma contains_item (line : jsstring) : Spec.contains line (content (item line)).
Proof.
  unfold mkItem. cbn [content]. apply (contains_trans _ (Str.slice 2 line)).
  - exists (take 2 line), []. unfold Str.slice. now rewrite app_nil_r, take_drop.
  - destruct (StrFacts.trim_spec (Str.slice 2 line)) as (l & r & Heq & _).
    exists l, r. exact Heq.
Qed.

Lemma contains_date (line : jsstring) :
  dateOfLine line = [] \/ Spec.contains line (dateOfLine line).
Proof.
  destruct (dateOfLine_shape line) as [H | [H | H]]; [now left | right | right].
  - destruct H as (before & ws & Heq & _). exists (before ++ [Chars.lparen]), ([Chars.rparen] ++ ws).
    rewrite Heq at 1. now rewrite <- !app_assoc.
  - destruct H as (before & dash & ws & after & Heq & _).
    exists (before ++ [dash] ++ ws), after. rewrite Heq at 1. now rewrite <- !app_assoc.
Qed.

(** *** The last record alone is open *)

Lemma fold_current (ls : list jsstring) : forall cv,
  exists its rest,
    pushCurrent (foldl step (PState [] (Some cv)) ls)
    = withItems cv (items cv ++ its) :: rest.
Proof.
  induction ls as [|l ls IH]; intros cv.
  - exists [], []. cbn. now rewrite app_nil_r, ParserFacts.withItems_id.
  - cbn [foldl]. destruct (isHeader l) eqn:Hl.
    + rewrite ParserFacts.step_header by exact Hl. cbn [pushCurrent currentVersion versions app].
      rewrite ParserFacts.fold_frame. exists [].
      rewrite app_nil_r, ParserFacts.withItems_id. eauto.
    + rewrite ParserFacts.step_open by exact Hl.
      destruct (isBullet l).
      * destruct (IH (pushItem cv (item l))) as (its & rest & ->).
        exists (item l :: its), rest. unfold withItems, pushItem. cbn.
        now rewrite <- app_assoc.
      * apply IH.
Qed.

Lemma split_lines_app (a b : jsstring) :
  Str.split_lines (a ++ Chars.newline :: b) = Str.split_lines a ++ Str.split_lines b.
Proof.
  induction a as [|c a IH]; [reflexivity|].
  cbn [app Str.split_lines]. rewrite IH.
  destruct (c =? Chars.newline); [reflexivity|].
  pose proof (StrFacts.split_lines_nonempty a) as Hne.
  destruct (Str.split_lines a); [congruence | reflexivity].
Qed.

(** X1.  Flattened, the items of the records returned by
    [parseChangelog] are the bullet lines that follow the first version
    header, each turned into an item, in the order of the document:
    none is lost, repeated or moved. *)
Theorem items_are_the_bullets (markdown : jsstring) :
  allItems (parseChangelog toLowerCase sid sname rd markdown)
  = map (fun line =>
           let content := Str.trim (drop 2 line) in
           {| type := categorizeItem toLowerCase content; content := content |})
      (List.filter isBullet (fromFirstHeader (Str.split_lines markdown))).
Proof. apply parse_allItems. Qed.

(** X2.  A line that is neither a version header nor a bullet (blank
    line, prose, sub-heading) can be removed from the document without
    changing the result. *)
Theorem other_lines_ignored (markdown markdown' : jsstring)
    (pre : list jsstring) (l : jsstring) (post : list jsstring) :
  Str.split_lines markdown = pre ++ l :: post ->
  Str.split_lines markdown' = pre ++ post ->
  isHeader l = false -> isBullet l = false ->
  parseChangelog toLowerCase sid sname rd markdown
  = parseChangelog toLowerCase sid sname rd markdown'.
Proof.
  intros H1 H2 Hh Hb. unfold parseChangelog, parseLines. rewrite H1, H2.
  rewrite !foldl_app. cbn [foldl]. now rewrite step_other.
Qed.

(** X3.  Every record returned by [parseChangelog] is well formed: its
    version is a MAJOR.MINOR.PATCH token with an optional pre-release
    tag (so it is never empty), it carries the [sourceId] and
    [sourceName] of the call, its date is empty, a YYYY-MM-DD date, a
    month-style date, or the entry of [releaseDates] for its version,
    and each of its items has a trimmed content and the kind that
    [categorizeItem] gives to that content. *)
Theorem records_well_formed (markdown : jsstring) :
  Forall (fun v =>
            Spec.versionToken (version v)
            /\ sourceId v = sid /\ sourceName v = sname
            /\ (date v = [] \/ Spec.isIsoDate (date v) = true \/ Spec.monthStyle (date v)
                \/ exists dates, rd = Some dates /\ dates !! version v = Some (date v))
            /\ Forall (fun i => type i = categorizeItem toLowerCase (content i)
                                 /\ trimmed (content i))
                 (items v))
    (parseChangelog toLowerCase sid sname rd markdown).
Proof.
  apply Forall_forall. intros v Hv. unfold parseChangelog in Hv.
  destruct (parse_version_origin _ v Hv) as (h & _ & Hh & Hsum).
  unfold summary, headerSummary in Hsum. injection Hsum as Hversion Hdate Hsid Hsname.
  split; [rewrite Hversion; now apply versionOf_token|].
  split; [exact Hsid|]. split; [exact Hsname|]. split.
  - rewrite Hdate, Hversion. unfold headerDate.
    destruct (dateOfLine_shape h) as [Hnone | [Hparen | Hdash]].
    + rewrite Hnone. destruct rd as [dates|]; [|now left].
      destruct (dates !! versionOf h) as [d|] eqn:Hd; cbn; [|now left].
      destruct d as [|c d]; [now left|]. right. right. right. eauto.
    + destruct Hparen as (_ & _ & _ & Hiso & _).
      destruct (PatternFacts.isoDate_trim _ Hiso) as [Hne _].
      destruct (dateOfLine h); [congruence|]. auto.
    + destruct (PatternFacts.dateAfter_trim _ _ _ Hdash) as [Hne _].
      destruct Hdash as (_ & _ & _ & _ & _ & _ & _ & Hshape).
      destruct (dateOfLine h); [congruence|]. tauto.
  - apply Forall_forall. intros i Hi.
    destruct (parse_item_origin _ v i Hv Hi) as (line & _ & _ & ->).
    apply mkItem_well_formed.
Qed.

(** X4.  The parser copies and never invents: the version of every
    record and the content of every item are substrings of the
    document, and so is the date of a record unless it is empty or
    comes from [releaseDates]. *)
Theorem text_comes_from_document (markdown : jsstring) :
  Forall (fun v =>
            Spec.contains markdown (version v)
            /\ (date v = [] \/ Spec.contains markdown (date v)
                \/ exists dates, rd = Some dates /\ dates !! version v = Some (date v))
            /\ Forall (fun i => Spec.contains markdown (content i)) (items v))
    (parseChangelog toLowerCase sid sname rd markdown).
Proof.
  apply Forall_forall. intros v Hv. unfold parseChangelog in Hv.
  destruct (parse_version_origin _ v Hv) as (h & Hin & Hh & Hsum).
  unfold summary, headerSummary in Hsum. injection Hsum as Hversion Hdate _ _.
  pose proof (contains_split markdown h Hin) as Hline.
  split; [|split].
  - rewrite Hversion. eapply contains_trans; [exact Hline|]. now apply versionOf_token.
  - rewrite Hdate, Hversion. unfold headerDate.
    pose proof (contains_date h) as Hsub.
    destruct (dateOfLine h) as [|c d] eqn:Hd.
    + destruct rd as [dates|]; [|now left].
      destruct (dates !! versionOf h) as [d|] eqn:Hlook; cbn; [|now left].
      destruct d as [|c d]; [now left|]. right. right. eauto.
    + destruct Hsub as [Hnone | Hsub]; [discriminate|].
      right. left. eapply contains_trans; [exact Hline | exact Hsub].
  - apply Forall_forall. intros i Hi.
    destruct (parse_item_origin _ v i Hv Hi) as (line & Hlin & _ & ->).
    eapply contains_trans; [apply contains_split, Hlin | apply contains_item].
Qed.

(** X5.  Reading more of a document never changes the records already
    closed: every record of the parse of the first lines is found at
    the same place in the parse of a longer document, with the same
    version, date and source, and with its items as a prefix of the
    new ones; only the last record can differ. *)
Theorem earlier_records_final (lines1 lines2 : list jsstring) (n : nat) (v : ChangelogVersion) :
  parse lines1 !! n = Some v ->
  exists v',
    parse (lines1 ++ lines2) !! n = Some v'
    /\ summary v' = summary v
    /\ items v `prefix_of` items v'
    /\ ((S n < length (parse lines1))%nat -> v' = v).
Proof.
  unfold parseLines. rewrite foldl_app.
  destruct (foldl step (PState [] None) lines1) as [vs cur].
  rewrite ParserFacts.fold_frame. destruct cur as [cv|].
  - cbn [pushCurrent currentVersion versions]. intros Hn.
    destruct (fold_current lines2 cv) as (its & rest & ->).
    destruct (decide (n < length vs)%nat) as [Hlt | Hge].
    + rewrite lookup_app_l in Hn |- * by exact Hlt. exists v.
      split; [exact Hn|]. split; [reflexivity|]. split; [reflexivity|]. auto.
    + rewrite lookup_app_r in Hn |- * by lia.
      destruct (n - length vs)%nat as [|k] eqn:Hk; [|destruct k; discriminate].
      injection Hn as <-. eexists. split; [reflexivity|].
      split; [reflexivity|]. split; [now exists its|].
      rewrite length_app. cbn. lia.
  - cbn [pushCurrent currentVersion versions]. intros Hn.
    rewrite ParserFacts.fold_frame.
    assert (Hlt : (n < length vs)%nat) by now apply lookup_lt_Some in Hn.
    rewrite app_nil_l, lookup_app_l by exact Hlt. exists v.
    split; [exact Hn|]. split; [reflexivity|]. split; [reflexivity|]. auto.
Qed.

(** X6.  Documents compose: when the second document starts with a
    version header, the parse of the two documents joined by a newline
    is the parse of the first followed by the parse of the second. *)
Theorem documents_compose (markdown1 markdown2 : jsstring) :
  (forall h, head (Str.split_lines markdown2) = Some h -> isHeader h = true) ->
  parseChangelog toLowerCase sid sname rd (markdown1 ++ Chars.newline :: markdown2)
  = parseChangelog toLowerCase sid sname rd markdown1
    ++ parseChangelog toLowerCase sid sname rd markdown2.
Proof.
  intros Hhead. unfold parseChangelog. rewrite split_lines_app.
  pose proof (StrFacts.split_lines_nonempty markdown2) as Hne.
  destruct (Str.split_lines markdown2) as [|h rest]; [congruence|].
  apply ParserFacts.parse_app_header. now apply Hhead.
Qed.

(** X7.  [getLatestVersion] of a parsed document is the version written
    on the first version header of the document, and "Unknown" exactly
    when the document has no version header. *)
Theorem latest_version_of_document (markdown : jsstring) :
  getLatestVersion (parseChangelog toLowerCase sid sname rd markdown)
  = match List.filter isHeader (Str.split_lines markdown) with
    | h :: _ => versionOf h
    | [] => js "Unknown"
    end
  /\ (getLatestVersion (parseChangelog toLowerCase sid sname rd markdown) = js "Unknown"
      <-> List.filter isHeader (Str.split_lines markdown) = []).
Proof.
  unfold parseChangelog.
  pose proof (ParserFacts.parse_summary toLowerCase sid sname rd (Str.split_lines markdown))
    as Hsum.
  destruct (List.filter isHeader (Str.split_lines markdown)) as [|h hs] eqn:Hheaders.
  - destruct (parse (Str.split_lines markdown)); [|discriminate]. now split.
  - destruct (parse (Str.split_lines markdown)) as [|v vs]; [discriminate|].
    cbn in Hsum. injection Hsum as Hversion _ _ _ _.
    assert (Hh : isHeader h = true).
    { assert (Hin : In h (List.filter isHeader (Str.split_lines markdown)))
        by (rewrite Hheaders; now left).
      now apply filter_In in Hin. }
    destruct (versionOf_token h Hh) as [Htoken _].
    apply PatternFacts.versionToken_nonempty in Htoken.
    cbn [getLatestVersion]. rewrite Hversion.
    destruct (versionOf h) as [|c v0] eqn:Hv; [congruence|]. cbn [orElse].
    split; [reflexivity|]. split; [|discriminate].
    intros Heq. exfalso. rewrite <- Hv in Heq.
    destruct (versionOf_token h Hh) as [(major & minor & patch & tag & Hshape & [Nm Hm] & _) _].
    rewrite Hshape in Heq. destruct major as [|d major]; [congruence|].
    cbn in Hm. apply andb_true_iff in Hm as [Hd _].
    injection Heq as -> _. discriminate Hd.
Qed.

End WithParameters.

Lemma other_lines_ignored_witness :
  Examples.parse Examples.sample = Examples.parse Examples.sampleWithoutProse.
Proof.
  apply (other_lines_ignored Examples.lower None None None
           Examples.sample Examples.sampleWithoutProse
           (take 3 Examples.sampleLines) (js "Thanks to all contributors.")
           (drop 4 Examples.sampleLines)); reflexivity.
Defined.

Lemma earlier_records_final_witness :
  exists v',
    Examples.parseLines (take 4 Examples.sampleLines ++ drop 4 Examples.sampleLines)
      !! 0%nat = Some v'
    /\ summary v' = (js "2.0.0", js "2024-03-01", None, None)
    /\ [mkItem Examples.lower (js "- Removed support for v1")] `prefix_of` items v'.
Proof.
  destruct (earlier_records_final Examples.lower None None None
              (take 4 Examples.sampleLines) (drop 4 Examples.sampleLines) 0%nat
              (Build_ChangelogVersion (js "2.0.0") (js "2024-03-01")
                 [mkItem Examples.lower (js "- Removed support for v1")] None None)
              eq_refl) as (v' & Hv' & Hsum & Hitems & _).
  exists v'. split; [exact Hv'|]. split; [exact Hsum | exact Hitems].
Defined.

Lemma documents_compose_witness :
  Examples.parse (js "## 2.0.0 (2024-03-01)" ++ Chars.newline :: js "## 1.9.0")
  = Examples.parse (js "## 2.0.0 (2024-03-01)") ++ Examples.parse (js "## 1.9.0").
Proof.
  apply (documents_compose Examples.lower None None None
           (js "## 2.0.0 (2024-03-01)") (js "## 1.9.0")).
  intros h [= <-]. reflexivity.
Defined.

End ParserLaws.

(** ** Whitespace at the end of a line *)

Module TrailingFacts.

Import Regex Changelog Laws.

Section WithChar.

Variable c : N.

Local Abbreviation compat := (Laws.compat c).

Lemma rep_end_dead p lo hi k cs : dead k -> rep p lo hi k cs [] = None.
Proof. intros Hk. cbn. destruct lo; [apply Hk | reflexivity]. Qed.

Lemma rmatch_end_dead input r : forall k cs,
  dead k -> rmatch input r k (MState [] cs) = None.
Proof.
  induction r as [|p|r1 IH1 r2 IH2|r1 IH1 r2 IH2|p lo hi|r1 IH1|n r1 IH1| |];
    intros k cs Hk; cbn [rmatch rest caps]; try reflexivity.
  - apply Hk.
  - apply IH1. intros cs'. now apply IH2.
  - rewrite IH1 by exact Hk. now apply IH2.
  - now apply rep_end_dead.
  - rewrite IH1 by exact Hk. apply Hk.
  - apply IH1. intros cs'. apply Hk.
  - destruct (length [] =? length input)%nat; [apply Hk | reflexivity].
  - apply Hk.
Qed.

Lemma needsChar_dead input r : needsChar r = true ->
  forall k cs, rmatch input r k (MState [] cs) = None.
Proof.
  induction r as [|p|r1 IH1 r2 IH2|r1 IH1 r2 IH2|p lo hi|r1 IH1|n r1 IH1| |];
    cbn [needsChar]; intros Hn k cs; try discriminate; cbn [rmatch rest caps].
  - reflexivity.
  - apply orb_true_iff in Hn as [H1 | H2].
    + now apply IH1.
    + apply rmatch_end_dead. intros cs'. now apply IH2.
  - apply andb_true_iff in Hn as [H1 H2]. rewrite IH1 by exact H1. now apply IH2.
  - destruct lo; [discriminate | reflexivity].
  - now apply IH1.
Qed.

Lemma rep_cons p lo hi k cs a s :
  rep p lo hi k cs (a :: s)
  = let stop := match lo with 0%nat => k (MState (a :: s) cs) | S _ => None end in
    if p a && room hi
    then match rep p (pred lo) (pred <$> hi) k cs s with
         | Some res => Some res
         | None => stop
         end
    else stop.
Proof. reflexivity. Qed.

Lemma rep_transfer p lo hi k' k cs s :
  compat k' k -> (p c = false \/ dead k') ->
  rep p lo hi k' cs (s ++ [c]) = extend c <$> rep p lo hi k cs s.
Proof.
  intros Hk Hc. revert lo hi. induction s as [|a s IH]; intros lo hi.
  - change ([] ++ [c]) with [c]. rewrite rep_cons. cbv zeta.
    assert (Hstop : match lo with
                    | 0%nat => k' (MState [c] cs)
                    | S _ => None
                    end
                    = extend c <$> rep p lo hi k cs []).
    { cbn [rep]. destruct lo; [apply (Hk (MState [] cs)) | reflexivity]. }
    destruct Hc as [Hc | Hdead].
    + rewrite Hc. exact Hstop.
    + destruct (p c && room hi); [|exact Hstop].
      rewrite rep_end_dead by exact Hdead. exact Hstop.
  - change ((a :: s) ++ [c]) with (a :: (s ++ [c])). rewrite !rep_cons. cbv zeta.
    rewrite IH.
    assert (Hstop : match lo with
                    | 0%nat => k' (MState (a :: s ++ [c]) cs)
                    | S _ => None
                    end
                    = extend c <$> match lo with
                                   | 0%nat => k (MState (a :: s) cs)
                                   | S _ => None
                                   end).
    { destruct lo; [apply (Hk (MState (a :: s) cs)) | reflexivity]. }
    destruct (p a && room hi); [|exact Hstop].
    destruct (rep p (pred lo) (pred <$> hi) k cs s); [reflexivity | exact Hstop].
Qed.

Lemma consumed_extend (s s' : jsstring) :
  consumed (s ++ [c]) (s' ++ [c]) = consumed s s'.
Proof.
  unfold consumed. rewrite !length_app. cbn [length].
  replace (length s + 1 - (length s' + 1))%nat with (length s - length s')%nat by lia.
  apply take_app_le. lia.
Qed.

(** The matches of an expression that [transfers] are those on the
    subject without its last character. *)
Lemma rmatch_transfer input r : transfers c r = true ->
  forall k' k st, compat k' k ->
  rmatch (input ++ [c]) r k' (extend c st) = extend c <$> rmatch input r k st.
Proof.
  assert (Hdeadly : forall r, eolFree r = true ->
    forall k' k st, compat k' k -> dead k' ->
    rmatch (input ++ [c]) r k' (extend c st) = extend c <$> rmatch input r k st).
  { clear r. induction r as [|p|r1 IH1 r2 IH2|r1 IH1 r2 IH2|p lo hi|r1 IH1|n r1 IH1| |];
      cbn [eolFree]; intros He k' k st Hk Hd; try discriminate;
      cbn [rmatch].
    - apply Hk.
    - destruct st as [[|a s] cs]; cbn [extend rest caps app].
      + destruct (p c); [apply Hd | reflexivity].
      + destruct (p a); [apply (Hk (MState s cs)) | reflexivity].
    - apply andb_true_iff in He as [He1 He2]. apply IH1; [exact He1| |].
      + intros st'. now apply IH2.
      + intros cs. apply rmatch_end_dead. exact Hd.
    - apply andb_true_iff in He as [He1 He2].
      rewrite (IH1 He1 k' k st Hk Hd).
      destruct (rmatch input r1 k st); [reflexivity|]. now apply IH2.
    - apply rep_transfer; [exact Hk | now right].
    - rewrite (IH1 He k' k st Hk Hd).
      destruct (rmatch input r1 k st); [reflexivity|]. apply Hk.
    - apply IH1; [exact He| |].
      + intros st'. cbn [extend rest caps]. rewrite consumed_extend.
        apply (Hk (MState (rest st') ((n, consumed (rest st) (rest st')) :: caps st'))).
      + intros cs. apply Hd.
    - cbn [extend rest]. rewrite !length_app. cbn [length].
      replace (length (rest st) + 1 =? length input + 1)%nat
        with (length (rest st) =? length input)%nat.
      + destruct (length (rest st) =? length input)%nat; [apply Hk | reflexivity].
      + destruct (Nat.eqb_spec (length (rest st)) (length input)) as [->|Hne].
        * symmetry. apply Nat.eqb_refl.
        * symmetry. apply Nat.eqb_neq. lia. }
  induction r as [|p|r1 IH1 r2 IH2|r1 IH1 r2 IH2|p lo hi|r1 IH1|n r1 IH1| |];
    cbn [transfers]; intros Ht k' k st Hk; try discriminate; cbn [rmatch].
  - apply Hk.
  - apply negb_true_iff in Ht.
    destruct st as [[|a s] cs]; cbn [extend rest caps app].
    + now rewrite Ht.
    + destruct (p a); [apply (Hk (MState s cs)) | reflexivity].
  - apply andb_true_iff in Ht as [Ht2 Ht1].
    apply orb_true_iff in Ht1 as [Ht1 | Ht1].
    + apply IH1; [exact Ht1|]. intros st'. now apply IH2.
    + apply andb_true_iff in Ht1 as [Hn He].
      apply Hdeadly; [exact He| |].
      * intros st'. now apply IH2.
      * intros cs. now apply needsChar_dead.
  - apply andb_true_iff in Ht as [Ht1 Ht2].
    rewrite (IH1 Ht1 k' k st Hk).
    destruct (rmatch input r1 k st); [reflexivity|]. now apply IH2.
  - apply negb_true_iff in Ht. apply rep_transfer; [exact Hk | now left].
  - rewrite (IH1 Ht k' k st Hk).
    destruct (rmatch input r1 k st); [reflexivity|]. apply Hk.
  - apply IH1; [exact Ht|].
    intros st'. cbn [extend rest caps]. rewrite consumed_extend.
    apply (Hk (MState (rest st') ((n, consumed (rest st) (rest st')) :: caps st'))).
  - cbn [extend rest]. rewrite !length_app. cbn [length].
    replace (length (rest st) + 1 =? length input + 1)%nat
      with (length (rest st) =? length input)%nat.
    + destruct (length (rest st) =? length input)%nat; [apply Hk | reflexivity].
    + destruct (Nat.eqb_spec (length (rest st)) (length input)) as [->|Hne].
      * symmetry. apply Nat.eqb_refl.
      * symmetry. apply Nat.eqb_neq. lia.
Qed.

Lemma compat_Some : compat Some Some.
Proof. intros st. reflexivity. Qed.

Lemma exec_from_transfer input r s :
  transfers c r = true -> needsChar r = true ->
  exec_from (input ++ [c]) r (s ++ [c]) = extend c <$> exec_from input r s.
Proof.
  intros Ht Hn.
  assert (Hhere : forall s', rmatch (input ++ [c]) r Some (MState (s' ++ [c]) [])
                             = extend c <$> rmatch input r Some (MState s' [])).
  { intros s'. apply (rmatch_transfer input r Ht Some Some (MState s' []) compat_Some). }
  induction s as [|a s IH].
  - pose proof (Hhere []) as H0. change ([] ++ [c]) with [c] in *.
    cbn [exec_from]. rewrite H0, (needsChar_dead (input ++ [c]) r Hn).
    destruct (rmatch input r Some (MState [] [])); reflexivity.
  - pose proof (Hhere (a :: s)) as H0.
    change ((a :: s) ++ [c]) with (a :: (s ++ [c])) in *.
    cbn [exec_from]. rewrite H0, IH.
    destruct (rmatch input r Some (MState (a :: s) [])); reflexivity.
Qed.

Lemma exec_transfer r s :
  transfers c r = true -> needsChar r = true ->
  exec r (s ++ [c]) = extend c <$> exec r s.
Proof. intros Ht Hn. unfold exec. now apply exec_from_transfer. Qed.

End WithChar.

Ltac space_cases H :=
  unfold Chars.isSpace in H;
  repeat (rewrite orb_true_iff in H || rewrite andb_true_iff in H);
  rewrite ?N.leb_le, ?N.eqb_eq in H.

Ltac not_in_class :=
  repeat (rewrite orb_false_iff || rewrite andb_false_iff);
  rewrite ?N.leb_gt, ?N.eqb_neq; lia.

Lemma space_classes (c : N) : Chars.isSpace c = true ->
  Chars.isDigit c = false /\ Chars.isWord c = false /\ Chars.isTagChar c = false
  /\ Chars.isDashClass c = false
  /\ Chars.isChar Chars.hash c = false /\ Chars.isChar Chars.dot c = false
  /\ Chars.isChar Chars.hyphen c = false /\ Chars.isChar Chars.comma c = false
  /\ Chars.isChar Chars.lbracket c = false /\ Chars.isChar Chars.rbracket c = false
  /\ Chars.isChar Chars.lparen c = false /\ Chars.isChar Chars.rparen c = false
  /\ Chars.isChar Chars.star c = false.
Proof.
  intros Hc. space_cases Hc.
  unfold Chars.isDigit, Chars.isWord, Chars.isTagChar, Chars.isDashClass,
    Chars.isUpper, Chars.isLower, Chars.isDigit, Chars.isChar,
    Chars.hash, Chars.dot, Chars.hyphen, Chars.comma, Chars.lbracket,
    Chars.rbracket, Chars.lparen, Chars.rparen, Chars.star.
  repeat split; not_in_class.
Qed.

Ltac by_classes Hc :=
  destruct (space_classes _ Hc)
    as (Hd & Hw & Ht & Hdash & Hhash & Hdot & Hhy & Hcomma & Hlb & Hrb & Hlp & Hrp & Hstar);
  cbn [transfers needsChar eolFree Nat.eqb];
  rewrite ?Hc, ?Hd, ?Hw, ?Ht, ?Hdash, ?Hhash, ?Hdot, ?Hhy, ?Hcomma, ?Hlb, ?Hrb, ?Hlp, ?Hrp;
  reflexivity.

Lemma versionRe_transfers (c : N) :
  Chars.isSpace c = true -> transfers c versionRe = true.
Proof.
  intros Hc. unfold versionRe, versionTailRe, versionTokenRe. by_classes Hc.
Qed.

Lemma dateAfterDashRe_transfers (c : N) :
  Chars.isSpace c = true -> transfers c dateAfterDashRe = true.
Proof.
  intros Hc. unfold dateAfterDashRe, isoDateRe, monthDateRe. by_classes Hc.
Qed.

Lemma capture1_extend (c : N) (m : option mstate) :
  capture1 <$> (extend c <$> m) = capture1 <$> m.
Proof. now destruct m. Qed.

Section TrailingSpace.

Variable c : N.
Hypothesis Hc : Chars.isSpace c = true.

Lemma versionRe_space (line : jsstring) :
  capture1 <$> exec versionRe (line ++ [c]) = capture1 <$> exec versionRe line.
Proof.
  rewrite exec_transfer; [apply capture1_extend | now apply versionRe_transfers | reflexivity].
Qed.

Lemma dateAfterDashRe_space (line : jsstring) :
  capture1 <$> exec dateAfterDashRe (line ++ [c])
  = capture1 <$> exec dateAfterDashRe line.
Proof.
  rewrite exec_transfer;
    [apply capture1_extend | now apply dateAfterDashRe_transfers | reflexivity].
Qed.

Lemma parenDate_space (line d : jsstring) :
  Spec.parenDateAtEnd (line ++ [c]) d <-> Spec.parenDateAtEnd line d.
Proof.
  split.
  - intros (before & ws & Hline & Hd & Hws).
    destruct ws as [|c' ws _] using rev_ind.
    + exfalso. rewrite app_nil_r, !app_assoc in Hline.
      apply app_inj_tail in Hline as [_ ->].
      now destruct (space_classes _ Hc) as (_ & _ & _ & _ & _ & _ & _ & _ & _ & _ & _ & Hrp & _).
    + rewrite !app_assoc in Hline. apply app_inj_tail in Hline as [-> _].
      exists before, ws. rewrite <- !app_assoc. split; [reflexivity|]. split; [exact Hd|].
      unfold Spec.spaces in *. rewrite forallb_app in Hws.
      now apply andb_true_iff in Hws as [Hws _].
  - intros (before & ws & -> & Hd & Hws).
    exists before, (ws ++ [c]). rewrite <- !app_assoc. split; [reflexivity|].
    split; [exact Hd|]. unfold Spec.spaces in *. rewrite forallb_app, Hws. cbn.
    now rewrite Hc.
Qed.

Lemma dateInParensRe_space (line : jsstring) :
  capture1 <$> exec dateInParensRe (line ++ [c])
  = capture1 <$> exec dateInParensRe line.
Proof.
  destruct (exec dateInParensRe line) as [m|] eqn:Hm.
  - apply PatternFacts.dateInParens_sound in Hm.
    apply (proj2 (parenDate_space _ _)) in Hm.
    apply PatternFacts.dateInParens_complete in Hm as (m' & -> & Hcap).
    cbn. now rewrite Hcap.
  - destruct (exec dateInParensRe (line ++ [c])) as [m'|] eqn:Hm'; [|reflexivity].
    apply PatternFacts.dateInParens_sound in Hm'.
    apply (proj1 (parenDate_space _ _)) in Hm'.
    apply PatternFacts.dateInParens_complete in Hm' as (m & Hm'' & _). congruence.
Qed.

Lemma dateOfLine_space (line : jsstring) :
  dateOfLine (line ++ [c]) = dateOfLine line.
Proof.
  unfold dateOfLine.
  pose proof (dateInParensRe_space line) as Hp.
  pose proof (dateAfterDashRe_space line) as Hd.
  destruct (exec dateInParensRe (line ++ [c])), (exec dateInParensRe line);
    cbn in Hp; try discriminate; [congruence|].
  destruct (exec dateAfterDashRe (line ++ [c])), (exec dateAfterDashRe line);
    cbn in Hd; try discriminate; congruence.
Qed.

End TrailingSpace.

(** The header tests and the date of a line do not see whitespace at
    its end. *)
Lemma header_trailing (line ws : jsstring) :
  forallb Chars.isSpace ws = true ->
  capture1 <$> exec versionRe (line ++ ws) = capture1 <$> exec versionRe line
  /\ dateOfLine (line ++ ws) = dateOfLine line.
Proof.
  induction ws as [|c ws IH] using rev_ind; intros Hws.
  - now rewrite app_nil_r.
  - rewrite forallb_app in Hws. apply andb_true_iff in Hws as [Hws Hc].
    cbn in Hc. rewrite andb_true_r in Hc.
    destruct (IH Hws) as [IHv IHd]. rewrite app_assoc.
    rewrite versionRe_space, dateOfLine_space by exact Hc. now split.
Qed.

Lemma trimStart_spaces (ws : jsstring) :
  forallb Chars.isSpace ws = true -> Str.trimStart ws = [].
Proof.
  induction ws as [|c ws IH]; [reflexivity|]. cbn.
  intros [Hc Hws]%andb_true_iff. rewrite Hc. now apply IH.
Qed.

Lemma trimStart_skip (ws s : jsstring) :
  forallb Chars.isSpace ws = true -> Str.trimStart (ws ++ s) = Str.trimStart s.
Proof.
  induction ws as [|c ws IH]; [reflexivity|]. cbn.
  intros [Hc Hws]%andb_true_iff. rewrite Hc. now apply IH.
Qed.

Lemma trimStart_app (s ws : jsstring) :
  forallb Chars.isSpace ws = true ->
  Str.trimStart (s ++ ws)
  = if forallb Chars.isSpace s then [] else Str.trimStart s ++ ws.
Proof.
  intros Hws. induction s as [|a s IH]; cbn.
  - now apply trimStart_spaces.
  - destruct (Chars.isSpace a); [exact IH | reflexivity].
Qed.

(** [trim] does not see whitespace added at the end. *)
Lemma trim_trailing (s ws : jsstring) :
  forallb Chars.isSpace ws = true -> Str.trim (s ++ ws) = Str.trim s.
Proof.
  intros Hws. unfold Str.trim. rewrite trimStart_app by exact Hws.
  destruct (forallb Chars.isSpace s) eqn:Hs.
  - now rewrite (trimStart_spaces s Hs).
  - unfold Str.trimEnd. rewrite reverse_app, trimStart_skip; [reflexivity|].
    rewrite forallb_forall in *. intros x Hx. apply Hws.
    apply list_elem_of_In. apply list_elem_of_In in Hx.
    exact (proj1 (elem_of_reverse _ _) Hx).
Qed.

Lemma isBullet_two (a b : N) (t : jsstring) :
  isBullet (a :: b :: t)
  = ((a =? Chars.hyphen) || (a =? Chars.star)) && (b =? Chars.space).
Proof.
  unfold isBullet. change (js "- ") with [Chars.hyphen; Chars.space].
  change (js "* ") with [Chars.star; Chars.space]. cbn [Str.startsWith].
  replace (Str.startsWith t []) with true by now destruct t.
  destruct (a =? Chars.hyphen), (a =? Chars.star), (b =? Chars.space); reflexivity.
Qed.

Lemma isBullet_trailing (line ws : jsstring) :
  forallb Chars.isSpace ws = true ->
  (head ws = Some Chars.space -> line <> [Chars.hyphen] /\ line <> [Chars.star]) ->
  isBullet (line ++ ws) = isBullet line.
Proof.
  intros Hws Hlone.
  destruct line as [|a [|b line]]; cbn [app].
  - destruct ws as [|c [|c' ws]]; [reflexivity| |].
    + unfold isBullet. cbn. now rewrite !andb_false_r.
    + cbn in Hws. apply andb_true_iff in Hws as [Hc _].
      destruct (space_classes _ Hc)
        as (_ & _ & _ & _ & _ & _ & Hhy & _ & _ & _ & _ & _ & Hstar).
      unfold Chars.isChar in *. now rewrite isBullet_two, Hhy, Hstar.
  - destruct ws as [|c ws]; [reflexivity|]. rewrite isBullet_two.
    transitivity false; [|unfold isBullet; cbn; now rewrite !andb_false_r].
    destruct (N.eqb_spec c Chars.space) as [->|Hne]; [|apply andb_false_r].
    destruct (Hlone eq_refl) as [Hh Hs].
    destruct (N.eqb_spec a Chars.hyphen) as [->|_]; [now destruct Hh|].
    destruct (N.eqb_spec a Chars.star) as [->|_]; [now destruct Hs|]. reflexivity.
  - now rewrite !isBullet_two.
Qed.

Lemma mkItem_trailing toLowerCase (line ws : jsstring) :
  forallb Chars.isSpace ws = true -> isBullet line = true ->
  mkItem toLowerCase (line ++ ws) = mkItem toLowerCase line.
Proof.
  intros Hws Hb. unfold mkItem, Str.slice.
  assert (Hdrop : drop 2 (line ++ ws) = drop 2 line ++ ws).
  { apply ParserFacts.isBullet_spec in Hb as [r [-> | ->]]; reflexivity. }
  now rewrite Hdrop, trim_trailing.
Qed.

Lemma parseLine_trailing toLowerCase sid sname rd st (line line' : jsstring) :
  withTrailingSpace line line' ->
  parseLine toLowerCase sid sname rd st line'
  = parseLine toLowerCase sid sname rd st line.
Proof.
  intros (ws & -> & Hws & Hlone).
  destruct (header_trailing line ws Hws) as [Hv Hd].
  unfold parseLine, openVersion, headerDate. rewrite Hd.
  destruct (exec versionRe (line ++ ws)) as [m'|], (exec versionRe line) as [m|];
    cbn in Hv; try discriminate.
  - injection Hv as ->. reflexivity.
  - destruct (currentVersion st) as [cv|]; [|reflexivity].
    rewrite isBullet_trailing by assumption.
    destruct (isBullet line) eqn:Hb; [|reflexivity].
    now rewrite mkItem_trailing.
Qed.

Lemma fold_trailing toLowerCase sid sname rd (lines lines' : list jsstring) :
  Forall2 withTrailingSpace lines lines' ->
  forall st, foldl (parseLine toLowerCase sid sname rd) st lines'
             = foldl (parseLine toLowerCase sid sname rd) st lines.
Proof.
  induction 1 as [|line line' lines lines' Hline _ IH]; intros st; [reflexivity|].
  cbn. rewrite (parseLine_trailing _ _ _ _ st line line' Hline). apply IH.
Qed.

(** X8.  Whitespace at the end of lines is not seen: a document whose
    lines are those of another one with whitespace added at their end
    (carriage returns of Windows line ends, trailing blanks) parses to
    the same records.  The one exception is written in
    [withTrailingSpace]: a plain space after a lone "-" or "*" makes a
    bullet of it. *)
Theorem trailing_whitespace_ignored toLowerCase sid sname rd
    (markdown markdown' : jsstring) :
  Forall2 withTrailingSpace (Str.split_lines markdown) (Str.split_lines markdown') ->
  parseChangelog toLowerCase sid sname rd markdown'
  = parseChangelog toLowerCase sid sname rd markdown.
Proof.
  intros Hlines. unfold parseChangelog, parseLines.
  now rewrite (fold_trailing _ _ _ _ _ _ Hlines).
Qed.

Lemma trailing_whitespace_ignored_witness :
  Examples.parse Examples.sampleCRLF = Examples.parse Examples.sample.
Proof.
  apply (trailing_whitespace_ignored Examples.lower None None None
           Examples.sample Examples.sampleCRLF).
  vm_compute.
  repeat (constructor;
          [exists [13%N]; split; [reflexivity | split; [reflexivity | discriminate]]|]).
  constructor.
Defined.

End TrailingFacts.

(** ** What the retrying fetcher spends *)

Module FetchLaws.

Import Fetch Laws.

Lemma requested_app (l1 l2 : list event) :
  requested (l1 ++ l2) = requested l1 ++ requested l2.
Proof.
  induction l1 as [|[url|ms] l1 IH]; cbn; [reflexivity | now rewrite IH | exact IH].
Qed.

Lemma totalWait_app (l1 l2 : list event) :
  totalWait (l1 ++ l2) = totalWait l1 + totalWait l2.
Proof.
  induction l1 as [|[url|ms] l1 IH]; cbn [app totalWait]; [reflexivity | exact IH | lia].
Qed.

Lemma outcome_inr (r : reply) (response : Response) :
  outcome r = inr response -> r = Resolves response /\ ok response = true.
Proof.
  unfold outcome. destruct r as [reason|response']; [discriminate|].
  destruct (ok response') eqn:Hok; [|discriminate]. now intros [= <-].
Qed.

(** The loop entered at index [i] with [fuel] iterations left, from any
    state of the network: [m] requests are made and [added] is logged. *)
Lemma retryLoop_budget url retries : forall fuel i lastError w,
  (i + fuel = retries)%nat ->
  exists m added,
    (m <= fuel)%nat /\ ((0 < fuel)%nat -> (0 < m)%nat)
    /\ fst (retryLoop url retries fuel i lastError w)
       = World (replies w) (calls w + m) (log w ++ added)
    /\ requested added = replicate m url
    /\ ((0 < m)%nat ->
        totalWait added + 2 ^ N.of_nat i * 1000 = 2 ^ N.of_nat (i + m - 1) * 1000)
    /\ (m = 0%nat -> added = [])
    /\ match snd (retryLoop url retries fuel i lastError w) with
       | inr response =>
           (0 < m)%nat /\ replies w (calls w + m - 1)%nat = Resolves response
           /\ ok response = true
       | inl _ => m = fuel
       end.
Proof.
  induction fuel as [|fuel IH]; intros i lastError [rs c lg] Hi.
  - exists 0%nat, []. cbn. rewrite Nat.add_0_r, app_nil_r.
    repeat split; try reflexivity; lia.
  - cbn [retryLoop]. unfold tryCatch. rewrite FetchFacts.attempt_eq.
    destruct (outcome (rs c)) as [e|response] eqn:Hout.
    + unfold bind. destruct fuel as [|fuel].
      * assert (Hlast : (i <? retries - 1)%nat = false) by (apply Nat.ltb_ge; lia).
        rewrite Hlast. cbn. exists 1%nat, [Request url].
        repeat split; try reflexivity; try lia; try discriminate.
        -- now replace (c + 1)%nat with (S c) by lia.
        -- intros _. cbn. now replace (i + 1 - 1)%nat with i by lia.
      * assert (Hmore : (i <? retries - 1)%nat = true) by (apply Nat.ltb_lt; lia).
        rewrite Hmore. unfold sleep. cbn [Fetch.replies Fetch.calls Fetch.log].
        destruct (IH (S i) (Some e)
                    (World rs (S c) ((lg ++ [Request url]) ++ [Timer (2 ^ N.of_nat i * 1000)])))
          as (m & added & Hm & Hpos & Hw & Hreq & Hwait & _ & Hres); [lia|].
        specialize (Hpos ltac:(lia)). specialize (Hwait Hpos).
        cbn [Fetch.replies Fetch.calls Fetch.log] in Hw, Hres.
        exists (S m), (Request url :: Timer (2 ^ N.of_nat i * 1000) :: added).
        split; [lia|]. split; [lia|]. split.
        { rewrite Hw. rewrite <- !app_assoc. cbn [app].
          now replace (S c + m)%nat with (c + S m)%nat by lia. }
        split; [cbn; now rewrite Hreq|]. split.
        { intros _. cbn [totalWait].
          replace (i + S m - 1)%nat with (S i + m - 1)%nat by lia.
          rewrite <- Hwait. rewrite Nat2N.inj_succ, N.pow_succ_r'. lia. }
        split; [discriminate|].
        destruct (snd (retryLoop url retries (S fuel) (S i) (Some e) _))
          as [e'|response]; [lia|].
        destruct Hres as (_ & Hreply & Hok). split; [lia|]. split; [|exact Hok].
        now replace (c + S m - 1)%nat with (S c + m - 1)%nat by lia.
    + apply outcome_inr in Hout as [Hreply Hok].
      exists 1%nat, [Request url]. cbn [fst snd Fetch.replies Fetch.calls Fetch.log].
      repeat split; try reflexivity; try lia; try discriminate; try assumption.
      * now replace (c + 1)%nat with (S c) by lia.
      * intros _. cbn. now replace (i + 1 - 1)%nat with i by lia.
      * now replace (c + 1 - 1)%nat with c by lia.
Qed.

(** X9.  What a call of [fetchWithRetry] spends and what it can hand
    back, from any state of the network: it makes [m] requests with
    [m <= retries], all of them to [url]; its timers add up to
    [2^(m-1) - 1] seconds; a response it returns has [ok] set and is
    the reply to the last request made; it gives up only after
    [retries] requests. *)
Theorem fetchWithRetry_budget (url : jsstring) (retries : nat) (w : world) :
  exists m added,
    (m <= retries)%nat
    /\ fst (fetchWithRetry url retries w)
       = World (replies w) (calls w + m) (log w ++ added)
    /\ requested added = replicate m url
    /\ totalWait added = (2 ^ N.of_nat (m - 1) - 1) * 1000
    /\ match snd (fetchWithRetry url retries w) with
       | inr response =>
           (0 < m)%nat /\ replies w (calls w + m - 1)%nat = Resolves response
           /\ ok response = true
       | inl _ => m = retries
       end.
Proof.
  unfold fetchWithRetry.
  destruct (retryLoop_budget url retries retries 0%nat None w eq_refl)
    as (m & added & Hm & _ & Hw & Hreq & Hwait & Hnone & Hres).
  exists m, added. split; [exact Hm|]. split; [exact Hw|]. split; [exact Hreq|].
  split; [|exact Hres].
  destruct m as [|m].
  - rewrite (Hnone eq_refl). reflexivity.
  - specialize (Hwait ltac:(lia)). cbn [Nat.add] in Hwait.
    change (N.of_nat 0) with 0 in Hwait. rewrite N.pow_0_r in Hwait.
    assert (Hpos : 1 <= 2 ^ N.of_nat (S m - 1)).
    { pose proof (N.pow_nonzero 2 (N.of_nat (S m - 1)) ltac:(lia)). lia. }
    lia.
Qed.

(** X10.  [fetchChangelog] (taking the body of a response as read):
    at most three requests, all to the default url, timers of at most
    three seconds in all, and the text returned is the body of a
    response with [ok] set. *)
Theorem fetchChangelog_budget (w : world) :
  exists m added,
    (m <= 3)%nat
    /\ fst (fetchChangelog w) = World (replies w) (calls w + m) (log w ++ added)
    /\ requested added = replicate m DEFAULT_CHANGELOG_URL
    /\ totalWait added <= 3000
    /\ match snd (fetchChangelog w) with
       | inr body =>
           exists response,
             replies w (calls w + m - 1)%nat = Resolves response
             /\ ok response = true /\ body = text response
       | inl _ => m = 3%nat
       end.
Proof.
  unfold fetchChangelog, fetchWithRetry, bind.
  destruct (retryLoop_budget DEFAULT_CHANGELOG_URL 3 3 0%nat None w eq_refl)
    as (m & added & Hm & _ & Hw & Hreq & Hwait & Hnone & Hres).
  exists m, added.
  destruct (retryLoop DEFAULT_CHANGELOG_URL 3 3 0 None w) as [w' [e|response]];
    cbn [fst snd] in *.
  - repeat split; try assumption; try lia. subst m.
    specialize (Hwait ltac:(lia)). cbn in Hwait. lia.
  - destruct Hres as (Hpos & Hreply & Hok).
    repeat split; try assumption.
    + specialize (Hwait Hpos).
      destruct m as [|[|[|[|m]]]]; try lia; cbn in Hwait; lia.
    + exists response. repeat split; assumption.
Qed.

End FetchLaws.

(** ** Laws of the item categorizer *)

Module CategorizeLaws.

Import Changelog Laws.

Lemma contains_mono (t t' p : jsstring) :
  Spec.contains t' t -> Spec.contains t p -> Spec.contains t' p.
Proof.
  intros (a1 & a2 & ->) (b1 & b2 & ->). exists (a1 ++ b1), (b2 ++ a2).
  now rewrite <- !app_assoc.
Qed.

Lemma rule_breaking_mono (t t' : jsstring) :
  Spec.contains t' t -> Spec.rule_breaking t -> Spec.rule_breaking t'.
Proof. unfold Spec.rule_breaking. intros Ht [H | [H1 H2]]; eauto using contains_mono. Qed.

Lemma rule_removal_mono (t t' : jsstring) :
  Spec.contains t' t -> Spec.rule_removal t -> Spec.rule_removal t'.
Proof. unfold Spec.rule_removal. intros Ht [H | [H | H]]; eauto using contains_mono. Qed.

Lemma rule_fix_mono (t t' : jsstring) :
  Spec.contains t' t -> Spec.rule_fix t -> Spec.rule_fix t'.
Proof. unfold Spec.rule_fix. intros Ht [H | [H | [H | H]]]; eauto 6 using contains_mono. Qed.

Lemma rule_feature_mono (t t' : jsstring) :
  Spec.contains t' t -> Spec.rule_feature t -> Spec.rule_feature t'.
Proof.
  unfold Spec.rule_feature. intros Ht [H | [H | [H | H]]]; eauto 6 using contains_mono.
Qed.

(** A text with "fixed" has "fix". *)
Lemma includes_fixed (t : jsstring) :
  Str.includes t (js "fix") || Str.includes t (js "fixed") = Str.includes t (js "fix").
Proof.
  destruct (Str.includes t (js "fixed")) eqn:Hfixed; [|apply orb_false_r].
  apply CategorizeFacts.includes_contains in Hfixed as (a & b & ->).
  assert (Hfix : Str.includes (a ++ js "fixed" ++ b) (js "fix") = true).
  { apply CategorizeFacts.includes_contains. now exists a, (js "ed" ++ b). }
  now rewrite Hfix.
Qed.

Section WithLowerCase.

Variable toLowerCase : jsstring -> jsstring.

(** X11.  More text never lowers the category: when the lower-cased
    text of [a] occurs in the lower-cased text of [b], the kind of [b]
    is at least as high in the precedence chain (breaking, removal,
    fix, feature, other) as the kind of [a].  The rules only test for
    the presence of words, never for their absence. *)
Theorem categorizeItem_monotone (a b : jsstring) :
  Spec.contains (toLowerCase b) (toLowerCase a) ->
  (rank (categorizeItem toLowerCase a) <= rank (categorizeItem toLowerCase b))%nat.
Proof.
  intros Hsub.
  pose proof (CategorizeFacts.categorizeItem_classify toLowerCase a) as Ha.
  pose proof (CategorizeFacts.categorizeItem_classify toLowerCase b) as Hb.
  pose proof (rule_breaking_mono _ _ Hsub) as M1.
  pose proof (rule_removal_mono _ _ Hsub) as M2.
  pose proof (rule_fix_mono _ _ Hsub) as M3.
  pose proof (rule_feature_mono _ _ Hsub) as M4.
  destruct Ha; destruct Hb; cbn [rank]; try lia; exfalso; eauto.
Qed.

(** X12.  The test for "fixed" decides nothing: a text that has
    "fixed" has "fix", so [categorizeItem] is the chain below, in which
    the fix rule looks for "fix", "bug" and "issue" only. *)
Theorem fixed_test_redundant (content : jsstring) :
  categorizeItem toLowerCase content
  = let lowerContent := toLowerCase content in
    if Str.includes lowerContent (js "breaking")
       || (Str.includes lowerContent (js "removed")
           && Str.includes lowerContent (js "support"))
    then Breaking
    else if Str.includes lowerContent (js "removed")
            || Str.includes lowerContent (js "deprecated")
            || Str.includes lowerContent (js "no longer")
    then Removal
    else if Str.includes lowerContent (js "fix")
            || Str.includes lowerContent (js "bug")
            || Str.includes lowerContent (js "issue")
    then Fix
    else if Str.includes lowerContent (js "add")
            || Str.includes lowerContent (js "new")
            || Str.includes lowerContent (js "feature")
            || Str.includes lowerContent (js "support")
    then Feature
    else Other.
Proof.
  unfold categorizeItem. cbv zeta. now rewrite includes_fixed.
Qed.

End WithLowerCase.

Lemma categorizeItem_monotone_witness :
  (rank (categorizeItem Examples.lower (js "Fixed a crash"))
   <= rank (categorizeItem Examples.lower (js "BREAKING: Fixed a crash")))%nat.
Proof.
  apply (categorizeItem_monotone Examples.lower).
  exists (js "breaking: "), []. reflexivity.
Defined.

End CategorizeLaws.

(** ** Laws of the sweep over the sources *)

Module SourcesLaws.

Import Sources Laws.

Lemma contributions_sublist (active : list ChangelogSource) : forall replies,
  (fun e => (sourceId e, sourceName e))
    <$> mjoin (imap (fun i source => contribution source (replies i)) active)
  `sublist_of` (fun source => (id source, name source)) <$> active.
Proof.
  induction active as [|source active IH]; intros replies; [constructor|].
  cbn [imap mjoin list_join]. rewrite fmap_app, fmap_cons.
  specialize (IH (replies ∘ S)). unfold compose in *.
  destruct (replies 0%nat); cbn [contribution fmap list_fmap app].
  1-3: now apply sublist_cons.
  now apply sublist_skip.
Qed.

Lemma sum_list_insert (l : list nat) (i x y : nat) :
  l !! i = Some x -> (sum_list (<[i := y]> l) + x = sum_list l + y)%nat.
Proof.
  revert i. induction l as [|a l IH]; intros [|i] Hi; try discriminate.
  - injection Hi as ->. change (<[0%nat := y]> (x :: l)) with (y :: l).
    cbn [sum_list sum_list_with]. unfold Datatypes.id. lia.
  - change (<[S i := y]> (a :: l)) with (a :: <[i := y]> l).
    specialize (IH i Hi). cbn [sum_list sum_list_with] in *. lia.
Qed.

Lemma awaited_insert (sw : sweep) (i : nat) (old new : ChangelogSource * task)
    (lg : list event) :
  tasks sw !! i = Some old ->
  (awaited (Sweep (<[i := new]> (tasks sw)) lg) + awaits old
   = awaited sw + awaits new)%nat.
Proof.
  intros Hi. unfold awaited. cbn [tasks]. rewrite list_fmap_insert.
  apply sum_list_insert. now rewrite list_lookup_fmap, Hi.
Qed.

Lemma step_spends (sw sw' : sweep) :
  step sw sw' ->
  (awaited sw' < awaited sw)%nat /\ length (log sw') = S (length (log sw)).
Proof.
  destruct 1 as [sw i source Hi | sw i source Hi | sw i source Hi | sw i source md Hi];
    unfold settle; cbn [log]; rewrite length_app; cbn [length];
    (split; [|lia]);
    match goal with
    | |- (awaited (Sweep (<[_ := ?new]> _) ?lg) < _)%nat =>
        pose proof (awaited_insert sw i _ new lg Hi) as Hsum
    end;
    cbn [awaits snd] in Hsum; lia.
Qed.

Lemma awaited_start (active : list ChangelogSource) :
  awaited (start active) = (2 * length active)%nat.
Proof.
  unfold awaited, start. cbn [tasks].
  induction active as [|source active IH]; [reflexivity|].
  cbn in *. rewrite IH. lia.
Qed.

Lemma awaited_zero (ts : list (ChangelogSource * task)) (lg : list event) :
  awaited (Sweep ts lg) = 0%nat <-> is_Some (returned (Sweep ts lg)).
Proof.
  unfold awaited, returned. cbn [tasks].
  induction ts as [|[source t] ts IH]; cbn.
  - split; [eauto | reflexivity].
  - destruct t as [| |v]; cbn.
    + split; [lia | now intros [? ?]].
    + split; [lia | now intros [? ?]].
    + rewrite IH. destruct (mapM _ ts) as [values|]; cbn; split; eauto;
        intros [? ?]; discriminate.
Qed.

Lemma awaited_pending (sw : sweep) :
  awaited sw <> 0%nat -> exists sw', step sw sw'.
Proof.
  destruct sw as [ts lg]. unfold awaited. cbn [tasks].
  assert (Hfind : sum_list (awaits <$> ts) <> 0%nat ->
                  exists i source, ts !! i = Some (source, AwaitFetch)
                                   \/ ts !! i = Some (source, AwaitJson)).
  { induction ts as [|[source t] ts IH]; cbn; [congruence|].
    destruct t as [| |v]; cbn.
    - intros _. exists 0%nat, source. now left.
    - intros _. exists 0%nat, source. now right.
    - intros Hne. destruct (IH Hne) as (i & source' & Hi).
      exists (S i), source'. exact Hi. }
  intros Hne. destruct (Hfind Hne) as (i & source & [Hi | Hi]).
  - eexists. apply (step_fetch_fails (Sweep ts lg) i source Hi).
  - eexists. apply (step_json_fails (Sweep ts lg) i source Hi).
Qed.

(** X13.  The shape of the result of [fetchAllActiveChangelogs], for
    every reply to the request of the list of sources: the call
    rejects exactly when the body does not parse or parses to a value
    that is not a list of sources (in the first case the promise that
    [fetchSources] returns without awaiting it rejects, in the second
    [fetchSources] is fulfilled and [sources.filter] throws); it
    gives the empty list when the request of the list fails; and when
    the list is served the entries returned carry, in the order of the
    list, the ids and names of some of the active sources, each at
    most once. *)
Theorem sweep_result_shape (r : sourcesReply) (replies : nat -> reply) :
  (fetchAllActiveChangelogs r replies = None
   <-> r = SourcesMalformed \/ r = SourcesIllTyped)
  /\ (fetchSources r = None <-> r = SourcesMalformed)
  /\ (r = SourcesUnavailable -> fetchAllActiveChangelogs r replies = Some [])
  /\ (forall sources,
        r = SourcesServed sources ->
        exists result,
          fetchAllActiveChangelogs r replies = Some result
          /\ (fun e => (sourceId e, sourceName e)) <$> result
             `sublist_of` (fun source => (id source, name source))
                            <$> List.filter is_active sources
          /\ (length result <= length (List.filter is_active sources))%nat).
Proof.
  assert (Hserved : forall sources,
    exists result,
      fetchAllActiveChangelogs (SourcesServed sources) replies = Some result
      /\ (fun e => (sourceId e, sourceName e)) <$> result
         `sublist_of` (fun source => (id source, name source))
                        <$> List.filter is_active sources
      /\ (length result <= length (List.filter is_active sources))%nat).
  { intros sources. rewrite SourcesFacts.fetchAll_contributions.
    eexists. split; [reflexivity|].
    pose proof (contributions_sublist (List.filter is_active sources) replies) as Hsub.
    split; [exact Hsub|].
    apply sublist_length in Hsub. now rewrite !length_fmap in Hsub. }
  split; [|split; [|split]].
  - destruct r as [| | |sources].
    + split; [discriminate | intros [H | H]; discriminate].
    + split; [auto | reflexivity].
    + split; [auto | reflexivity].
    + destruct (Hserved sources) as (result & Hres & _). rewrite Hres.
      split; [discriminate | intros [H | H]; discriminate].
  - destruct r; cbn; split; congruence.
  - intros ->. reflexivity.
  - intros sources ->. apply Hserved.
Qed.

(** X14.  A run of the callbacks is finite and cannot stall: with [n]
    active sources, the log never holds more than [3 * n] events (the
    [n] requests and at most two resumptions per callback, so no
    request is ever repeated); every resumption uses up one of the
    awaited replies; as long as a reply is awaited a resumption is
    possible; and the value is returned exactly when none is. *)
Theorem sweep_finite (sources : list ChangelogSource) (sw : sweep) :
  reachable sources sw ->
  (length (log sw) + awaited sw <= 3 * length (List.filter is_active sources))%nat
  /\ (length (List.filter is_active sources) <= length (log sw))%nat
  /\ (forall sw', step sw sw' ->
        (awaited sw' < awaited sw)%nat /\ length (log sw') = S (length (log sw)))
  /\ (awaited sw <> 0%nat -> exists sw', step sw sw')
  /\ (awaited sw = 0%nat <-> is_Some (returned sw)).
Proof.
  intros Hreach.
  assert (Hbound : (length (log sw) + awaited sw
                    <= 3 * length (List.filter is_active sources))%nat
                   /\ (length (List.filter is_active sources) <= length (log sw))%nat).
  { unfold reachable in Hreach. induction Hreach as [|sw2 sw3 _ [IH1 IH2] Hstep].
    - rewrite awaited_start. unfold start. cbn [log]. rewrite length_imap. lia.
    - destruct (step_spends sw2 sw3 Hstep). lia. }
  destruct Hbound as [Hb1 Hb2].
  split; [exact Hb1|]. split; [exact Hb2|].
  split; [apply step_spends|]. split; [apply awaited_pending|].
  destruct sw as [ts lg]. apply awaited_zero.
Qed.

Lemma sweep_finite_witness :
  (length (log Examples.secondFirst) + awaited Examples.secondFirst
   <= 3 * length (List.filter is_active [Examples.srcA; Examples.srcB; Examples.srcC]))%nat.
Proof.
  exact (proj1 (sweep_finite [Examples.srcA; Examples.srcB; Examples.srcC]
                  Examples.secondFirst SourcesFacts.secondFirst_reachable)).
Defined.

End SourcesLaws.

(** ** The optional arguments of the parser *)

Module ArgumentLaws.

Import Changelog Laws.

Section WithParameters.

Variable toLowerCase : jsstring -> jsstring.
Variable sid sname : option jsstring.
Variable rd : option (gmap (list N) (list N)).

Local Abbreviation step := (parseLine toLowerCase sid sname rd).
Local Abbreviation bare := (parseLine toLowerCase None None None).
Local Abbreviation tag := (tagged sid sname rd).
Local Abbreviation tagState := (taggedState sid sname rd).

Lemma pushCurrent_tagged (st : pstate) :
  pushCurrent (tagState st) = tag <$> pushCurrent st.
Proof.
  destruct st as [vs [cv|]]; cbn; [|reflexivity]. now rewrite fmap_app.
Qed.

Lemma step_tagged (st : pstate) (line : jsstring) :
  step (tagState st) line = tagState (bare st line).
Proof.
  unfold parseLine. destruct (Regex.exec versionRe line) as [m|].
  - unfold taggedState at 2. cbn [versions currentVersion fmap option_fmap option_map].
    rewrite pushCurrent_tagged. do 2 f_equal.
    unfold openVersion, tagged, headerDate. cbn [version date items].
    destruct (dateOfLine line), rd; reflexivity.
  - destruct st as [vs [cv|]];
      cbn [taggedState currentVersion versions fmap option_fmap option_map];
      [|reflexivity].
    destruct (isBullet line); reflexivity.
Qed.

Lemma fold_tagged (lines : list jsstring) : forall st,
  foldl step (tagState st) lines = tagState (foldl bare st lines).
Proof.
  induction lines as [|l ls IH]; intros st; [reflexivity|].
  cbn [foldl]. now rewrite step_tagged, IH.
Qed.

(** X15.  The optional arguments of [parseChangelog] decide nothing
    about what is found in the document: with a source and a table of
    release dates the result is the result without them, record by
    record, each with the source written on it and with its date, when
    the header gives none, looked up in the table.  Versions, items
    and dates written in the document are the same. *)
Theorem optional_arguments_only_decorate (markdown : jsstring) :
  parseChangelog toLowerCase sid sname rd markdown
  = tagged sid sname rd <$> parseChangelog toLowerCase None None None markdown.
Proof.
  unfold parseChangelog, parseLines.
  change (PState [] None) with (taggedState sid sname rd (PState [] None)) at 1.
  now rewrite fold_tagged, pushCurrent_tagged.
Qed.

End WithParameters.

End ArgumentLaws.

(** ** The version header is read without going back *)

Module GreedyFacts.

Import Regex Changelog Laws.

Lemma leading_app (p : N -> bool) (s : jsstring) :
  leading p s ++ afterLeading p s = s.
Proof.
  induction s as [|c s IH]; [reflexivity|]. cbn.
  destruct (p c); [cbn; now rewrite IH | reflexivity].
Qed.

Lemma leading_forallb (p : N -> bool) (s : jsstring) :
  forallb p (leading p s) = true.
Proof.
  induction s as [|c s IH]; [reflexivity|]. cbn.
  destruct (p c) eqn:Hc; [cbn; now rewrite Hc | reflexivity].
Qed.

Lemma afterLeading_head (p : N -> bool) (s : jsstring) (c : N) :
  head (afterLeading p s) = Some c -> p c = false.
Proof.
  induction s as [|a s IH]; [discriminate|]. cbn.
  destruct (p a) eqn:Ha; [exact IH|]. now intros [= <-].
Qed.

(** A run of [p] at the head of [s] is part of the leading run. *)
Lemma leading_prefix (p : N -> bool) (a t : jsstring) :
  forallb p a = true -> exists u, leading p (a ++ t) = a ++ u.
Proof.
  induction a as [|c a IH]; cbn; [eauto|].
  intros [Hc Ha]%andb_true_iff. rewrite Hc.
  destruct (IH Ha) as [u ->]. eauto.
Qed.

Lemma leading_stop (p : N -> bool) (a t : jsstring) (c : N) :
  forallb p a = true -> p c = false ->
  leading p (a ++ c :: t) = a /\ afterLeading p (a ++ c :: t) = c :: t.
Proof.
  intros Ha Hc. induction a as [|x a IH]; cbn.
  - now rewrite Hc.
  - cbn in Ha. apply andb_true_iff in Ha as [Hx Ha]. rewrite Hx.
    destruct (IH Ha) as [-> ->]. now split.
Qed.

(** Greedy repetition in front of a continuation that cannot start
    with a character of the class: the whole run is taken, or nothing
    matches. *)
Lemma rep_greedy_blocked p k cs : blocked p k -> forall s lo hi,
  rep p lo hi k cs s
  = if (lo <=? length (leading p s))%nat && within hi (length (leading p s))
    then k (MState (afterLeading p s) cs)
    else None.
Proof.
  intros Hk. induction s as [|c s IH]; intros lo hi.
  - cbn. destruct lo, hi; reflexivity.
  - rewrite TrailingFacts.rep_cons. cbv zeta. cbn [leading afterLeading].
    destruct (p c) eqn:Hc; cbn [andb length].
    + assert (Hstop : match lo with
                      | 0%nat => k (MState (c :: s) cs)
                      | S _ => None
                      end = None).
      { destruct lo; [now apply Hk | reflexivity]. }
      rewrite Hstop. destruct hi as [[|h]|]; cbn [room within].
      * now rewrite andb_false_r.
      * rewrite IH. cbn [fmap option_fmap option_map pred within].
        replace (Nat.pred lo <=? length (leading p s))%nat
          with (lo <=? S (length (leading p s)))%nat.
        2:{ destruct lo; [reflexivity|]. reflexivity. }
        change (S (length (leading p s)) <=? S h)%nat
          with (length (leading p s) <=? h)%nat.
        now destruct (_ && _), (k _).
      * rewrite IH. cbn [fmap option_fmap option_map pred within].
        replace (Nat.pred lo <=? length (leading p s))%nat
          with (lo <=? S (length (leading p s)))%nat.
        2:{ destruct lo; [reflexivity|]. reflexivity. }
        now destruct (_ && _), (k _).
    + destruct lo, hi; reflexivity.
Qed.

(** Greedy repetition in front of a continuation that never fails:
    the whole run is taken. *)
Lemma rep_greedy_total p k cs : total k -> forall s lo,
  rep p lo None k cs s
  = if (lo <=? length (leading p s))%nat
    then k (MState (afterLeading p s) cs)
    else None.
Proof.
  intros Hk. induction s as [|c s IH]; intros lo.
  - cbn. destruct lo; reflexivity.
  - rewrite TrailingFacts.rep_cons. cbv zeta. cbn [leading afterLeading].
    destruct (p c) eqn:Hc; cbn [andb length room].
    + rewrite IH. cbn [fmap option_fmap option_map pred].
      replace (Nat.pred lo <=? length (leading p s))%nat
        with (lo <=? S (length (leading p s)))%nat.
      2:{ destruct lo; [reflexivity|]. reflexivity. }
      destruct (lo <=? S (length (leading p s)))%nat eqn:Hlo.
      * now destruct (Hk (MState (afterLeading p s) cs)) as [res ->].
      * destruct lo; [discriminate | reflexivity].
    + destruct lo; reflexivity.
Qed.

Lemma rep_optional_total p hi k cs s : total k -> is_Some (rep p 0 hi k cs s).
Proof.
  intros Hk. destruct s as [|c s]; [apply Hk|].
  rewrite TrailingFacts.rep_cons. cbv zeta.
  destruct (p c && room hi); [|apply Hk].
  destruct (rep p _ _ k cs s); [eauto | apply Hk].
Qed.

Lemma rep_caps p cs res : forall s lo hi,
  rep p lo hi Some cs s = Some res -> caps res = cs.
Proof.
  induction s as [|c s IH]; intros lo hi.
  - cbn. destruct lo; [now intros [= <-] | discriminate].
  - rewrite TrailingFacts.rep_cons. cbv zeta.
    assert (Hstop : match lo with
                    | 0%nat => Some (MState (c :: s) cs)
                    | S _ => None
                    end = Some res -> caps res = cs).
    { destruct lo; [now intros [= <-] | discriminate]. }
    destruct (p c && room hi); [|exact Hstop].
    destruct (rep p (Nat.pred lo) (Nat.pred <$> hi) Some cs s) eqn:Hin; [|exact Hstop].
    intros [= <-]. now apply IH in Hin.
Qed.

Lemma digit_not_dot (c : N) : Chars.isDigit c = true -> Chars.isChar Chars.dot c = false.
Proof.
  unfold Chars.isDigit, Chars.isChar, Chars.dot.
  intros [H1 H2]%andb_true_iff. apply N.leb_le in H1, H2. apply N.eqb_neq. lia.
Qed.

Lemma digit_not_hyphen (c : N) :
  Chars.isDigit c = true -> Chars.isChar Chars.hyphen c = false.
Proof.
  unfold Chars.isDigit, Chars.isChar, Chars.hyphen.
  intros [H1 H2]%andb_true_iff. apply N.leb_le in H1, H2. apply N.eqb_neq. lia.
Qed.

(** Digits and a dot, then [r]. *)
Lemma digits_dot_scan input (r : regex) (k : cont) (s : jsstring) cs :
  rmatch input (Rep Chars.isDigit 1 None >> Chr (Chars.isChar Chars.dot) >> r)%re k
    (MState s cs)
  = match scanDigitsDot s with
    | Some (_, s') => rmatch input r k (MState s' cs)
    | None => None
    end.
Proof.
  cbn [rmatch rest caps]. rewrite rep_greedy_blocked.
  2:{ intros c s' cs' Hc. cbn [rmatch rest caps]. now rewrite (digit_not_dot c Hc). }
  unfold scanDigitsDot. cbn [within]. rewrite andb_true_r.
  destruct (leading Chars.isDigit s) as [|d ds]; [reflexivity|].
  cbn [length Nat.leb]. cbn [rmatch rest caps].
  destruct (afterLeading Chars.isDigit s) as [|c s']; [reflexivity|].
  now destruct (Chars.isChar Chars.dot c).
Qed.

Lemma scanDigitsDot_spec (s d s' : jsstring) :
  scanDigitsDot s = Some (d, s') ->
  d = leading Chars.isDigit s ++ [Chars.dot]
  /\ leading Chars.isDigit s <> [] /\ s = d ++ s'.
Proof.
  unfold scanDigitsDot. pose proof (leading_app Chars.isDigit s) as Happ.
  destruct (leading Chars.isDigit s) as [|x xs] eqn:Hlead; [discriminate|].
  destruct (afterLeading Chars.isDigit s) as [|c t]; [discriminate|].
  destruct (Chars.isChar Chars.dot c) eqn:Hc; [|discriminate].
  apply PatternFacts.isChar_eq in Hc as ->. intros [= <- <-].
  split; [reflexivity|]. split; [discriminate|].
  rewrite <- Happ. cbn [app]. now rewrite <- app_assoc.
Qed.

Lemma scanTag_app (s tag r : jsstring) : scanTag s = (tag, r) -> s = tag ++ r.
Proof.
  unfold scanTag. destruct s as [|c s]; [now intros [= <- <-]|].
  destruct (_ && _); intros [= <- <-]; [|reflexivity].
  cbn. now rewrite leading_app.
Qed.

(** The last number and the optional tag, in front of a continuation
    that never fails. *)
Lemma patch_tag_scan input (k : cont) (s : jsstring) cs :
  total k ->
  rmatch input
    (Rep Chars.isDigit 1 None
     >> Opt (Chr (Chars.isChar Chars.hyphen) >> Rep Chars.isTagChar 1 None))%re
    k (MState s cs)
  = match leading Chars.isDigit s with
    | [] => None
    | _ :: _ => k (MState (scanTag (afterLeading Chars.isDigit s)).2 cs)
    end.
Proof.
  intros Hk. cbn [rmatch rest caps]. rewrite rep_greedy_total.
  2:{ intros st. destruct (match rest st with [] => None | _ => _ end); [eauto | apply Hk]. }
  destruct (leading Chars.isDigit s) as [|d ds]; [reflexivity|].
  cbn [length Nat.leb rest caps].
  unfold scanTag. destruct (afterLeading Chars.isDigit s) as [|c t].
  - reflexivity.
  - destruct (Chars.isChar Chars.hyphen c); cbn [andb]; [|reflexivity].
    rewrite rep_greedy_total by exact Hk.
    destruct (1 <=? length (leading Chars.isTagChar t))%nat; [|reflexivity].
    cbn [snd]. now destruct (Hk (MState (afterLeading Chars.isTagChar t) cs)) as [res ->].
Qed.

(** The version group is the scanner. *)
Lemma token_scan input (k : cont) (s : jsstring) cs :
  total k ->
  rmatch input (Group 1 versionTokenRe) k (MState s cs)
  = match scanToken s with
    | Some (v, r) => k (MState r ((1%nat, v) :: cs))
    | None => None
    end.
Proof.
  intros Hk. cbn [rmatch rest caps]. unfold versionTokenRe, scanToken.
  rewrite digits_dot_scan.
  destruct (scanDigitsDot s) as [[major s1]|] eqn:H1; [|reflexivity].
  rewrite digits_dot_scan.
  destruct (scanDigitsDot s1) as [[minor s2]|] eqn:H2; [|reflexivity].
  rewrite patch_tag_scan by (intros st; apply Hk).
  pose proof (leading_app Chars.isDigit s2) as H3.
  destruct (leading Chars.isDigit s2) as [|d ds] eqn:Hpatch; [reflexivity|].
  destruct (scanTag (afterLeading Chars.isDigit s2)) as [tag r] eqn:Htag.
  cbn [snd rest caps].
  apply scanDigitsDot_spec in H1 as (_ & _ & ->).
  apply scanDigitsDot_spec in H2 as (_ & _ & ->).
  apply scanTag_app in Htag. rewrite Htag in H3. rewrite <- H3.
  replace (major ++ minor ++ (d :: ds) ++ tag ++ r)
    with ((major ++ minor ++ (d :: ds) ++ tag) ++ r) by now rewrite <- !app_assoc.
  now rewrite PatternFacts.consumed_app.
Qed.

(** What the scanner returns is the longest version at the head. *)
Lemma scanToken_longest (s v r : jsstring) :
  scanToken s = Some (v, r) ->
  s = v ++ r
  /\ forall v', Spec.versionToken v' -> v' `prefix_of` s -> v' `prefix_of` v.
Proof.
  unfold scanToken.
  destruct (scanDigitsDot s) as [[major s1]|] eqn:H1; [|discriminate].
  destruct (scanDigitsDot s1) as [[minor s2]|] eqn:H2; [|discriminate].
  pose proof (leading_app Chars.isDigit s2) as H3.
  pose proof (leading_forallb Chars.isDigit s2) as Hdigits.
  destruct (leading Chars.isDigit s2) as [|d ds] eqn:Hpatch; [discriminate|].
  remember (d :: ds) as patch eqn:Epatch. clear d ds Epatch.
  destruct (scanTag (afterLeading Chars.isDigit s2)) as [tag r'] eqn:Htag.
  intros [= <- <-].
  apply scanDigitsDot_spec in H1 as (Hmajor & _ & Hs).
  apply scanDigitsDot_spec in H2 as (Hminor & _ & Hs1).
  pose proof (scanTag_app _ _ _ Htag) as Hs3.
  split.
  { rewrite Hs, Hs1, <- H3, Hs3. now rewrite <- !app_assoc. }
  intros v' (major' & minor' & patch' & tag' & -> & [_ Dmajor] & [_ Dminor]
             & [_ Dpatch] & Htag') [k Hk].
  assert (Hdot : Chars.isDigit Chars.dot = false) by reflexivity.
  rewrite <- !app_assoc in Hk. cbn [app] in Hk.
  (* the first two numbers are those of the scanner *)
  set (t1 := minor' ++ Chars.dot :: patch' ++ tag' ++ k) in Hk.
  destruct (leading_stop Chars.isDigit major' t1 Chars.dot Dmajor Hdot) as [L1 _].
  rewrite <- Hk in L1.
  assert (E1 : s1 = t1).
  { assert (H : major' ++ Chars.dot :: t1 = (major' ++ [Chars.dot]) ++ s1)
      by (rewrite <- Hk, <- L1, <- Hmajor; exact Hs).
    rewrite <- app_assoc in H. apply app_inv_head in H. now injection H. }
  unfold t1 in E1. clear t1 Hk.
  set (t2 := patch' ++ tag' ++ k) in E1.
  destruct (leading_stop Chars.isDigit minor' t2 Chars.dot Dminor Hdot) as [L2 _].
  rewrite <- E1 in L2.
  assert (E2 : s2 = t2).
  { assert (H : minor' ++ Chars.dot :: t2 = (minor' ++ [Chars.dot]) ++ s2)
      by (rewrite <- E1, <- L2, <- Hminor; exact Hs1).
    rewrite <- app_assoc in H. apply app_inv_head in H. now injection H. }
  unfold t2 in E2. clear t2 E1.
  (* the third starts the run of digits *)
  destruct (leading_prefix Chars.isDigit patch' (tag' ++ k) Dpatch) as [u Hu].
  rewrite <- E2, Hpatch in Hu.
  assert (E3 : u ++ afterLeading Chars.isDigit s2 = tag' ++ k).
  { assert (H : patch' ++ u ++ afterLeading Chars.isDigit s2 = patch' ++ tag' ++ k)
      by (rewrite app_assoc, <- Hu, <- E2; exact H3).
    now apply app_inv_head in H. }
  rewrite Hmajor, L1, Hminor, L2, Hu. rewrite <- !app_assoc. cbn [app].
  apply prefix_app, prefix_cons, prefix_app, prefix_cons, prefix_app.
  destruct Htag' as [-> | (t & -> & Ht & Dt)]; [apply prefix_nil|].
  destruct u as [|c u].
  - (* the tag follows the run: the scanner takes it whole *)
    cbn [app] in E3 |- *. rewrite E3 in Htag. cbn [app scanTag] in Htag.
    destruct (leading_prefix Chars.isTagChar t k Dt) as [u' Hu'].
    change (Chars.isChar Chars.hyphen Chars.hyphen) with true in Htag.
    rewrite Hu' in Htag.
    assert (Hlen : (1 <=? length (t ++ u'))%nat = true).
    { destruct t; [congruence | reflexivity]. }
    rewrite Hlen in Htag. cbn [andb] in Htag. injection Htag as <- _.
    apply prefix_cons, prefix_app_r. reflexivity.
  - (* a digit follows: no tag can start there *)
    exfalso. rewrite Hu, forallb_app in Hdigits.
    apply andb_true_iff in Hdigits as [_ Hc]. cbn in Hc.
    apply andb_true_iff in Hc as [Hc _].
    cbn [app] in E3. injection E3 as -> _. discriminate.
Qed.

Lemma rmatch_seq input (r1 r2 : regex) (k : cont) (st : mstate) :
  rmatch input (r1 >> r2)%re k st = rmatch input r1 (rmatch input r2 k) st.
Proof. reflexivity. Qed.

Lemma rmatch_rep input p lo hi (k : cont) (s : jsstring) cs :
  rmatch input (Rep p lo hi) k (MState s cs) = rep p lo hi k cs s.
Proof. reflexivity. Qed.

Lemma rmatch_bol input (k : cont) (st : mstate) :
  rmatch input Bol k st
  = if (length (rest st) =? length input)%nat then k st else None.
Proof. reflexivity. Qed.

Lemma rbracket_total input :
  total (rmatch input (Rep (Chars.isChar Chars.rbracket) 0 (Some 1%nat)) Some).
Proof. intros [s cs]. rewrite rmatch_rep. apply rep_optional_total. intros st. eauto. Qed.

(** What follows the brackets of a header starts with a digit. *)
Lemma token_needs_digit input (c : N) (s : jsstring) cs :
  Chars.isDigit c = false ->
  rmatch input
    (Group 1 versionTokenRe >> Rep (Chars.isChar Chars.rbracket) 0 (Some 1%nat))%re
    Some (MState (c :: s) cs) = None.
Proof.
  intros Hc. rewrite rmatch_seq, token_scan by apply rbracket_total.
  unfold scanToken, scanDigitsDot. cbn [leading]. now rewrite Hc.
Qed.

Section Header.

Variable line : jsstring.

(** The head of a header line is read without choice. *)
Lemma header_scan (m : mstate) :
  exec versionRe line = Some m ->
  exists hashes ws bracket rest,
    line = hashes ++ ws ++ bracket ++ capture1 m ++ rest
    /\ forallb (Chars.isChar Chars.hash) hashes = true
    /\ (1 <= length hashes <= 2)%nat
    /\ forallb Chars.isSpace ws = true /\ (1 <= length ws)%nat
    /\ forallb (Chars.isChar Chars.lbracket) bracket = true
    /\ (length bracket <= 1)%nat
    /\ scanToken (capture1 m ++ rest) = Some (capture1 m, rest).
Proof.
  rewrite PatternFacts.exec_versionRe. unfold versionRe, versionTailRe.
  rewrite rmatch_seq, rmatch_bol. cbn [rest]. rewrite Nat.eqb_refl.
  rewrite rmatch_seq, rmatch_rep, rep_greedy_blocked.
  2:{ intros c s cs Hc. apply PatternFacts.isChar_eq in Hc as ->.
      rewrite rmatch_seq, rmatch_rep. reflexivity. }
  set (hashes := leading (Chars.isChar Chars.hash) line).
  set (s1 := afterLeading (Chars.isChar Chars.hash) line).
  destruct ((1 <=? length hashes)%nat && within (Some 2%nat) (length hashes)) eqn:Hh;
    [|discriminate].
  rewrite rmatch_seq, rmatch_rep, rep_greedy_blocked.
  2:{ intros c s cs Hc.
      destruct (TrailingFacts.space_classes c Hc)
        as (Hd & _ & _ & _ & _ & _ & _ & _ & Hlb & _).
      rewrite rmatch_seq, rmatch_rep, TrailingFacts.rep_cons. cbv zeta.
      rewrite Hlb. cbn [andb]. now apply token_needs_digit. }
  set (ws := leading Chars.isSpace s1).
  set (s2 := afterLeading Chars.isSpace s1).
  destruct ((1 <=? length ws)%nat && within None (length ws)) eqn:Hw; [|discriminate].
  rewrite rmatch_seq, rmatch_rep, rep_greedy_blocked.
  2:{ intros c s cs Hc. apply PatternFacts.isChar_eq in Hc as ->.
      now apply token_needs_digit. }
  set (bracket := leading (Chars.isChar Chars.lbracket) s2).
  set (s3 := afterLeading (Chars.isChar Chars.lbracket) s2).
  destruct ((0 <=? length bracket)%nat && within (Some 1%nat) (length bracket)) eqn:Hb;
    [|discriminate].
  rewrite rmatch_seq, token_scan by apply rbracket_total.
  destruct (scanToken s3) as [[v r]|] eqn:Hscan; [|discriminate].
  rewrite rmatch_rep. intros Hm. apply rep_caps in Hm.
  assert (Hcap : capture1 m = v).
  { unfold capture1, group. rewrite Hm. reflexivity. }
  destruct (scanToken_longest s3 v r Hscan) as [Hs3 _].
  exists hashes, ws, bracket, r. rewrite Hcap.
  apply andb_true_iff in Hh as [Hh1 Hh2], Hw as [Hw1 _], Hb as [_ Hb2].
  cbn [within] in Hh2, Hb2. apply Nat.leb_le in Hh1, Hh2, Hw1, Hb2.
  split.
  { rewrite <- Hs3. unfold s3, bracket. rewrite leading_app.
    unfold s2, ws. rewrite leading_app. unfold s1, hashes. now rewrite leading_app. }
  split; [apply leading_forallb|]. split; [lia|].
  split; [apply leading_forallb|]. split; [lia|].
  split; [apply leading_forallb|]. split; [lia|].
  now rewrite <- Hs3.
Qed.

(** X16.  The version of a header is not cut short: a header line is
    one or two [#], whitespace, at most one "[", the version, and the
    rest of the line, and no longer version starts where the version
    starts (in "## 1.2.34-rc.1 notes" the version is "1.2.34-rc.1",
    not "1.2.3" nor "1.2.34"). *)
Theorem version_is_longest :
  isHeader line = true ->
  exists hashes ws bracket rest,
    line = hashes ++ ws ++ bracket ++ versionOf line ++ rest
    /\ forallb (Chars.isChar Chars.hash) hashes = true
    /\ (1 <= length hashes <= 2)%nat
    /\ forallb Chars.isSpace ws = true /\ (1 <= length ws)%nat
    /\ forallb (Chars.isChar Chars.lbracket) bracket = true
    /\ (length bracket <= 1)%nat
    /\ forall v', Spec.versionToken v' ->
         v' `prefix_of` (versionOf line ++ rest) -> v' `prefix_of` versionOf line.
Proof.
  unfold isHeader, versionOf.
  destruct (exec versionRe line) as [m|] eqn:Hm; [|discriminate]. intros _.
  destruct (header_scan m Hm)
    as (hashes & ws & bracket & rest & Hline & Hh & Hhn & Hw & Hwn & Hb & Hbn & Hscan).
  exists hashes, ws, bracket, rest. repeat split; try assumption; try lia.
  apply (scanToken_longest _ _ _ Hscan).
Qed.

End Header.

Lemma version_is_longest_witness :
  exists hashes ws bracket rest,
    js "## 1.2.34-rc.1 notes"
    = hashes ++ ws ++ bracket ++ versionOf (js "## 1.2.34-rc.1 notes") ++ rest
    /\ forallb (Chars.isChar Chars.hash) hashes = true
    /\ (1 <= length hashes <= 2)%nat
    /\ forallb Chars.isSpace ws = true /\ (1 <= length ws)%nat
    /\ forallb (Chars.isChar Chars.lbracket) bracket = true
    /\ (length bracket <= 1)%nat
    /\ forall v', Spec.versionToken v' ->
         v' `prefix_of` (versionOf (js "## 1.2.34-rc.1 notes") ++ rest) ->
         v' `prefix_of` versionOf (js "## 1.2.34-rc.1 notes").
Proof. exact (version_is_longest (js "## 1.2.34-rc.1 notes") eq_refl). Defined.

End GreedyFacts.

(** ** The lines that the parser looks at *)

Module MarkerLaws.

Import Changelog Laws.

Lemma header_hasMarker (line : jsstring) : isHeader line = true -> hasMarker line = true.
Proof.
  intros (hashes & ws & bracket & v & rest & -> & Hhashes & _)%PatternFacts.isHeader_shape.
  destruct Hhashes as [-> | ->]; reflexivity.
Qed.

Lemma bullet_hasMarker (line : jsstring) : isBullet line = true -> hasMarker line = true.
Proof.
  intros [r [-> | ->]]%ParserFacts.isBullet_spec; reflexivity.
Qed.

Section WithParameters.

Variable toLowerCase : jsstring -> jsstring.
Variable sid sname : option jsstring.
Variable rd : option (gmap (list N) (list N)).

Lemma fold_markers (lines : list jsstring) : forall st,
  foldl (parseLine toLowerCase sid sname rd) st (List.filter hasMarker lines)
  = foldl (parseLine toLowerCase sid sname rd) st lines.
Proof.
  induction lines as [|l ls IH]; intros st; [reflexivity|].
  cbn [List.filter]. destruct (hasMarker l) eqn:Hl; cbn [foldl]; [apply IH|].
  rewrite IH. f_equal. symmetry. apply ParserLaws.step_other.
  - destruct (isHeader l) eqn:Hh; [|reflexivity].
    apply header_hasMarker in Hh. congruence.
  - destruct (isBullet l) eqn:Hb; [|reflexivity].
    apply bullet_hasMarker in Hb. congruence.
Qed.

(** X17.  [parseChangelog] only looks at the lines that start with
    "#", "-" or "*": the result is that of the document in which all
    the other lines (empty lines, prose, indented or numbered list
    items, tables) are left out. *)
Theorem only_marker_lines_matter (markdown : jsstring) :
  parseChangelog toLowerCase sid sname rd markdown
  = parseLines toLowerCase sid sname rd
      (List.filter hasMarker (Str.split_lines markdown)).
Proof.
  unfold parseChangelog, parseLines. now rewrite fold_markers.
Qed.

End WithParameters.

End MarkerLaws.
